(** * R2PD.nearestnodes: nearest-neighbour allocation of resource sites to nodes

    A shallow embedding of [src/R2PD/nearestnodes.py] and the properties of
    its two entry points, [nearest_power_nodes] and [nearest_met_nodes].
    The time conventions of [src/R2PD/tshelpers.py] follow in the module
    [tshelpers].

    Conventions of the embedding.
    - Python floats are read as exact rationals ([Q]); results about them are
      stated up to [Qeq] ([==]).  What depends on rounding is stated on the
      run in binary64 (module [Over], with the arithmetic of lines 86-93 and
      the answer of the query as parameters), where a float is the rational
      it stands for.
    - A pandas DataFrame of numbers is a list of column names, a list of index
      labels and a matrix of values; index labels are integers.  Assigning
      the values of a one-column frame to several columns broadcasts them.
    - Exceptions are values of [exn]; a function that may raise returns a
      [result].
    - Both entry points take the frame [node_data]: a [NodeCollection]
      argument is replaced by its [node_data] before anything else happens.
    - [while True] is run with a bound [fuel] on the number of passes; the
      result is [None] when the bound is reached before the [break].
    - [scipy.spatial.cKDTree] is modelled by its documented contract for
      [query(x, k=1)]: for each query point the position of a nearest data
      point; a neighbour that does not exist (empty tree) is reported with an
      infinite distance and the position [n], the size of the tree.  Among
      equidistant data points the model returns the first one; SciPy leaves
      that choice open.
    - Distances are compared through their squares, which order points the
      same way the Euclidean distance does. *)

From Stdlib Require Import String.
From Stdlib Require Import List ZArith QArith Qround Qabs Qpower Qcanon.
From Stdlib Require Import Lqa Lia Bool Arith PeanoNat.
Import ListNotations.

Open Scope Q_scope.

(** ** Results and exceptions *)

(** Index labels of the tables (node and site identifiers). *)
Abbreviation label := Z (only parsing).

(** What a failed lookup was looking for: a column or a row label. *)
Inductive lookup_key : Type :=
| Column (name : string)
| Label (k : label).

(** The exceptions the module can raise, followed by the two error kinds that
    only the design document names; no statement of [nearestnodes.py] raises
    the latter two. *)
Inductive exn : Type :=
| KeyError (k : lookup_key)
| ValueError
| IndexError
| TypeError
| EmptyIndexError
| CapacityExhaustedError (unmet : list (label * Q)).

Inductive result (A : Type) : Type :=
| Ok (a : A)
| Raise (e : exn).
Arguments Ok {A} a.
Arguments Raise {A} e.

Definition bind {A B : Type} (r : result A) (k : A -> result B) : result B :=
  match r with
  | Ok a => k a
  | Raise e => Raise e
  end.

Notation "x <- r ;; k" := (bind r (fun x => k))
  (at level 61, r at next level, right associativity).

(** ** Numbers *)

(** [x > y] on floats. *)
Definition Qgtb (x y : Q) : bool := negb (Qle_bool x y).

Definition Qsum (l : list Q) : Q := fold_right Qplus 0 l.

(** ** DataFrames of numbers *)

Record DataFrame : Type := mkDataFrame {
  columns : list string;
  index : list label;
  values : list (list Q)
}.

(** [df.columns.get_loc(name)] *)
Fixpoint get_loc (name : string) (cols : list string) : option nat :=
  match cols with
  | [] => None
  | c :: cs => if String.eqb c name then Some O else option_map S (get_loc name cs)
  end.

(** [df[name]]: the column named [name]. *)
Definition getitem (df : DataFrame) (name : string) : result (list Q) :=
  match get_loc name (columns df) with
  | None => Raise (KeyError (Column name))
  | Some j => Ok (map (fun row => nth j row 0) (values df))
  end.

(** ** Working tables of [nearest_power_nodes] *)

(** A row of [r_nodes]; [res_name] is its index label. *)
Record resource : Type := mkResource {
  res_name : label;
  res_longitude : Q;
  res_latitude : Q;
  res_capacity : Q;
  res_r_cap : Q
}.

(** A row of [nodes]; [node_name] is its index label, [None] is a null cell. *)
Record node : Type := mkNode {
  node_name : label;
  latitude : Q;
  longitude : Q;
  capacity : Q;
  site_id : option (list label);
  site_fracs : option (list Q);
  r_cap : Q
}.

Record tables : Type := mkTables {
  r_nodes : list resource;
  nodes : list node
}.

(** [nodes.loc[:, ['latitude', 'longitude', 'capacity']] = node_data.values]
    followed by [nodes.loc[:, 'r_cap'] = node_data['capacity (MW)']].
    The values of a frame of three columns fill the three columns; those of
    a frame of a single column are broadcast over them; any other width is
    refused. *)
Fixpoint fill_nodes (idx : list label) (vals : list (list Q)) : result (list node) :=
  match idx, vals with
  | i :: idx', [la; lo; c] :: vals' =>
      rest <- fill_nodes idx' vals' ;;
      Ok (mkNode i la lo c None None 0 :: rest)
  | i :: idx', [v] :: vals' =>
      rest <- fill_nodes idx' vals' ;;
      Ok (mkNode i v v v None None 0 :: rest)
  | [], [] => Ok []
  | _, _ => Raise ValueError
  end.

Fixpoint assign_r_cap (ns : list node) (col : list Q) : list node :=
  match ns, col with
  | n :: ns', c :: col' =>
      mkNode (node_name n) (latitude n) (longitude n) (capacity n)
             (site_id n) (site_fracs n) c :: assign_r_cap ns' col'
  | _, _ => ns
  end.

Definition load_nodes (node_data : DataFrame) : result (list node) :=
  ns <- fill_nodes (index node_data) (values node_data) ;;
  col <- getitem node_data "capacity (MW)" ;;
  Ok (assign_r_cap ns col).

(** [r_nodes = resource_meta[['longitude', 'latitude', 'capacity']].copy()]
    followed by [r_nodes['r_cap'] = r_nodes['capacity']]. *)
Fixpoint zip_resources (idx : list label) (lon lat cap : list Q) : list resource :=
  match idx, lon, lat, cap with
  | i :: idx', lo :: lon', la :: lat', c :: cap' =>
      mkResource i lo la c c :: zip_resources idx' lon' lat' cap'
  | _, _, _, _ => []
  end.

Definition load_resources (resource_meta : DataFrame) : result (list resource) :=
  lon <- getitem resource_meta "longitude" ;;
  lat <- getitem resource_meta "latitude" ;;
  cap <- getitem resource_meta "capacity" ;;
  Ok (zip_resources (index resource_meta) lon lat cap).

(** ** Label-based row access: [df.loc[k]] and [df.loc[k] = row] *)

Section Loc.
Context {A : Type} (key : A -> label).

Definition loc (rows : list A) (k : label) : result A :=
  match find (fun r => Z.eqb (key r) k) rows with
  | Some r => Ok r
  | None => Raise (KeyError (Label k))
  end.

Definition loc_set (rows : list A) (k : label) (v : A) : list A :=
  map (fun r => if Z.eqb (key r) k then v else r) rows.
End Loc.

(** [index[i]] on a pandas Index. *)
Definition index_at (idx : list label) (i : nat) : result label :=
  match nth_error idx i with
  | Some k => Ok k
  | None => Raise IndexError
  end.

(** ** The spatial index *)

Definition point := (Q * Q)%type.

Inductive distance : Type :=
| Finite (d : Q)
| Inf.

Definition dist_ltb (a b : distance) : bool :=
  match a, b with
  | Finite x, Finite y => Qgtb y x
  | Finite _, Inf => true
  | Inf, _ => false
  end.

(** Squared Euclidean distance. *)
Definition dist2 (p q : point) : Q :=
  (fst p - fst q) * (fst p - fst q) + (snd p - snd q) * (snd p - snd q).

Definition cKDTree (data : list point) : list point := data.

Fixpoint nearest (x : point) (data : list point) (i : nat)
  (best : distance * nat) : distance * nat :=
  match data with
  | [] => best
  | p :: ps =>
      let d := Finite (dist2 x p) in
      nearest x ps (S i) (if dist_ltb d (fst best) then (d, i) else best)
  end.

(** [tree.query(x, k=1)] for one point. *)
Definition query1 (tree : list point) (x : point) : distance * nat :=
  nearest x tree 0%nat (Inf, length tree).

(** [tree.query(xs, k=1)]: the distances and the positions. *)
Definition query (tree : list point) (xs : list point) : list distance * list nat :=
  (map (fun x => fst (query1 tree x)) xs, map (fun x => snd (query1 tree x)) xs).

(** ** [groupby('pos')['dist'].idxmin()] *)

(** The frame [pds.DataFrame({'pos': pos, 'dist': dist})]: rows labelled
    [0 .. m-1]. *)
Definition pairs_frame (pos : list nat) (dist : list distance)
  : list (nat * (nat * distance)) :=
  combine (seq 0 (length pos)) (combine pos dist).

(** The [dist] series of the group with key [p], with its row labels. *)
Definition group (p : nat) (frame : list (nat * (nat * distance)))
  : list (nat * distance) :=
  map (fun r => (fst r, snd (snd r)))
      (filter (fun r => Nat.eqb (fst (snd r)) p) frame).

(** [idxmin]: the label of the first row carrying the smallest value. *)
Fixpoint idxmin (rows : list (nat * distance)) : option (nat * distance) :=
  match rows with
  | [] => None
  | (j, d) :: rest =>
      match idxmin rest with
      | Some (k, e) => if dist_ltb e d then Some (k, e) else Some (j, d)
      | None => Some (j, d)
      end
  end.

(** One entry [(pos, winner)] per group, groups in ascending key order. *)
Definition groupby_idxmin (pos : list nat) (dist : list distance)
  : list (nat * nat) :=
  flat_map (fun p => match idxmin (group p (pairs_frame pos dist)) with
                     | Some (n, _) => [(p, n)]
                     | None => []
                     end)
           (seq 0 (S (list_max pos))).

(** ** The allocation loop of [nearest_power_nodes] *)

Definition with_res_r_cap (r : resource) (c : Q) : resource :=
  mkResource (res_name r) (res_longitude r) (res_latitude r) (res_capacity r) c.

Definition with_r_cap (n : node) (c : Q) : node :=
  mkNode (node_name n) (latitude n) (longitude n) (capacity n)
         (site_id n) (site_fracs n) c.

(** Lines 86-93: the fraction of the resource given to the node, and both
    rows with their remaining capacities updated. *)
Definition apportion (resource0 : resource) (node0 : node)
  : Q * resource * node :=
  let cap := res_r_cap resource0 in
  if Qgtb (r_cap node0) cap then
    (cap / res_capacity resource0,
     with_res_r_cap resource0 0,
     with_r_cap node0 (r_cap node0 + -1 * cap))
  else
    (r_cap node0 / res_capacity resource0,
     with_res_r_cap resource0 (res_r_cap resource0 + -1 * r_cap node0),
     with_r_cap node0 0).

(** Lines 95-100: start or extend the node's two lists.
    [np.all(pds.isnull(x))] holds of a null cell and of an empty list. *)
Definition record_site (n : node) (file_id : label) (frac : Q) : result node :=
  match site_id n with
  | None | Some [] =>
      Ok (mkNode (node_name n) (latitude n) (longitude n) (capacity n)
                 (Some [file_id]) (Some [frac]) (r_cap n))
  | Some ids =>
      match site_fracs n with
      | Some fracs =>
          Ok (mkNode (node_name n) (latitude n) (longitude n) (capacity n)
                     (Some (ids ++ [file_id])) (Some (fracs ++ [frac])) (r_cap n))
      | None => Raise TypeError
      end
  end.

(** Body of [for i, n in node_pairs.iteritems()]. *)
Definition apply_pair (r_index n_index : list label) (st : tables)
  (pr : nat * nat) : result tables :=
  r_i <- index_at r_index (fst pr) ;;
  n_i <- index_at n_index (snd pr) ;;
  resource0 <- loc res_name (r_nodes st) r_i ;;
  let file_id := res_name resource0 in
  node0 <- loc node_name (nodes st) n_i ;;
  let '(frac, resource1, node1) := apportion resource0 node0 in
  node2 <- record_site node1 file_id frac ;;
  Ok (mkTables (loc_set res_name (r_nodes st) r_i resource1)
               (loc_set node_name (nodes st) n_i node2)).

Fixpoint for_each (r_index n_index : list label) (node_pairs : list (nat * nat))
  (st : tables) : result tables :=
  match node_pairs with
  | [] => Ok st
  | pr :: rest =>
      st' <- apply_pair r_index n_index st pr ;;
      for_each r_index n_index rest st'
  end.

Definition r_left (st : tables) : list resource :=
  filter (fun r => Qgtb (res_r_cap r) 0) (r_nodes st).

Definition nodes_left (st : tables) : list node :=
  filter (fun n => Qgtb (r_cap n) 0) (nodes st).

Definition r_index (st : tables) : list label := map res_name (r_left st).
Definition n_index (st : tables) : list label := map node_name (nodes_left st).

(** The nominations of a pass: [dist, pos = tree.query(node_lat_lon, k=1)]. *)
Definition nominations (st : tables) : list distance * list nat :=
  let lat_lon := map (fun r => (res_latitude r, res_longitude r)) (r_left st) in
  let tree := cKDTree lat_lon in
  let node_lat_lon := map (fun n => (latitude n, longitude n)) (nodes_left st) in
  query tree node_lat_lon.

Definition node_pairs (st : tables) : list (nat * nat) :=
  groupby_idxmin (snd (nominations st)) (fst (nominations st)).

(** One pass: lines 49-103. *)
Definition pass (st : tables) : result tables :=
  for_each (r_index st) (n_index st) (node_pairs st) st.

(** [np.sum(nodes['r_cap'] > 0) == 0] *)
Definition all_filled (st : tables) : bool :=
  Nat.eqb (length (nodes_left st)) 0.

(** [while True: ...; if ...: break], run for at most [fuel] passes;
    [None] when [fuel] passes did not reach the [break]. *)
Fixpoint while_true (fuel : nat) (st : tables) : option (result tables) :=
  match fuel with
  | O => None
  | S fuel' =>
      match pass st with
      | Raise e => Some (Raise e)
      | Ok st' => if all_filled st' then Some (Ok st') else while_true fuel' st'
      end
  end.

(** ** The result tables *)

Record power_row : Type := mkPowerRow {
  out_name : label;
  out_latitude : Q;
  out_longitude : Q;
  out_capacity : Q;
  out_site_id : option (list label);
  out_site_fracs : option (list Q)
}.

Record power_table : Type := mkPowerTable {
  out_columns : list string;
  out_rows : list power_row
}.

(** [nodes[['latitude', 'longitude', 'capacity', 'site_id', 'site_fracs']]] *)
Definition select_columns (st : tables) : power_table :=
  mkPowerTable
    ["latitude"; "longitude"; "capacity"; "site_id"; "site_fracs"]%string
    (map (fun n => mkPowerRow (node_name n) (latitude n) (longitude n)
                     (capacity n) (site_id n) (site_fracs n)) (nodes st)).

(** The tables before the first pass. *)
Definition load (node_data resource_meta : DataFrame) : result tables :=
  ns <- load_nodes node_data ;;
  rs <- load_resources resource_meta ;;
  Ok (mkTables rs ns).

(** The working tables at the [break]. *)
Definition allocate (fuel : nat) (node_data resource_meta : DataFrame)
  : option (result tables) :=
  match load node_data resource_meta with
  | Raise e => Some (Raise e)
  | Ok st => while_true fuel st
  end.

Definition nearest_power_nodes (fuel : nat) (node_data resource_meta : DataFrame)
  : option (result power_table) :=
  match allocate fuel node_data resource_meta with
  | None => None
  | Some (Raise e) => Some (Raise e)
  | Some (Ok st) => Some (Ok (select_columns st))
  end.

(** ** [nearest_met_nodes] *)

Record met_row : Type := mkMetRow {
  met_name : label;
  met_latitude : Q;
  met_longitude : Q;
  met_site_id : Z
}.

Record met_table : Type := mkMetTable {
  met_columns : list string;
  met_rows : list met_row
}.

(** [nodes.loc[:, ['latitude', 'longitude']] = node_data.values]: two
    columns fill the two columns, a single column is broadcast over them,
    any other width is refused. *)
Fixpoint fill_met_nodes (idx : list label) (vals : list (list Q))
  : result (list (label * point)) :=
  match idx, vals with
  | i :: idx', [la; lo] :: vals' =>
      rest <- fill_met_nodes idx' vals' ;;
      Ok ((i, (la, lo)) :: rest)
  | i :: idx', [v] :: vals' =>
      rest <- fill_met_nodes idx' vals' ;;
      Ok ((i, (v, v)) :: rest)
  | [], [] => Ok []
  | _, _ => Raise ValueError
  end.

(** [df.as_matrix(['latitude', 'longitude'])] *)
Definition as_matrix (df : DataFrame) : result (list point) :=
  lat <- getitem df "latitude" ;;
  lon <- getitem df "longitude" ;;
  Ok (combine lat lon).

Definition nearest_met_nodes (node_data resource_meta : DataFrame)
  : result met_table :=
  nodes0 <- fill_met_nodes (index node_data) (values node_data) ;;
  lat_lon <- as_matrix resource_meta ;;
  let tree := cKDTree lat_lon in
  let node_lat_lon := map snd nodes0 in
  let site_ids := snd (query tree node_lat_lon) in
  Ok (mkMetTable ["latitude"; "longitude"; "site_id"]%string
        (map (fun ns => mkMetRow (fst (fst ns)) (fst (snd (fst ns)))
                          (snd (snd (fst ns))) (Z.of_nat (snd ns)))
             (combine nodes0 site_ids))).

(** ** The scenario of the design document *)

Definition example_resources : DataFrame :=
  mkDataFrame ["latitude"; "longitude"; "capacity"]%string
              [101%Z; 102%Z]
              [[0; 0; 10]; [10; 10; 5]].

Definition example_nodes : DataFrame :=
  mkDataFrame ["latitude"; "longitude"; "capacity (MW)"]%string
              [1%Z; 2%Z]
              [[0; 1; 8]; [1; 0; 4]].

(** * R2PD.tshelpers: time conventions of timeseries and forecasts

    Conventions of the embedding.
    - A value that the code takes either as an enum member or as the name of
      one is an [enum_arg]; members of other classes are not modelled.
    - A time index is the list of its timestamps, in nanoseconds
      ([datetime64[ns]], held in int64); a [timedelta] is a number of its
      own unit.  [NaT] is not modelled: no timestamp is [NaT], and a
      difference of timestamps equal to [- 2 ^ 63], which pandas reads as
      [NaT], is answered like one that leaves int64; no property below
      speaks of such an index.
    - [**kwargs] of [infer_params] are the two keywords its docstring names,
      [point_interp] and [timezone], each given or not, and the names of any
      other keywords passed.
    - An argument that the code tests with [isinstance] is a
      [temporal_arg]: a [TemporalParameters] or some other object. *)

Module tshelpers.

Inductive error : Type :=
| KeyError (key : string)
| IndexError
| AssertionError (msg : string)
| RuntimeError
| OverflowError
| TypeError.

Inductive outcome (A : Type) : Type :=
| Done (a : A)
| Fail (e : error).
Arguments Done {A} a.
Arguments Fail {A} e.

(** [Enum(name, [names])]: the members in definition order, each with its
    name. *)
Record enum_class (E : Type) : Type := mkEnum {
  members : list E;
  member_name : E -> string
}.
Arguments mkEnum {E} members member_name.
Arguments members {E} e.
Arguments member_name {E} e m.

Inductive POINT_INTERPRETATIONS : Type :=
| instantaneous
| average_next
| average_prev
| average_midpt
| integrated_next
| integrated_prev
| integrated_midpt.

Definition point_interpretations : enum_class POINT_INTERPRETATIONS :=
  mkEnum
    [instantaneous; average_next; average_prev; average_midpt;
     integrated_next; integrated_prev; integrated_midpt]
    (fun m => match m with
              | instantaneous => "instantaneous"
              | average_next => "average_next"
              | average_prev => "average_prev"
              | average_midpt => "average_midpt"
              | integrated_next => "integrated_next"
              | integrated_prev => "integrated_prev"
              | integrated_midpt => "integrated_midpt"
              end)%string.

Inductive FORECAST_TYPES : Type :=
| discrete_leadtimes
| dispatch_lookahead.

Definition forecast_types : enum_class FORECAST_TYPES :=
  mkEnum [discrete_leadtimes; dispatch_lookahead]
    (fun m => match m with
              | discrete_leadtimes => "discrete_leadtimes"
              | dispatch_lookahead => "dispatch_lookahead"
              end)%string.

(** [enum_class[name]] *)
Definition enum_getitem {E : Type} (cls : enum_class E) (name : string)
  : outcome E :=
  match find (fun m => String.eqb (member_name cls m) name) (members cls) with
  | Some m => Done m
  | None => Fail (KeyError name)
  end.

Inductive enum_arg (E : Type) : Type :=
| Member (m : E)
| ByName (name : string).
Arguments Member {E} m.
Arguments ByName {E} name.

(** [value if isinstance(value, enum_class) else enum_class[value]] *)
Definition get_enum_instance {E : Type} (value : enum_arg E)
  (cls : enum_class E) : outcome E :=
  match value with
  | Member m => Done m
  | ByName name => enum_getitem cls name
  end.

Record TemporalParameters : Type := mkTemporalParameters {
  extent : Z * Z;
  point_interp : POINT_INTERPRETATIONS;
  timezone : string;
  resolution : option Q
}.

(** [TemporalParameters.__init__(extent, point_interp='instantaneous',
    timezone='UTC', resolution=None)]; [None] is a keyword left out. *)
Definition TemporalParameters_init (extent0 : Z * Z)
  (point_interp0 : option (enum_arg POINT_INTERPRETATIONS))
  (timezone0 : option string) (resolution0 : option Q)
  : outcome TemporalParameters :=
  let value := match point_interp0 with
               | Some v => v
               | None => ByName "instantaneous"
               end in
  match get_enum_instance value point_interpretations with
  | Fail e => Fail e
  | Done pi =>
      Done (mkTemporalParameters extent0 pi
              (match timezone0 with Some tz => tz | None => "UTC"%string end)
              resolution0)
  end.

(** [time_index[1:] - time_index[:-1]] *)
Definition steps (time_index : list Z) : list Z :=
  map (fun ab => (fst ab - snd ab)%Z)
      (combine (tl time_index) (removelast time_index)).

(** [np.unique]: the sorted distinct values. *)
Fixpoint insert_unique (x : Z) (l : list Z) : list Z :=
  match l with
  | [] => [x]
  | y :: l' =>
      if (x <? y)%Z then x :: l
      else if (x =? y)%Z then l
      else y :: insert_unique x l'
  end.

Definition unique (l : list Z) : list Z := fold_right insert_unique [] l.

(** Nanoseconds in [np.timedelta64(1, 'm')]. *)
Definition minute : Z := 60000000000.

(** The least and the greatest int64. *)
Definition int64_min : Z := - 2 ^ 63.
Definition int64_max : Z := 2 ^ 63 - 1.

(** A difference of timestamps that int64 holds as a [timedelta]. *)
Definition fits (d : Z) : bool := ((int64_min <? d) && (d <=? int64_max))%Z.

(** The subtraction of line 42: pandas raises [OverflowError] when a
    difference leaves int64. *)
Definition checked_steps (time_index : list Z) : outcome (list Z) :=
  if forallb fits (steps time_index) then Done (steps time_index)
  else Fail OverflowError.

(** [TemporalParameters(extent, resolution=resolution, **kwargs)]: a keyword
    that [__init__] does not have, or has already, is a [TypeError]. *)
Definition TemporalParameters_call (extent0 : Z * Z) (resolution0 : Q)
  (point_interp0 : option (enum_arg POINT_INTERPRETATIONS))
  (timezone0 : option string) (others : list string)
  : outcome TemporalParameters :=
  match others with
  | [] => TemporalParameters_init extent0 point_interp0 timezone0
            (Some resolution0)
  | _ :: _ => Fail TypeError
  end.

(** [TemporalParameters.infer_params(ts, **kwargs)] on [ts.index]. *)
Definition infer_params (time_index : list Z)
  (point_interp0 : option (enum_arg POINT_INTERPRETATIONS))
  (timezone0 : option string) (others : list string)
  : outcome TemporalParameters :=
  match time_index with
  | [] => Fail IndexError
  | first :: _ =>
      let extent0 := (first, last time_index first) in
      match checked_steps time_index with
      | Fail e => Fail e
      | Done differences =>
          let resolution0 := unique differences in
          if Nat.eqb (length resolution0) 1 then
            let in_minutes := map (fun d => (d / minute)%Z) resolution0 in
            let resolution1 := inject_Z (nth 0 in_minutes 0%Z) / inject_Z 1 in
            TemporalParameters_call extent0 resolution1 point_interp0 timezone0
              others
          else Fail (AssertionError "time resolution is not constant!")
      end
  end.

Inductive temporal_arg : Type :=
| Temporal (tp : TemporalParameters)
| NotTemporal.

(** A keyword value of [ForecastParameters]: a [timedelta] or a list of
    them. *)
Inductive kwvalue : Type :=
| Delta (d : Z)
| Deltas (l : list Z).

(** [kwargs[key]] *)
Fixpoint kwargs_getitem (kwargs : list (string * kwvalue)) (key : string)
  : outcome kwvalue :=
  match kwargs with
  | [] => Fail (KeyError key)
  | (k, v) :: rest => if String.eqb k key then Done v else kwargs_getitem rest key
  end.

Record ForecastParameters : Type := mkForecastParameters {
  forecast_type : FORECAST_TYPES;
  temporal_params : TemporalParameters;
  leadtimes : option kwvalue;
  frequency : option kwvalue;
  lookahead : option kwvalue;
  leadtime : option kwvalue
}.

(** [ForecastParameters.__init__(forecast_type, temporal_params, **kwargs)] *)
Definition ForecastParameters_init (forecast_type0 : enum_arg FORECAST_TYPES)
  (temporal_params0 : temporal_arg) (kwargs : list (string * kwvalue))
  : outcome ForecastParameters :=
  match get_enum_instance forecast_type0 forecast_types with
  | Fail e => Fail e
  | Done ft =>
      match temporal_params0 with
      | NotTemporal => Fail RuntimeError
      | Temporal tp =>
          match ft with
          | discrete_leadtimes =>
              match kwargs_getitem kwargs "leadtimes" with
              | Fail e => Fail e
              | Done l => Done (mkForecastParameters ft tp (Some l) None None None)
              end
          | dispatch_lookahead =>
              match kwargs_getitem kwargs "frequency" with
              | Fail e => Fail e
              | Done f =>
                  match kwargs_getitem kwargs "lookahead" with
                  | Fail e => Fail e
                  | Done la =>
                      match kwargs_getitem kwargs "leadtime" with
                      | Fail e => Fail e
                      | Done lt =>
                          Done (mkForecastParameters ft tp None
                                  (Some f) (Some la) (Some lt))
                      end
                  end
              end
          end
      end
  end.

Definition define_discrete_leadtime_params (temporal_params0 : temporal_arg)
  (leadtimes0 : kwvalue) : outcome ForecastParameters :=
  ForecastParameters_init (ByName "discrete_leadtimes") temporal_params0
    [("leadtimes"%string, leadtimes0)].

(** [leadtime=dt.timedelta()] when left out. *)
Definition define_dispatch_lookahead_params (temporal_params0 : temporal_arg)
  (frequency0 lookahead0 : kwvalue) (leadtime0 : option kwvalue)
  : outcome ForecastParameters :=
  ForecastParameters_init (ByName "dispatch_lookahead") temporal_params0
    [("frequency"%string, frequency0); ("lookahead"%string, lookahead0);
     ("leadtime"%string, match leadtime0 with Some v => v | None => Delta 0 end)].

(** The index [t0, t0 + d, ..., t0 + (n - 1) d]. *)
Definition regular (t0 d : Z) (n : nat) : list Z :=
  map (fun k => (t0 + Z.of_nat k * d)%Z) (seq 0 n).

End tshelpers.

(** * Vocabulary of the properties *)

(** ** One application of a resource to a node *)

(** The lists held by the two list cells of a row; a null cell holds none. *)
Definition ids (n : node) : list label :=
  match site_id n with Some l => l | None => [] end.

Definition fracs (n : node) : list Q :=
  match site_fracs n with Some l => l | None => [] end.

(** The two list cells of a row are both null or both lists of one length. *)
Definition aligned (n : node) : Prop :=
  match site_id n, site_fracs n with
  | None, None => True
  | Some i, Some f => length i = length f
  | _, _ => False
  end.

(** The row with one more site and fraction. *)
Definition append_site (n : node) (file_id : label) (frac : Q) : node :=
  mkNode (node_name n) (latitude n) (longitude n) (capacity n)
         (Some (ids n ++ [file_id])) (Some (fracs n ++ [frac])) (r_cap n).

(** The fraction, and the two rows written back by one iteration of the
    [for] loop. *)
Definition frac_of (r : resource) (n : node) : Q := fst (fst (apportion r n)).

Definition res_after (r : resource) (n : node) : resource :=
  snd (fst (apportion r n)).

Definition node_after (r : resource) (n : node) : node :=
  append_site (snd (apportion r n)) (res_name r) (frac_of r n).

(** The tables after that iteration. *)
Definition drawn (st : tables) (r : resource) (n : node) : tables :=
  mkTables (loc_set res_name (r_nodes st) (res_name r) (res_after r n))
           (loc_set node_name (nodes st) (node_name n) (node_after r n)).

(** Unique labels and aligned list cells: what every pass relies on. *)
Definition base (st : tables) : Prop :=
  NoDup (map res_name (r_nodes st)) /\
  NoDup (map node_name (nodes st)) /\
  Forall aligned (nodes st).

(** A sequence of applications, each of a resource and a node that both
    have remaining capacity at that moment; the list records the labels. *)
Inductive run_draws : tables -> list (label * label) -> tables -> Prop :=
| run_nil st : run_draws st [] st
| run_cons st r n rest st' :
    In r (r_nodes st) -> In n (nodes st) ->
    0 < res_r_cap r -> 0 < r_cap n ->
    run_draws (drawn st r n) rest st' ->
    run_draws st ((res_name r, node_name n) :: rest) st'.

(** The labels [(r_index[i], n_index[n])] of the entries of [node_pairs]. *)
Definition label_pairs (r_idx n_idx : list label) (ps : list (nat * nat))
  : list (label * label) :=
  map (fun pr => (nth (fst pr) r_idx 0%Z, nth (snd pr) n_idx 0%Z)) ps.

Definition pass_labels (st : tables) : list (label * label) :=
  label_pairs (r_index st) (n_index st) (node_pairs st).

(** ** Invariants of a run *)

(** Remaining capacities lie between 0 and the total capacity; remaining
    demands are not negative. *)
Definition nonneg_res (st : tables) : Prop :=
  Forall (fun r => 0 <= res_r_cap r /\ res_r_cap r <= res_capacity r) (r_nodes st).

Definition nonneg_nodes (st : tables) : Prop :=
  Forall (fun n => 0 <= r_cap n) (nodes st).

Definition nonneg (st : tables) : Prop := nonneg_res st /\ nonneg_nodes st.

(** The number of rows, of both tables, with capacity left. *)
Definition measure (st : tables) : nat :=
  (length (r_left st) + length (nodes_left st))%nat.

(** Total remaining demand and total remaining capacity. *)
Definition unmet (st : tables) : Q := Qsum (map r_cap (nodes st)).
Definition available (st : tables) : Q := Qsum (map res_r_cap (r_nodes st)).

(** The difference of the two totals never changes. *)
Definition balanced (d : Q) (st : tables) : Prop :=
  base st /\ nonneg st /\ unmet st - available st == d.

(** ** Accounting of fractions *)

Definition cells {A : Type} (c : option (list A)) : list A :=
  match c with Some l => l | None => [] end.

(** The assignments of a row: identifiers paired with their fractions. *)
Definition assignments (site_id0 : option (list label))
  (site_fracs0 : option (list Q)) : list (label * Q) :=
  combine (cells site_id0) (cells site_fracs0).

Definition node_assignments (n : node) : list (label * Q) :=
  assignments (site_id n) (site_fracs n).

Definition row_assignments (row : power_row) : list (label * Q) :=
  assignments (out_site_id row) (out_site_fracs row).

(** Total capacity of the resource labelled [k] in a resource table. *)
Definition capacity_of (rs : list resource) (k : label) : Q :=
  match find (fun r => Z.eqb (res_name r) k) rs with
  | Some r => res_capacity r
  | None => 0
  end.

(** Demand of the node labelled [k] in a node table. *)
Definition demand_of (ns : list node) (k : label) : Q :=
  match find (fun n => Z.eqb (node_name n) k) ns with
  | Some n => r_cap n
  | None => 0
  end.

(** Sum over the assignments of fraction times the total capacity of the
    matched resource. *)
Definition delivered (rs : list resource) (a : list (label * Q)) : Q :=
  Qsum (map (fun x => snd x * capacity_of rs (fst x)) a).

(** Sum of the fractions assigned from the resource labelled [k]. *)
Definition taken (k : label) (a : list (label * Q)) : Q :=
  Qsum (map snd (filter (fun x => Z.eqb (fst x) k) a)).

(** Sum over all rows of (fraction for resource [k]) times its capacity [c]. *)
Definition used (k : label) (c : Q) (rows : list (list (label * Q))) : Q :=
  Qsum (map (fun a => taken k a * c) rows).

(** The sites of a resource table: label and total capacity. *)
Definition sites (rs : list resource) : list (label * Q) :=
  map (fun r => (res_name r, res_capacity r)) rs.

(** The tables [st] of a run that started from the loaded tables [st0]:
    labels and total capacities are those of [st0], every node row accounts
    for its demand and every resource row for its capacity. *)
Definition tracks (st0 st : tables) : Prop :=
  base st /\ nonneg_res st /\
  sites (r_nodes st) = sites (r_nodes st0) /\
  map node_name (nodes st) = map node_name (nodes st0) /\
  Forall (fun n => delivered (r_nodes st0) (node_assignments n) + r_cap n
                   == demand_of (nodes st0) (node_name n)) (nodes st) /\
  Forall (fun r => used (res_name r) (res_capacity r)
                     (map node_assignments (nodes st)) + res_r_cap r
                   == res_capacity r) (r_nodes st).

(** A node that is still unmet has exhausted every site it drew from. *)
Definition distinct (st : tables) : Prop :=
  Forall (fun n => NoDup (ids n) /\
                   (0 < r_cap n ->
                    forall r, In r (r_nodes st) -> In (res_name r) (ids n) ->
                              res_r_cap r <= 0)) (nodes st).

(** ** The states a run goes through *)

(** The tables after [m] passes, none of which reached the [break]. *)
Fixpoint after_passes (m : nat) (st : tables) : option tables :=
  match m with
  | O => Some st
  | S m' =>
      match pass st with
      | Ok st' => if all_filled st' then None else after_passes m' st'
      | Raise _ => None
      end
  end.

(** The tables inside a pass, after the first [k] entries of [node_pairs]. *)
Definition inside_pass (k : nat) (st : tables) : result tables :=
  for_each (r_index st) (n_index st) (firstn k (node_pairs st)) st.

(** [s] is reached by the run that starts from [st0]: between two
    iterations of the [for] loop of some pass, or at the end of a pass. *)
Definition visits (st0 s : tables) : Prop :=
  exists m k st, after_passes m st0 = Some st /\ inside_pass k st = Ok s.

(** ** Inputs *)

(** Before the first pass no row has a site, and every resource has its
    whole capacity left. *)
Definition fresh (st : tables) : Prop :=
  Forall (fun n => site_id n = None /\ site_fracs n = None) (nodes st) /\
  Forall (fun r => res_r_cap r = res_capacity r) (r_nodes st).

(** [st0] holds the tables loaded from two frames with unique indexes. *)
Definition loads (node_data resource_meta : DataFrame) (st0 : tables) : Prop :=
  load node_data resource_meta = Ok st0 /\
  NoDup (index node_data) /\ NoDup (index resource_meta).

Definition total_capacity (st : tables) : Q := Qsum (map res_capacity (r_nodes st)).

(** The preconditions of the allocation: demands and capacities positive. *)
Definition positive (st0 : tables) : Prop :=
  Forall (fun n => 0 < r_cap n) (nodes st0) /\
  Forall (fun r => 0 < res_capacity r) (r_nodes st0).

(** The number of passes that always suffices when capacity does. *)
Definition pass_bound (st0 : tables) : nat :=
  Nat.max 1 (length (r_nodes st0) + length (nodes st0)).

(** The rows written for a resource table without sites. *)
Definition unmatched_rows (ns : list (label * point)) : list met_row :=
  map (fun n => mkMetRow (fst n) (fst (snd n)) (snd (snd n)) 0%Z) ns.

(** ** Concrete tables *)

(** The tables loaded from the scenario of the design document. *)
Definition example_loaded : tables :=
  mkTables [mkResource 101 0 0 10 10; mkResource 102 10 10 5 5]
           [mkNode 1 0 1 8 None None 8; mkNode 2 1 0 4 None None 4].


Definition example_after_pass : tables :=
  Eval vm_compute in
    match pass example_loaded with Ok s => s | Raise _ => example_loaded end.

Definition example_result : power_table :=
  Eval vm_compute in
    match nearest_power_nodes 4 example_nodes example_resources with
    | Some (Ok t) => t
    | _ => mkPowerTable [] []
    end.

(** The same nodes with a single site of capacity 10, less than the demand
    of 12. *)
Definition short_resources : DataFrame :=
  mkDataFrame ["latitude"; "longitude"; "capacity"]%string [101%Z] [[0; 0; 10]].

Definition short_loaded : tables :=
  mkTables [mkResource 101 0 0 10 10]
           [mkNode 1 0 1 8 None None 8; mkNode 2 1 0 4 None None 4].

Definition short_exhausted : tables :=
  Eval vm_compute in
    match after_passes 2 short_loaded with Some s => s | None => short_loaded end.

(** Tables without rows. *)
Definition no_nodes : DataFrame :=
  mkDataFrame ["latitude"; "longitude"; "capacity (MW)"]%string [] [].

Definition no_resources : DataFrame :=
  mkDataFrame ["latitude"; "longitude"; "capacity"]%string [] [].

(** The nodes of the scenario under the header the docstring gives:
    [node_id(index), latitude, longitude, capacity]. *)
Definition docstring_nodes : DataFrame :=
  mkDataFrame ["latitude"; "longitude"; "capacity"]%string
              [1%Z; 2%Z]
              [[0; 1; 8]; [1; 0; 4]].

(** Weather tables: two sites labelled 10 and 20, one node next to site 20. *)
Definition met_resources : DataFrame :=
  mkDataFrame ["latitude"; "longitude"]%string [10%Z; 20%Z] [[0; 0]; [5; 5]].

Definition met_nodes : DataFrame :=
  mkDataFrame ["latitude"; "longitude"]%string [1%Z] [[5; 4]].

Definition met_no_resources : DataFrame :=
  mkDataFrame ["latitude"; "longitude"]%string [] [].

(** ** Further vocabulary: what a served node holds *)

(** A fraction of a resource: not negative and at most the whole. *)
Definition fraction_ok (f : Q) : Prop := 0 <= f /\ f <= 1.

(** No resource has more capacity left than it has in total. *)
Definition within_capacity (st : tables) : Prop :=
  Forall (fun r => res_r_cap r <= res_capacity r) (r_nodes st).

(** [k] labels a site of the loaded resource table whose capacity is
    positive. *)
Definition positive_site (st0 : tables) (k : label) : Prop :=
  exists c, In (k, c) (sites (r_nodes st0)) /\ 0 < c.

(** Every fraction held by a node lies between 0 and 1 and every site it
    holds is a site of positive capacity. *)
Definition served_well (st0 st : tables) : Prop :=
  base st /\ within_capacity st /\
  sites (r_nodes st) = sites (r_nodes st0) /\
  Forall (fun n => Forall fraction_ok (fracs n) /\
                   Forall (positive_site st0) (ids n)) (nodes st).

(** ** Further vocabulary: coordinates *)

(** A point given in degrees: both coordinates between -360 and 360, where
    every distance is a finite number. *)
Definition degrees (p : point) : Prop :=
  (-360 <= fst p /\ fst p <= 360) /\ (-360 <= snd p /\ snd p <= 360).

(** ** Further vocabulary: remaining capacities row by row *)

(** Row by row, [s'] has the labels of [s] and no remaining capacity or
    demand above the one in [s]. *)
Definition never_more (s s' : tables) : Prop :=
  Forall2 (fun r r' => res_name r' = res_name r /\ res_r_cap r' <= res_r_cap r)
          (r_nodes s) (r_nodes s') /\
  Forall2 (fun n n' => node_name n' = node_name n /\ r_cap n' <= r_cap n)
          (nodes s) (nodes s').

(** ** Further vocabulary: rows and what they keep *)

(** The label of a node row and the three values copied from the request. *)
Definition node_values (n : node) : label * list Q :=
  (node_name n, [latitude n; longitude n; capacity n]).

Definition row_values (row : power_row) : label * list Q :=
  (out_name row, [out_latitude row; out_longitude row; out_capacity row]).

Definition met_row_values (row : met_row) : label * list Q :=
  (met_name row, [met_latitude row; met_longitude row]).

(** The values of a request row as they fill [width] columns: a single
    value is repeated. *)
Definition broadcast (width : nat) (row : list Q) : list Q :=
  match row with
  | [v] => repeat v width
  | _ => row
  end.

(** The nodes without demand are in [st] as they were loaded. *)
Definition idle_kept (st0 st : tables) : Prop :=
  base st /\
  forall n0, In n0 (nodes st0) -> r_cap n0 <= 0 -> In n0 (nodes st).

(** The node rows of [st] are those of [st0] up to their list cells and
    remaining demand. *)
Definition same_requests (st0 st : tables) : Prop :=
  base st /\ map node_values (nodes st) = map node_values (nodes st0).

(** Every node of [s] holds in [st] the assignments it holds in [s],
    followed by further ones. *)
Definition extends (s st : tables) : Prop :=
  forall n, In n (nodes s) ->
    exists n' more, In n' (nodes st) /\ node_name n' = node_name n /\
                    node_assignments n' = node_assignments n ++ more.

(** ** Further vocabulary: row labels in increasing order *)

Fixpoint increasing {B : Type} (l : list (nat * B)) : Prop :=
  match l with
  | [] => True
  | x :: l' => Forall (fun y => (fst x < fst y)%nat) l' /\ increasing l'
  end.

(** ** Further scenarios *)

(** The scenario after its second pass. *)
Definition example_after_two_passes : tables :=
  Eval vm_compute in
    match after_passes 2 example_loaded with Some s => s | None => example_loaded end.

(** The scenario with a third node that requests nothing. *)
Definition idle_nodes : DataFrame :=
  mkDataFrame ["latitude"; "longitude"; "capacity (MW)"]%string
              [1%Z; 2%Z; 3%Z]
              [[0; 1; 8]; [1; 0; 4]; [2; 2; 0]].

Definition idle_loaded : tables :=
  mkTables [mkResource 101 0 0 10 10; mkResource 102 10 10 5 5]
           [mkNode 1 0 1 8 None None 8; mkNode 2 1 0 4 None None 4;
            mkNode 3 2 2 0 None None 0].

Definition idle_result : power_table :=
  Eval vm_compute in
    match nearest_power_nodes 5 idle_nodes example_resources with
    | Some (Ok t) => t
    | _ => mkPowerTable [] []
    end.

(** Two nodes that both name site 101, the second of them the nearer. *)
Definition far_first_loaded : tables :=
  mkTables [mkResource 101 0 0 10 10; mkResource 102 10 10 5 5]
           [mkNode 1 0 3 8 None None 8; mkNode 2 1 0 4 None None 4].


(** The table returned for the weather tables. *)
Definition met_result : met_table :=
  Eval vm_compute in
    match nearest_met_nodes met_nodes met_resources with
    | Ok t => t
    | Raise _ => mkMetTable [] []
    end.

(** Hourly data over a day, and a day-ahead dispatch forecast on it. *)
Definition example_temporal : tshelpers.TemporalParameters :=
  tshelpers.mkTemporalParameters (0%Z, 86400000000000%Z) tshelpers.instantaneous
    "UTC" (Some 60).

Definition example_forecast : tshelpers.ForecastParameters :=
  tshelpers.mkForecastParameters tshelpers.dispatch_lookahead example_temporal
    None (Some (tshelpers.Delta 24)) (Some (tshelpers.Delta 48))
    (Some (tshelpers.Delta 12)).

(** * The run in binary64, with the spatial index by its contract

    The embedding above reads floats as exact rationals and fixes one
    answer of [cKDTree.query].  Here the arithmetic of lines 86-93 is a
    parameter, with two instances, the exact one and binary64 (IEEE 754
    double precision, round to nearest, ties to even), and so is the query,
    of which only what SciPy documents is assumed.  A float is the rational
    it stands for; infinities and NaN are not modelled, and no operation of
    the loop overflows: it subtracts a positive number from a larger one and
    divides by a number that is not smaller. *)

(** ** Rounding to binary64 *)

(** The exponent [e] of the binade of [x > 0]: [2 ^ e <= x < 2 ^ (e + 1)]. *)
Definition ilog2 (x : Q) : Z :=
  let e := (Z.log2 (Qnum x) - Z.log2 (Zpos (Qden x)))%Z in
  if Qle_bool (2 ^ e) x then e else (e - 1)%Z.

(** The nearest integer, the even one of two that are equally near. *)
Definition rne (y : Q) : Z :=
  let f := Qfloor y in
  match Qcompare (y - inject_Z f) (1 # 2) with
  | Lt => f
  | Gt => (f + 1)%Z
  | Eq => if Z.even f then f else (f + 1)%Z
  end.

(** The binary64 number nearest to [x]: 53 significant bits, the least
    exponent the one of the subnormal numbers. *)
Definition round (x : Q) : Q :=
  match Qnum x with
  | 0%Z => 0
  | _ => let k := Z.max (ilog2 (Qabs x) - 52) (-1074) in
         Qred (inject_Z (rne (x * 2 ^ (- k))) * 2 ^ k)
  end.

(** The unit roundoff of binary64, [2 ^ -53]. *)
Definition unit_roundoff : Q := 1 # 9007199254740992.

(** ** Arithmetics *)

Record arithmetic : Type := mkArithmetic {
  fadd : Q -> Q -> Q;
  fmul : Q -> Q -> Q;
  fdiv : Q -> Q -> Q
}.

Definition exact : arithmetic := mkArithmetic Qplus Qmult Qdiv.

Definition binary64 : arithmetic :=
  mkArithmetic (fun x y => round (x + y)) (fun x y => round (x * y))
               (fun x y => round (x / y)).

(** ** The loop over an arithmetic and a query *)

Module Over.
Section Run.
Variable F : arithmetic.
Variable tree_query : list point -> list point -> list distance * list nat.

(** Lines 86-93. *)
Definition apportion (resource0 : resource) (node0 : node)
  : Q * resource * node :=
  let cap := res_r_cap resource0 in
  if Qgtb (r_cap node0) cap then
    (fdiv F cap (res_capacity resource0),
     with_res_r_cap resource0 0,
     with_r_cap node0 (fadd F (r_cap node0) (fmul F (-1) cap)))
  else
    (fdiv F (r_cap node0) (res_capacity resource0),
     with_res_r_cap resource0
       (fadd F (res_r_cap resource0) (fmul F (-1) (r_cap node0))),
     with_r_cap node0 0).

Definition apply_pair (r_index n_index : list label) (st : tables)
  (pr : nat * nat) : result tables :=
  r_i <- index_at r_index (fst pr) ;;
  n_i <- index_at n_index (snd pr) ;;
  resource0 <- loc res_name (r_nodes st) r_i ;;
  let file_id := res_name resource0 in
  node0 <- loc node_name (nodes st) n_i ;;
  let '(frac, resource1, node1) := apportion resource0 node0 in
  node2 <- record_site node1 file_id frac ;;
  Ok (mkTables (loc_set res_name (r_nodes st) r_i resource1)
               (loc_set node_name (nodes st) n_i node2)).

Fixpoint for_each (r_index n_index : list label) (node_pairs : list (nat * nat))
  (st : tables) : result tables :=
  match node_pairs with
  | [] => Ok st
  | pr :: rest =>
      st' <- apply_pair r_index n_index st pr ;;
      for_each r_index n_index rest st'
  end.

Definition nominations (st : tables) : list distance * list nat :=
  let lat_lon := map (fun r => (res_latitude r, res_longitude r)) (r_left st) in
  let tree := cKDTree lat_lon in
  let node_lat_lon := map (fun n => (latitude n, longitude n)) (nodes_left st) in
  tree_query tree node_lat_lon.

Definition node_pairs (st : tables) : list (nat * nat) :=
  groupby_idxmin (snd (nominations st)) (fst (nominations st)).

Definition pass (st : tables) : result tables :=
  for_each (r_index st) (n_index st) (node_pairs st) st.

Fixpoint while_true (fuel : nat) (st : tables) : option (result tables) :=
  match fuel with
  | O => None
  | S fuel' =>
      match pass st with
      | Raise e => Some (Raise e)
      | Ok st' => if all_filled st' then Some (Ok st') else while_true fuel' st'
      end
  end.

Definition allocate (fuel : nat) (node_data resource_meta : DataFrame)
  : option (result tables) :=
  match load node_data resource_meta with
  | Raise e => Some (Raise e)
  | Ok st => while_true fuel st
  end.

Definition nearest_power_nodes (fuel : nat) (node_data resource_meta : DataFrame)
  : option (result power_table) :=
  match allocate fuel node_data resource_meta with
  | None => None
  | Some (Raise e) => Some (Raise e)
  | Some (Ok st) => Some (Ok (select_columns st))
  end.

(** The tables after [m] passes, inside a pass, and the tables a run goes
    through, as for the exact run. *)
Fixpoint after_passes (m : nat) (st : tables) : option tables :=
  match m with
  | O => Some st
  | S m' =>
      match pass st with
      | Ok st' => if all_filled st' then None else after_passes m' st'
      | Raise _ => None
      end
  end.

Definition inside_pass (k : nat) (st : tables) : result tables :=
  for_each (r_index st) (n_index st) (firstn k (node_pairs st)) st.

Definition visits (st0 s : tables) : Prop :=
  exists m k st, after_passes m st0 = Some st /\ inside_pass k st = Ok s.
End Run.
End Over.

(** ** What is assumed of the query *)

(** [cKDTree(data).query(xs, k=1)] as SciPy documents it: one distance and
    one position per query point; when the tree has a point and all
    coordinates are degrees, each position is one of the tree. *)
Definition answers
  (tree_query : list point -> list point -> list distance * list nat) : Prop :=
  forall tree xs,
    length (fst (tree_query tree xs)) = length xs /\
    length (snd (tree_query tree xs)) = length xs /\
    (tree <> [] -> Forall degrees tree -> Forall degrees xs ->
     Forall (fun p => (p < length tree)%nat) (snd (tree_query tree xs))).

(** All rows of both tables lie at coordinates in degrees. *)
Definition placed (st : tables) : Prop :=
  Forall (fun r => degrees (res_latitude r, res_longitude r)) (r_nodes st) /\
  Forall (fun n => degrees (latitude n, longitude n)) (nodes st).

(** ** Whole numbers, and the fractions as binary64 holds them *)

(** A whole number from 0 to [2 ^ 53 - 1]. *)
Definition whole_number (x : Q) : Prop :=
  exists z, x = inject_Z z /\ (0 <= z < 2 ^ 53)%Z.

(** All capacities and demands, total and remaining, are such numbers. *)
Definition whole (st : tables) : Prop :=
  Forall (fun r => whole_number (res_capacity r) /\ whole_number (res_r_cap r))
         (r_nodes st) /\
  Forall (fun n => whole_number (r_cap n)) (nodes st).

(** A row, and tables, with every fraction rounded to binary64. *)
Definition rounded_node (n : node) : node :=
  mkNode (node_name n) (latitude n) (longitude n) (capacity n)
         (site_id n) (option_map (map round) (site_fracs n)) (r_cap n).

Definition rounded (st : tables) : tables :=
  mkTables (r_nodes st) (map rounded_node (nodes st)).

(** Assignments with every share rounded to binary64. *)
Definition rounded_shares (a : list (label * Q)) : list (label * Q) :=
  map (fun x => (fst x, round (snd x))) a.

(** Every fraction held is at least [2 ^ -1022], the least normal number. *)
Definition normal (st : tables) : Prop :=
  Forall (fun n => Forall (fun f => 2 ^ (-1022) <= f) (fracs n)) (nodes st).

(** ** Inputs on which binary64 departs from exact arithmetic *)

(** One node that asks for [2 ^ 53 + 4], and three sites, the nearer two of
    capacity 1, the third of capacity [2 ^ 53 + 2]: as much as is asked. *)
Definition large_nodes : DataFrame :=
  mkDataFrame ["latitude"; "longitude"; "capacity (MW)"]%string [1%Z]
              [[0; 0; 9007199254740996]].

Definition large_resources : DataFrame :=
  mkDataFrame ["latitude"; "longitude"; "capacity"]%string
              [101%Z; 102%Z; 103%Z]
              [[0; 1; 1]; [0; 2; 1]; [0; 3; 9007199254740994]].

Definition large_loaded : tables :=
  mkTables [mkResource 101 1 0 1 1; mkResource 102 2 0 1 1;
            mkResource 103 3 0 9007199254740994 9007199254740994]
           [mkNode 1 0 0 9007199254740996 None None 9007199254740996].

(** One site of capacity 25 and three nodes that ask for 7, 14 and 4. *)
Definition shared_nodes : DataFrame :=
  mkDataFrame ["latitude"; "longitude"; "capacity (MW)"]%string
              [1%Z; 2%Z; 3%Z]
              [[0; 1; 7]; [0; 2; 14]; [0; 3; 4]].

Definition shared_resources : DataFrame :=
  mkDataFrame ["latitude"; "longitude"; "capacity"]%string [101%Z] [[0; 0; 25]].

Definition shared_loaded : tables :=
  mkTables [mkResource 101 0 0 25 25]
           [mkNode 1 0 1 7 None None 7; mkNode 2 0 2 14 None None 14;
            mkNode 3 0 3 4 None None 4].

Definition shared_result : power_table :=
  Eval vm_compute in
    match Over.nearest_power_nodes binary64 query 4 shared_nodes shared_resources with
    | Some (Ok t) => t
    | _ => mkPowerTable [] []
    end.

(** ** The states of the exact run on whole numbers *)

(** What every state of the exact run from [st0] satisfies when [st0] holds
    whole numbers at coordinates in degrees. *)
Definition sound (st0 s : tables) : Prop :=
  tracks st0 s /\ nonneg_nodes s /\ placed s /\ whole s /\ normal s.

(** * Properties *)

(** ** Comparisons *)

Lemma Qgtb_true (x y : Q) : Qgtb x y = true <-> y < x.
Proof.
  unfold Qgtb. rewrite negb_true_iff, <- not_true_iff_false, Qle_bool_iff.
  split; intro H; [apply Qnot_le_lt | apply Qlt_not_le]; exact H.
Qed.

Lemma Qgtb_false (x y : Q) : Qgtb x y = false <-> x <= y.
Proof.
  unfold Qgtb. rewrite negb_false_iff. apply Qle_bool_iff.
Qed.

Lemma Qsum_app (l1 l2 : list Q) : Qsum (l1 ++ l2) == Qsum l1 + Qsum l2.
Proof.
  induction l1 as [|a l1 IH]; simpl; [ring | rewrite IH; ring].
Qed.

Lemma Qsum_nonneg (l : list Q) : Forall (fun x => 0 <= x) l -> 0 <= Qsum l.
Proof.
  induction 1 as [|a l Ha _ IH]; simpl; lra.
Qed.

Lemma Qsum_zero_all (l : list Q) :
  Forall (fun x => 0 <= x) l -> Qsum l <= 0 -> Forall (fun x => x == 0) l.
Proof.
  induction 1 as [|a l Ha Hl IH]; simpl; intro Hs; constructor.
  - pose proof (Qsum_nonneg l Hl). lra.
  - apply IH. pose proof (Qsum_nonneg l Hl). lra.
Qed.

(** ** Rows addressed by label *)

Section LocFacts.
Context {A : Type} (key : A -> label).

Lemma loc_In (rows : list A) (k : label) (r : A) :
  loc key rows k = Ok r -> In r rows /\ key r = k.
Proof.
  unfold loc. destruct (find _ rows) as [r'|] eqn:E; [|discriminate].
  intro H; injection H as <-. apply find_some in E.
  destruct E as [Hin Hk]. split; [exact Hin | now apply Z.eqb_eq].
Qed.

Lemma loc_of_In (rows : list A) (r : A) :
  NoDup (map key rows) -> In r rows -> loc key rows (key r) = Ok r.
Proof.
  unfold loc. induction rows as [|a rows IH]; simpl; [easy|].
  intros Hnd [-> | Hin].
  - now rewrite Z.eqb_refl.
  - inversion Hnd as [|? ? Hna Hnd']; subst.
    destruct (Z.eqb_spec (key a) (key r)) as [E|_].
    + exfalso. apply Hna. rewrite E. now apply in_map.
    + now apply IH.
Qed.

Lemma loc_set_keys (rows : list A) (k : label) (v : A) :
  key v = k -> map key (loc_set key rows k v) = map key rows.
Proof.
  intros Hv. unfold loc_set. rewrite map_map. apply map_ext.
  intro a. destruct (Z.eqb_spec (key a) k); congruence.
Qed.

Lemma In_loc_set (rows : list A) (k : label) (v x : A) :
  In x (loc_set key rows k v) -> x = v \/ (In x rows /\ key x <> k).
Proof.
  unfold loc_set. rewrite in_map_iff. intros [a [Ha Hin]].
  destruct (Z.eqb_spec (key a) k); subst; auto.
Qed.

Lemma In_loc_set_other (rows : list A) (k : label) (v x : A) :
  In x rows -> key x <> k -> In x (loc_set key rows k v).
Proof.
  intros Hin Hk. unfold loc_set. apply in_map_iff. exists x.
  destruct (Z.eqb_spec (key x) k); [contradiction | auto].
Qed.

Lemma In_loc_set_same (rows : list A) (k : label) (v r : A) :
  In r rows -> key r = k -> In v (loc_set key rows k v).
Proof.
  intros Hin Hk. unfold loc_set. apply in_map_iff. exists r.
  destruct (Z.eqb_spec (key r) k); [auto | contradiction].
Qed.

Lemma Forall_loc_set (P : A -> Prop) (rows : list A) (k : label) (v : A) :
  Forall P rows -> P v -> Forall P (loc_set key rows k v).
Proof.
  intros Hall Hv. apply Forall_forall. intros x Hx.
  apply In_loc_set in Hx. destruct Hx as [-> | [Hx _]]; [exact Hv|].
  rewrite Forall_forall in Hall. now apply Hall.
Qed.

(** Replacing the row labelled [key r] changes a sum over the table by the
    difference of the two rows' terms. *)
Lemma Qsum_loc_set (f : A -> Q) (rows : list A) (r v : A) :
  NoDup (map key rows) -> In r rows ->
  Qsum (map f (loc_set key rows (key r) v)) + f r == Qsum (map f rows) + f v.
Proof.
  induction rows as [|a rows IH]; simpl; [easy|].
  intros Hnd Hin. inversion Hnd as [|? ? Hna Hnd']; subst.
  destruct Hin as [-> | Hin].
  - rewrite Z.eqb_refl.
    assert (E : loc_set key rows (key r) v = rows).
    { unfold loc_set. rewrite <- (map_id rows) at 2. apply map_ext_in.
      intros x Hx. destruct (Z.eqb_spec (key x) (key r)) as [E|_]; [|easy].
      exfalso. apply Hna. rewrite <- E. now apply in_map. }
    rewrite E. ring.
  - destruct (Z.eqb_spec (key a) (key r)) as [E|_].
    + exfalso. apply Hna. rewrite E. now apply in_map.
    + specialize (IH Hnd' Hin). lra.
Qed.

Lemma count_loc_set (f : A -> bool) (rows : list A) (r v : A) :
  NoDup (map key rows) -> In r rows ->
  (length (filter f (loc_set key rows (key r) v)) + Nat.b2n (f r)
   = length (filter f rows) + Nat.b2n (f v))%nat.
Proof.
  induction rows as [|a rows IH]; simpl; [easy|].
  intros Hnd Hin. inversion Hnd as [|? ? Hna Hnd']; subst.
  destruct Hin as [-> | Hin].
  - rewrite Z.eqb_refl.
    assert (E : loc_set key rows (key r) v = rows).
    { unfold loc_set. rewrite <- (map_id rows) at 2. apply map_ext_in.
      intros x Hx. destruct (Z.eqb_spec (key x) (key r)) as [E|_]; [|easy].
      exfalso. apply Hna. rewrite <- E. now apply in_map. }
    rewrite E. destruct (f r), (f v); simpl; lia.
  - destruct (Z.eqb_spec (key a) (key r)) as [E|_].
    + exfalso. apply Hna. rewrite E. now apply in_map.
    + specialize (IH Hnd' Hin). destruct (f a); simpl; lia.
Qed.
End LocFacts.

(** ** One application of a resource to a node *)

Lemma record_site_aligned (n : node) (file_id : label) (frac : Q) :
  aligned n -> record_site n file_id frac = Ok (append_site n file_id frac).
Proof.
  unfold aligned, record_site, append_site, ids, fracs.
  destruct (site_id n) as [[|i l]|], (site_fracs n) as [[|f fl]|];
    simpl; try easy.
Qed.

Lemma append_site_aligned (n : node) (file_id : label) (frac : Q) :
  aligned n -> aligned (append_site n file_id frac).
Proof.
  unfold aligned, append_site, ids, fracs; simpl.
  destruct (site_id n), (site_fracs n); simpl; try easy;
    intros H; rewrite !length_app; simpl; lia.
Qed.

Lemma res_after_name r n : res_name (res_after r n) = res_name r.
Proof. unfold res_after, apportion. now destruct (Qgtb _ _). Qed.

Lemma res_after_capacity r n : res_capacity (res_after r n) = res_capacity r.
Proof. unfold res_after, apportion. now destruct (Qgtb _ _). Qed.

Lemma node_after_name r n : node_name (node_after r n) = node_name n.
Proof. unfold node_after, apportion. now destruct (Qgtb _ _). Qed.

Lemma node_after_ids r n : ids (node_after r n) = ids n ++ [res_name r].
Proof. unfold node_after, apportion. now destruct (Qgtb _ _). Qed.

Lemma node_after_fracs r n : fracs (node_after r n) = fracs n ++ [frac_of r n].
Proof. unfold node_after, frac_of, apportion. now destruct (Qgtb _ _). Qed.

Lemma node_after_aligned r n : aligned n -> aligned (node_after r n).
Proof.
  intro H. unfold node_after. apply append_site_aligned.
  unfold apportion. now destruct (Qgtb _ _).
Qed.

Lemma drawn_base (st : tables) (r : resource) (n : node) :
  base st -> In n (nodes st) -> base (drawn st r n).
Proof.
  intros (Hr & Hn & Ha) Hin. unfold base, drawn; simpl.
  rewrite loc_set_keys by apply res_after_name.
  rewrite loc_set_keys by apply node_after_name.
  repeat split; try assumption.
  apply Forall_loc_set; [exact Ha|].
  apply node_after_aligned. rewrite Forall_forall in Ha. now apply Ha.
Qed.

Lemma apply_pair_drawn (r_idx n_idx : list label) (st : tables)
  (i j : nat) (r : resource) (n : node) :
  base st ->
  nth_error r_idx i = Some (res_name r) ->
  nth_error n_idx j = Some (node_name n) ->
  In r (r_nodes st) -> In n (nodes st) ->
  apply_pair r_idx n_idx st (i, j) = Ok (drawn st r n).
Proof.
  intros (Hr & Hn & Ha) Hi Hj Hinr Hinn.
  unfold apply_pair, index_at; simpl. rewrite Hi, Hj; simpl.
  rewrite (loc_of_In res_name _ r Hr Hinr); simpl.
  rewrite (loc_of_In node_name _ n Hn Hinn); simpl.
  unfold drawn, res_after, node_after, frac_of.
  destruct (apportion r n) as [[frac r1] n1] eqn:E; simpl.
  rewrite record_site_aligned; [reflexivity|].
  rewrite Forall_forall in Ha. specialize (Ha n Hinn).
  unfold apportion in E. destruct (Qgtb _ _); injection E as _ _ <-; exact Ha.
Qed.

(** ** The spatial query *)

Lemma dist_ltb_trans_false (a b c : distance) :
  dist_ltb a b = false -> dist_ltb b c = false -> dist_ltb a c = false.
Proof.
  destruct a as [x|], b as [y|], c as [z|]; simpl; try easy.
  rewrite !Qgtb_false. intros; lra.
Qed.

Lemma dist_ltb_irrefl (a : distance) : dist_ltb a a = false.
Proof. destruct a; simpl; [apply Qgtb_false; lra | reflexivity]. Qed.

Lemma dist_ltb_asym (a b : distance) :
  dist_ltb a b = true -> dist_ltb b a = false.
Proof.
  destruct a as [x|], b as [y|]; simpl; try easy.
  rewrite Qgtb_true, Qgtb_false. intros; lra.
Qed.

(** [c <= b] and [b <= a] give [c <= a], read on [dist_ltb _ _ = false]. *)
Lemma dist_ltb_ge_trans (a b c : distance) :
  dist_ltb a b = false -> dist_ltb c a = false -> dist_ltb c b = false.
Proof. intros H1 H2. exact (dist_ltb_trans_false c a b H2 H1). Qed.

Lemma nearest_range (x : point) (data : list point) (i : nat)
  (best : distance * nat) :
  nearest x data i best = best \/
  (i <= snd (nearest x data i best) < i + length data)%nat.
Proof.
  revert i best. induction data as [|p ps IH]; intros i best; cbn [nearest length].
  - now left.
  - set (b := if dist_ltb (Finite (dist2 x p)) (fst best)
              then (Finite (dist2 x p), i) else best).
    destruct (IH (S i) b) as [E | H].
    + rewrite E. subst b. destruct (dist_ltb _ _); [right; simpl; lia | now left].
    + right. lia.
Qed.

(** On a tree that is not empty the reported position is one of the tree. *)
Lemma query1_in_range (tree : list point) (x : point) :
  tree <> [] -> (snd (query1 tree x) < length tree)%nat.
Proof.
  unfold query1. destruct tree as [|p ps]; [easy|]. intros _.
  cbn [nearest length fst dist_ltb].
  destruct (nearest_range x ps 1 (Finite (dist2 x p), 0%nat)) as [E | H].
  - rewrite E. simpl. lia.
  - lia.
Qed.

Lemma nearest_spec (x : point) (data : list point) (i : nat)
  (best : distance * nat) :
  dist_ltb (fst best) (fst (nearest x data i best)) = false /\
  (forall q, In q data ->
     dist_ltb (Finite (dist2 x q)) (fst (nearest x data i best)) = false) /\
  (nearest x data i best = best \/
   exists k p, nth_error data k = Some p /\
               nearest x data i best = (Finite (dist2 x p), (i + k)%nat)).
Proof.
  revert i best. induction data as [|p ps IH]; intros i best; cbn [nearest].
  - split; [apply dist_ltb_irrefl | split; [easy | now left]].
  - set (b := if dist_ltb (Finite (dist2 x p)) (fst best)
              then (Finite (dist2 x p), i) else best).
    assert (Hbest : dist_ltb (fst best) (fst b) = false).
    { subst b. destruct (dist_ltb (Finite (dist2 x p)) (fst best)) eqn:E;
        cbn [fst]; [now apply dist_ltb_asym | apply dist_ltb_irrefl]. }
    assert (Hp : dist_ltb (Finite (dist2 x p)) (fst b) = false).
    { subst b. destruct (dist_ltb (Finite (dist2 x p)) (fst best)) eqn:E;
        cbn [fst]; [apply dist_ltb_irrefl | exact E]. }
    assert (Hcase : b = best \/ b = (Finite (dist2 x p), i)).
    { subst b. destruct (dist_ltb (Finite (dist2 x p)) (fst best)); auto. }
    destruct (IH (S i) b) as (Hb & Hall & Hor).
    split; [|split].
    + eapply dist_ltb_ge_trans; eauto.
    + intros q [<- | Hq]; [|now apply Hall].
      eapply dist_ltb_ge_trans; eauto.
    + destruct Hor as [E | (k & q & Hk & E)].
      * rewrite E. destruct Hcase as [-> | ->]; [now left|].
        right. exists 0%nat, p. split; [reflexivity | now rewrite Nat.add_0_r].
      * right. exists (S k), q. split; [exact Hk|]. rewrite E. f_equal. lia.
Qed.

(** On a tree that is not empty, [query] reports a data point, its squared
    distance, and no data point is nearer. *)
Lemma query1_nearest (tree : list point) (x : point) :
  tree <> [] ->
  exists p, nth_error tree (snd (query1 tree x)) = Some p /\
            fst (query1 tree x) = Finite (dist2 x p) /\
            forall q, In q tree -> dist2 x p <= dist2 x q.
Proof.
  intro Hne. unfold query1.
  destruct (nearest_spec x tree 0 (Inf, length tree)) as (_ & Hall & Hor).
  destruct Hor as [E | (k & p & Hk & E)].
  - exfalso. destruct tree as [|q qs]; [easy|].
    specialize (Hall q (or_introl eq_refl)). rewrite E in Hall. discriminate.
  - exists p. rewrite E. cbn [fst snd Nat.add]. split; [exact Hk|].
    split; [reflexivity|]. intros q Hq. specialize (Hall q Hq).
    rewrite E in Hall. cbn [fst dist_ltb] in Hall. now apply Qgtb_false in Hall.
Qed.

(** On the empty tree: infinite distance and position [n = 0]. *)
Lemma query1_empty (x : point) : query1 [] x = (Inf, 0%nat).
Proof. reflexivity. Qed.

(** ** Grouping and [idxmin] *)

Lemma idxmin_In (rows : list (nat * distance)) (k : nat) (e : distance) :
  idxmin rows = Some (k, e) -> In (k, e) rows.
Proof.
  revert k e. induction rows as [|[j d] rest IH]; simpl; intros k e; [easy|].
  destruct (idxmin rest) as [[k' e']|].
  - destruct (dist_ltb e' d); intro H; injection H as <- <-; auto.
  - intro H; injection H as <- <-; auto.
Qed.

Lemma idxmin_some (rows : list (nat * distance)) :
  rows <> [] -> exists ke, idxmin rows = Some ke.
Proof.
  destruct rows as [|[j d] rest]; [easy|]. intros _. simpl.
  destruct (idxmin rest) as [[k' e']|]; [destruct (dist_ltb e' d)|]; eauto.
Qed.

(** No row of the group carries a smaller value than the chosen one. *)
Lemma idxmin_least (rows : list (nat * distance)) (k : nat) (e : distance) :
  idxmin rows = Some (k, e) ->
  forall j d, In (j, d) rows -> dist_ltb d e = false.
Proof.
  revert k e. induction rows as [|[j0 d0] rest IH]; simpl; intros k e; [easy|].
  destruct (idxmin rest) as [[k' e']|] eqn:E.
  - destruct (dist_ltb e' d0) eqn:L; intro H; injection H as <- <-;
      intros j d [Hj | Hj].
    + injection Hj as <- <-. now apply dist_ltb_asym.
    + now apply (IH _ _ eq_refl j).
    + injection Hj as <- <-. apply dist_ltb_irrefl.
    + apply dist_ltb_trans_false with e'; [|exact L].
      now apply (IH _ _ eq_refl j).
  - intro H; injection H as <- <-. intros j d [Hj | Hj].
    + injection Hj as <- <-. apply dist_ltb_irrefl.
    + destruct rest as [|[j1 d1] rest']; [easy|]. simpl in E.
      destruct (idxmin rest') as [[? ?]|]; [destruct (dist_ltb _ _)|]; easy.
Qed.

Lemma In_combine_seq {A : Type} (l : list A) (a j : nat) (x : A) :
  In (j, x) (combine (seq a (length l)) l) <->
  (a <= j)%nat /\ nth_error l (j - a) = Some x.
Proof.
  revert a. induction l as [|y l IH]; intro a; simpl.
  - split; [easy|]. intros [_ H]. now destruct (j - a)%nat.
  - rewrite IH. split.
    + intros [H | [Hle H]].
      * injection H as <- <-. split; [lia|]. now rewrite Nat.sub_diag.
      * split; [lia|]. replace (j - a)%nat with (S (j - S a)) by lia. exact H.
    + intros [Hle H]. destruct (Nat.eq_dec a j) as [<- | Hne].
      * left. rewrite Nat.sub_diag in H. simpl in H. congruence.
      * right. split; [lia|].
        replace (j - a)%nat with (S (j - S a)) in H by lia. exact H.
Qed.

Lemma In_pairs_frame (pos : list nat) (dist : list distance)
  (j q : nat) (d : distance) :
  length pos = length dist ->
  (In (j, (q, d)) (pairs_frame pos dist) <->
   nth_error pos j = Some q /\ nth_error dist j = Some d).
Proof.
  intro Hlen. unfold pairs_frame.
  assert (E : length pos = length (combine pos dist)).
  { rewrite length_combine. lia. }
  rewrite E, In_combine_seq, Nat.sub_0_r. clear E.
  revert dist j Hlen. induction pos as [|a pos IH]; intros [|b dist] j Hlen;
    simpl in *; try discriminate.
  - destruct j; simpl; intuition discriminate.
  - destruct j as [|j]; simpl.
    + split; [intros [_ H]; injection H as <- <-; auto
             | intros [H1 H2]; split; [lia | congruence]].
    + specialize (IH dist j ltac:(lia)). split.
      * intros [_ H]. apply IH. split; [lia | exact H].
      * intros H. split; [lia|]. now apply IH.
Qed.

Lemma In_group (p : nat) (frame : list (nat * (nat * distance)))
  (j : nat) (d : distance) :
  In (j, d) (group p frame) <-> In (j, (p, d)) frame.
Proof.
  unfold group. rewrite in_map_iff. split.
  - intros [[j' [q d']] [H Hin]]. simpl in H. injection H as <- <-.
    apply filter_In in Hin. destruct Hin as [Hin Hq]. simpl in Hq.
    apply Nat.eqb_eq in Hq. now subst.
  - intro Hin. exists (j, (p, d)). split; [reflexivity|].
    apply filter_In. split; [exact Hin | simpl; apply Nat.eqb_refl].
Qed.

Lemma In_groupby_idxmin (pos : list nat) (dist : list distance) (p n : nat) :
  In (p, n) (groupby_idxmin pos dist) <->
  (p <= list_max pos)%nat /\
  exists e, idxmin (group p (pairs_frame pos dist)) = Some (n, e).
Proof.
  unfold groupby_idxmin. rewrite in_flat_map. split.
  - intros [q [Hq Hin]]. apply in_seq in Hq.
    destruct (idxmin (group q _)) as [[n' e]|] eqn:E; [|easy].
    destruct Hin as [H|[]]. injection H as <- <-. split; [lia | eauto].
  - intros [Hp [e E]]. exists p. split; [apply in_seq; lia|].
    rewrite E. now left.
Qed.

Lemma list_max_ge (l : list nat) (x : nat) : In x l -> (x <= list_max l)%nat.
Proof.
  intro H. pose proof (proj1 (list_max_le l (list_max l)) (Nat.le_refl _)) as F.
  rewrite Forall_forall in F. now apply F.
Qed.

Lemma groupby_idxmin_fst_NoDup (pos : list nat) (dist : list distance) :
  NoDup (map fst (groupby_idxmin pos dist)).
Proof.
  unfold groupby_idxmin.
  pose proof (seq_NoDup (S (list_max pos)) 0) as Hnd.
  induction (seq 0 (S (list_max pos))) as [|a keys IH]; simpl; [constructor|].
  inversion Hnd as [|? ? Ha Hk]; subst. specialize (IH Hk).
  destruct (idxmin (group a _)) as [[n e]|]; simpl; [|exact IH].
  constructor; [|exact IH]. rewrite in_map_iff. intros [[q m] [Hq Hin]].
  simpl in Hq; subst q. apply in_flat_map in Hin. destruct Hin as [q [Hq Hin]].
  destruct (idxmin (group q _)) as [[n' e']|]; [|easy].
  destruct Hin as [H|[]]. injection H as -> _. contradiction.
Qed.

(** The winner recorded for a group nominated the key of that group. *)
Lemma groupby_idxmin_pos (pos : list nat) (dist : list distance) (p n : nat) :
  length pos = length dist ->
  In (p, n) (groupby_idxmin pos dist) -> nth_error pos n = Some p.
Proof.
  intros Hlen Hin. apply In_groupby_idxmin in Hin. destruct Hin as [_ [e E]].
  apply idxmin_In, In_group in E. now apply (In_pairs_frame _ _ _ _ _ Hlen) in E.
Qed.

Lemma NoDup_map_snd {A B : Type} (l : list (A * B)) :
  NoDup (map fst l) ->
  (forall x y, In x l -> In y l -> snd x = snd y -> fst x = fst y) ->
  NoDup (map snd l).
Proof.
  induction l as [|x l IH]; simpl; intros Hnd Hf; [constructor|].
  inversion Hnd as [|? ? Hx Hl]; subst. constructor.
  - rewrite in_map_iff. intros [y [Hy Hin]]. apply Hx.
    rewrite <- (Hf y x); auto. now apply in_map.
  - apply IH; auto.
Qed.

Lemma groupby_idxmin_snd_NoDup (pos : list nat) (dist : list distance) :
  length pos = length dist -> NoDup (map snd (groupby_idxmin pos dist)).
Proof.
  intro Hlen. apply NoDup_map_snd; [apply groupby_idxmin_fst_NoDup|].
  intros [p n] [q m] Hx Hy; simpl; intros <-.
  apply (groupby_idxmin_pos _ _ _ _ Hlen) in Hx, Hy. congruence.
Qed.

(** Every nominated key has its entry. *)
Lemma groupby_idxmin_covers (pos : list nat) (dist : list distance) (j p : nat) :
  length pos = length dist -> nth_error pos j = Some p ->
  exists n, In (p, n) (groupby_idxmin pos dist).
Proof.
  intros Hlen Hj.
  assert (Hd : exists d, nth_error dist j = Some d).
  { destruct (nth_error dist j) as [d|] eqn:E; [eauto|].
    apply nth_error_None in E.
    assert (nth_error pos j <> None) as H%nth_error_Some by congruence. lia. }
  destruct Hd as [d Hd].
  assert (Hg : In (j, d) (group p (pairs_frame pos dist))).
  { apply In_group, In_pairs_frame; auto. }
  destruct (idxmin_some (group p (pairs_frame pos dist))) as [[n e] E].
  { intro H. now rewrite H in Hg. }
  exists n. apply In_groupby_idxmin. split; [|eauto].
  apply list_max_ge. eapply nth_error_In; eauto.
Qed.

(** ** A pass as a sequence of applications *)

Lemma nth_error_inj {A : Type} (l : list A) (i j : nat) (x : A) :
  NoDup l -> nth_error l i = Some x -> nth_error l j = Some x -> i = j.
Proof.
  intros Hnd Hi Hj. apply (proj1 (NoDup_nth_error l) Hnd).
  - apply nth_error_Some. congruence.
  - congruence.
Qed.

Lemma for_each_run (r_idx n_idx : list label) (ps : list (nat * nat)) :
  NoDup r_idx -> NoDup n_idx ->
  NoDup (map fst ps) -> NoDup (map snd ps) ->
  forall st, base st ->
  (forall i j, In (i, j) ps ->
     exists r n, nth_error r_idx i = Some (res_name r) /\
                 nth_error n_idx j = Some (node_name n) /\
                 In r (r_nodes st) /\ In n (nodes st) /\
                 0 < res_r_cap r /\ 0 < r_cap n) ->
  exists st', for_each r_idx n_idx ps st = Ok st' /\
              run_draws st (label_pairs r_idx n_idx ps) st'.
Proof.
  intros Hri Hni. induction ps as [|[i j] rest IH]; intros Hf Hs st Hb Hps.
  - exists st. split; [reflexivity | constructor].
  - simpl in Hf, Hs. inversion Hf as [|? ? Hfi Hf']; subst.
    inversion Hs as [|? ? Hsj Hs']; subst.
    destruct (Hps i j (or_introl eq_refl))
      as (r & n & Hi & Hj & Hinr & Hinn & Hr & Hn).
    cbn [for_each]. rewrite (apply_pair_drawn _ _ _ _ _ r n Hb Hi Hj Hinr Hinn).
    cbn [bind].
    destruct (IH Hf' Hs' (drawn st r n) (drawn_base st r n Hb Hinn))
      as (st' & E & Hrun).
    { intros i' j' Hin.
      destruct (Hps i' j' (or_intror Hin))
        as (r' & n' & Hi' & Hj' & Hinr' & Hinn' & Hr' & Hn').
      exists r', n'. repeat split; try assumption.
      - apply In_loc_set_other; [exact Hinr'|]. intro Heq.
        rewrite Heq in Hi'. pose proof (nth_error_inj _ _ _ _ Hri Hi Hi'); subst.
        apply Hfi. change i' with (fst (i', j')). now apply in_map.
      - apply In_loc_set_other; [exact Hinn'|]. intro Heq.
        rewrite Heq in Hj'. pose proof (nth_error_inj _ _ _ _ Hni Hj Hj'); subst.
        apply Hsj. change j' with (snd (i', j')). now apply in_map. }
    exists st'. split; [exact E|].
    unfold label_pairs. cbn [map fst snd]. fold (label_pairs r_idx n_idx rest).
    rewrite (nth_error_nth r_idx i 0%Z Hi), (nth_error_nth n_idx j 0%Z Hj).
    now constructor.
Qed.

Lemma NoDup_map_filter {A B : Type} (f : A -> B) (g : A -> bool) (l : list A) :
  NoDup (map f l) -> NoDup (map f (filter g l)).
Proof.
  induction l as [|a l IH]; simpl; intro H; [constructor|].
  inversion H as [|? ? Ha Hl]; subst. destruct (g a); simpl; auto.
  constructor; auto. rewrite in_map_iff. intros [x [Hx Hin]].
  apply Ha. rewrite <- Hx. apply in_map. apply filter_In in Hin. tauto.
Qed.

Lemma nominations_length (st : tables) :
  length (snd (nominations st)) = length (fst (nominations st)).
Proof. unfold nominations, query; simpl. now rewrite !length_map. Qed.

Lemma nominations_pos_length (st : tables) :
  length (snd (nominations st)) = length (nodes_left st).
Proof. unfold nominations, query; simpl. now rewrite !length_map. Qed.

(** While some resource has capacity left, every nomination names one. *)
Lemma nominations_in_range (st : tables) (j p : nat) :
  r_left st <> [] ->
  nth_error (snd (nominations st)) j = Some p ->
  (p < length (r_left st))%nat.
Proof.
  intros Hne Hj. unfold nominations, query in Hj; simpl in Hj.
  rewrite nth_error_map in Hj.
  destruct (nth_error _ j) as [x|]; [|easy]. injection Hj as <-.
  unfold cKDTree.
  rewrite <- (length_map (fun r => (res_latitude r, res_longitude r))).
  apply query1_in_range. destruct (r_left st); [easy | discriminate].
Qed.

Lemma node_pairs_sound (st : tables) (i j : nat) :
  r_left st <> [] -> In (i, j) (node_pairs st) ->
  exists r n, nth_error (r_left st) i = Some r /\
              nth_error (nodes_left st) j = Some n /\
              nth_error (snd (nominations st)) j = Some i.
Proof.
  intros Hne Hin. unfold node_pairs in Hin.
  apply groupby_idxmin_pos in Hin; [|apply nominations_length].
  pose proof (nominations_in_range st j i Hne Hin) as Hi.
  assert (Hj : (j < length (nodes_left st))%nat).
  { rewrite <- nominations_pos_length. apply nth_error_Some. congruence. }
  destruct (nth_error (r_left st) i) as [r|] eqn:Er;
    [|apply nth_error_None in Er; lia].
  destruct (nth_error (nodes_left st) j) as [n|] eqn:En;
    [|apply nth_error_None in En; lia].
  now exists r, n.
Qed.

Lemma r_left_In (st : tables) (r : resource) :
  In r (r_left st) <-> In r (r_nodes st) /\ 0 < res_r_cap r.
Proof. unfold r_left. now rewrite filter_In, Qgtb_true. Qed.

Lemma nodes_left_In (st : tables) (n : node) :
  In n (nodes_left st) <-> In n (nodes st) /\ 0 < r_cap n.
Proof. unfold nodes_left. now rewrite filter_In, Qgtb_true. Qed.

Lemma node_pairs_rows (st : tables) (i j : nat) :
  r_left st <> [] -> In (i, j) (node_pairs st) ->
  exists r n, nth_error (r_index st) i = Some (res_name r) /\
              nth_error (n_index st) j = Some (node_name n) /\
              In r (r_nodes st) /\ In n (nodes st) /\
              0 < res_r_cap r /\ 0 < r_cap n.
Proof.
  intros Hne Hin.
  destruct (node_pairs_sound st i j Hne Hin) as (r & n & Er & En & _).
  exists r, n. unfold r_index, n_index. rewrite !nth_error_map, Er, En.
  apply nth_error_In in Er, En. apply r_left_In in Er. apply nodes_left_In in En.
  tauto.
Qed.

(** A pass that finds a resource with capacity left raises nothing, and is
    a sequence of applications to rows that have capacity left. *)
Lemma pass_run (st : tables) :
  base st -> r_left st <> [] ->
  exists st', pass st = Ok st' /\ run_draws st (pass_labels st) st'.
Proof.
  intros Hb Hne. unfold pass, pass_labels.
  destruct Hb as (Hr & Hn & Ha).
  apply for_each_run.
  - unfold r_index, r_left. now apply NoDup_map_filter.
  - unfold n_index, nodes_left. now apply NoDup_map_filter.
  - apply groupby_idxmin_fst_NoDup.
  - apply groupby_idxmin_snd_NoDup, nominations_length.
  - now repeat split.
  - intros i j Hin. now apply node_pairs_rows.
Qed.

(** ** Arithmetic of one application *)

(** The amount moved: the fraction times the total capacity of the resource
    is what leaves both remaining capacities. *)
Lemma apportion_amount (r : resource) (n : node) :
  0 < res_capacity r ->
  res_r_cap (res_after r n) == res_r_cap r - frac_of r n * res_capacity r /\
  r_cap (node_after r n) == r_cap n - frac_of r n * res_capacity r.
Proof.
  intro Hc. unfold res_after, node_after, frac_of, apportion.
  destruct (Qgtb (r_cap n) (res_r_cap r)); simpl; split; field; lra.
Qed.

(** One of the two remaining capacities ends at zero; neither goes below. *)
Lemma apportion_cases (r : resource) (n : node) :
  (res_r_cap r < r_cap n /\ res_r_cap (res_after r n) == 0 /\
   r_cap (node_after r n) == r_cap n - res_r_cap r) \/
  (r_cap n <= res_r_cap r /\ r_cap (node_after r n) == 0 /\
   res_r_cap (res_after r n) == res_r_cap r - r_cap n).
Proof.
  unfold res_after, node_after, apportion.
  destruct (Qgtb (r_cap n) (res_r_cap r)) eqn:E; simpl.
  - left. apply Qgtb_true in E. split; [exact E | split; [reflexivity | ring]].
  - right. apply Qgtb_false in E. split; [exact E | split; [reflexivity | ring]].
Qed.

(** ** Signs of the remaining capacities *)

Lemma drawn_nonneg_res (st : tables) (r : resource) (n : node) :
  nonneg_res st -> In r (r_nodes st) -> 0 < res_r_cap r -> 0 < r_cap n ->
  nonneg_res (drawn st r n).
Proof.
  intros Hr Hinr Hrp Hnp. unfold nonneg_res, drawn in *; cbn [r_nodes].
  pose proof (proj1 (Forall_forall _ _) Hr r Hinr) as [_ Hle].
  apply Forall_loc_set; [assumption|]. rewrite res_after_capacity.
  destruct (apportion_cases r n) as [(H1 & H2 & H3) | (H1 & H2 & H3)]; lra.
Qed.

Lemma drawn_nonneg (st : tables) (r : resource) (n : node) :
  nonneg st -> In r (r_nodes st) -> 0 < res_r_cap r -> 0 < r_cap n ->
  nonneg (drawn st r n).
Proof.
  intros [Hr Hn] Hinr Hrp Hnp. split; [now apply drawn_nonneg_res|].
  unfold nonneg_nodes, drawn in *; cbn [nodes].
  apply Forall_loc_set; [assumption|].
  destruct (apportion_cases r n) as [(H1 & H2 & H3) | (H1 & H2 & H3)]; lra.
Qed.

Lemma run_draws_inv (P : tables -> Prop) :
  (forall st r n, P st -> In r (r_nodes st) -> In n (nodes st) ->
                  0 < res_r_cap r -> 0 < r_cap n -> P (drawn st r n)) ->
  forall st l st', run_draws st l st' -> P st -> P st'.
Proof.
  intros Hstep st l st' Hrun. induction Hrun; intro HP; [exact HP|].
  apply IHHrun. now apply Hstep.
Qed.

(** ** Progress: the number of rows with capacity left *)

Lemma Qgtb_zero_false (x : Q) : x == 0 -> Qgtb x 0 = false.
Proof. intro H. apply Qgtb_false. lra. Qed.

Lemma drawn_measure (st : tables) (r : resource) (n : node) :
  base st -> In r (r_nodes st) -> In n (nodes st) ->
  0 < res_r_cap r -> 0 < r_cap n ->
  (length (r_left (drawn st r n)) <= length (r_left st) /\
   length (nodes_left (drawn st r n)) <= length (nodes_left st) /\
   measure (drawn st r n) + 1 <= measure st)%nat.
Proof.
  intros (Hr & Hn & _) Hinr Hinn Hrp Hnp.
  unfold measure, r_left, nodes_left, drawn; cbn [r_nodes nodes].
  pose proof (count_loc_set res_name (fun r => Qgtb (res_r_cap r) 0)
                (r_nodes st) r (res_after r n) Hr Hinr) as Cr.
  pose proof (count_loc_set node_name (fun n => Qgtb (r_cap n) 0)
                (nodes st) n (node_after r n) Hn Hinn) as Cn.
  cbv beta in Cr, Cn.
  rewrite (proj2 (Qgtb_true _ _) Hrp) in Cr.
  rewrite (proj2 (Qgtb_true _ _) Hnp) in Cn.
  destruct (apportion_cases r n) as [(_ & H & _) | (_ & H & _)];
    rewrite (Qgtb_zero_false _ H) in *; cbn [Nat.b2n] in Cr, Cn.
  - destruct (Qgtb (r_cap (node_after r n)) 0); cbn [Nat.b2n] in Cn; lia.
  - destruct (Qgtb (res_r_cap (res_after r n)) 0); cbn [Nat.b2n] in Cr; lia.
Qed.

Lemma run_draws_measure (st st' : tables) (l : list (label * label)) :
  run_draws st l st' -> base st ->
  (length (r_left st') <= length (r_left st) /\
   length (nodes_left st') <= length (nodes_left st) /\
   measure st' + length l <= measure st)%nat.
Proof.
  induction 1 as [st | st r n rest st' Hinr Hinn Hr Hn Hrun IH]; intro Hb.
  - simpl. lia.
  - specialize (IH (drawn_base st r n Hb Hinn)).
    pose proof (drawn_measure st r n Hb Hinr Hinn Hr Hn). simpl. lia.
Qed.

(** ** Balance of unmet demand and available capacity *)

Lemma drawn_balance (st : tables) (r : resource) (n : node) :
  base st -> In r (r_nodes st) -> In n (nodes st) ->
  unmet (drawn st r n) - available (drawn st r n) == unmet st - available st.
Proof.
  intros (Hr & Hn & _) Hinr Hinn. unfold unmet, available, drawn; simpl.
  pose proof (Qsum_loc_set res_name res_r_cap (r_nodes st) r (res_after r n) Hr Hinr).
  pose proof (Qsum_loc_set node_name r_cap (nodes st) n (node_after r n) Hn Hinn).
  destruct (apportion_cases r n) as [(_ & H1 & H2) | (_ & H1 & H2)]; lra.
Qed.

Lemma run_draws_balanced (d : Q) (st st' : tables) (l : list (label * label)) :
  run_draws st l st' -> balanced d st -> balanced d st'.
Proof.
  apply (run_draws_inv (balanced d)).
  intros s r n (Hb & Hn & Hd) Hinr Hinn Hr Hnp. split; [|split].
  - now apply drawn_base.
  - now apply drawn_nonneg.
  - rewrite <- Hd. now apply drawn_balance.
Qed.

Lemma filter_nil_all {A : Type} (f : A -> bool) (l : list A) (x : A) :
  filter f l = [] -> In x l -> f x = false.
Proof.
  intros E Hin. destruct (f x) eqn:F; [|reflexivity].
  assert (H : In x (filter f l)) by (apply filter_In; auto).
  now rewrite E in H.
Qed.

Lemma Qsum_nonpos (l : list Q) : Forall (fun x => x <= 0) l -> Qsum l <= 0.
Proof. induction 1; simpl; lra. Qed.

(** With capacity for all demand, resources cannot run out before nodes. *)
Lemma not_starved (st : tables) :
  nonneg st -> unmet st <= available st -> r_left st = [] -> nodes_left st = [].
Proof.
  intros [Hr Hn] Hle E. unfold nonneg_res, nonneg_nodes in *.
  assert (Ha : available st <= 0).
  { apply Qsum_nonpos. apply Forall_forall. intros x Hx.
    apply in_map_iff in Hx. destruct Hx as [r [<- Hin]].
    apply (filter_nil_all _ _ r E) in Hin. now apply Qgtb_false in Hin. }
  assert (Hz : Forall (fun x => x == 0) (map r_cap (nodes st))).
  { apply Qsum_zero_all.
    - apply Forall_forall. intros x Hx. apply in_map_iff in Hx.
      destruct Hx as [n [<- Hin]]. rewrite Forall_forall in Hn. now apply Hn.
    - unfold unmet in Hle. lra. }
  unfold nodes_left. induction (nodes st) as [|n ns IH]; [reflexivity|].
  simpl in *. inversion Hz as [|? ? Hn0 Hz']; subst.
  inversion Hn as [|? ? _ Hn']; subst.
  rewrite (Qgtb_zero_false _ Hn0). now apply IH.
Qed.

(** With more demand than capacity, some node always remains unmet. *)
Lemma never_filled (st : tables) :
  nonneg st -> available st < unmet st -> nodes_left st <> [].
Proof.
  intros [Hr Hn] Hlt E. unfold nonneg_res, nonneg_nodes in *.
  assert (Ha : 0 <= available st).
  { apply Qsum_nonneg. apply Forall_forall. intros x Hx.
    apply in_map_iff in Hx. destruct Hx as [r [<- Hin]].
    rewrite Forall_forall in Hr. now apply Hr. }
  assert (Hu : unmet st <= 0).
  { apply Qsum_nonpos. apply Forall_forall. intros x Hx.
    apply in_map_iff in Hx. destruct Hx as [n [<- Hin]].
    apply (filter_nil_all _ _ n E) in Hin. now apply Qgtb_false in Hin. }
  lra.
Qed.

(** ** The three shapes of a pass *)

Lemma pass_no_nodes (st : tables) : nodes_left st = [] -> pass st = Ok st.
Proof.
  intro E. unfold pass, node_pairs, nominations. rewrite E. reflexivity.
Qed.

Lemma node_pairs_nonempty (st : tables) :
  nodes_left st <> [] -> node_pairs st <> [].
Proof.
  intros Hne E.
  destruct (nth_error (snd (nominations st)) 0) as [p|] eqn:Ep.
  - destruct (groupby_idxmin_covers _ (fst (nominations st)) 0 p
                (nominations_length st) Ep) as [n Hin].
    unfold node_pairs in E. now rewrite E in Hin.
  - apply nth_error_None in Ep. rewrite nominations_pos_length in Ep.
    destruct (nodes_left st); [easy | simpl in Ep; lia].
Qed.

(** No resource with capacity left while a node is unmet: [r_index[i]]
    is taken of an empty index. *)
Lemma pass_starved (st : tables) :
  r_left st = [] -> nodes_left st <> [] -> pass st = Raise IndexError.
Proof.
  intros Er Hn. pose proof (node_pairs_nonempty st Hn) as Hp.
  unfold pass, r_index. rewrite Er.
  destruct (node_pairs st) as [|[i j] rest]; [easy|].
  cbn [for_each map]. unfold apply_pair, index_at. cbn [fst].
  now destruct i.
Qed.

Lemma pass_ok_run (st st' : tables) :
  base st -> pass st = Ok st' -> run_draws st (pass_labels st) st'.
Proof.
  intros Hb E. destruct (r_left st) as [|r0 rl] eqn:Er.
  - destruct (nodes_left st) as [|n0 nl] eqn:En.
    + rewrite (pass_no_nodes st En) in E. injection E as <-.
      unfold pass_labels, node_pairs, nominations. rewrite En. constructor.
    + rewrite pass_starved in E; [discriminate | exact Er | now rewrite En].
  - destruct (pass_run st Hb) as (st1 & E1 & Hrun); [now rewrite Er|].
    rewrite E1 in E. now injection E as <-.
Qed.

(** ** Accounting of fractions *)

Lemma combine_snoc {A B : Type} (l : list A) (l' : list B) (a : A) (b : B) :
  length l = length l' -> combine (l ++ [a]) (l' ++ [b]) = combine l l' ++ [(a, b)].
Proof.
  revert l'. induction l as [|x l IH]; intros [|y l'] H; simpl in *;
    try discriminate; [reflexivity|].
  f_equal. apply IH. lia.
Qed.

Lemma aligned_length (n : node) : aligned n -> length (ids n) = length (fracs n).
Proof.
  unfold aligned, ids, fracs. now destruct (site_id n), (site_fracs n).
Qed.

Lemma node_after_assignments (r : resource) (n : node) :
  aligned n ->
  node_assignments (node_after r n)
  = node_assignments n ++ [(res_name r, frac_of r n)].
Proof.
  intro Ha. unfold node_assignments, assignments.
  change (cells (site_id ?x)) with (ids x).
  change (cells (site_fracs ?x)) with (fracs x).
  rewrite node_after_ids, node_after_fracs.
  apply combine_snoc. now apply aligned_length.
Qed.

Lemma delivered_snoc (rs : list resource) (a : list (label * Q)) (k : label) (f : Q) :
  delivered rs (a ++ [(k, f)]) == delivered rs a + f * capacity_of rs k.
Proof.
  unfold delivered. rewrite map_app, Qsum_app.
  cbn [map Qsum fold_right fst snd]. ring.
Qed.

Lemma taken_snoc_same (a : list (label * Q)) (k : label) (f : Q) :
  taken k (a ++ [(k, f)]) == taken k a + f.
Proof.
  unfold taken. rewrite filter_app, map_app, Qsum_app.
  cbn [filter fst]. rewrite Z.eqb_refl.
  cbn [map Qsum fold_right fst snd]. ring.
Qed.

Lemma taken_snoc_other (a : list (label * Q)) (k k' : label) (f : Q) :
  k' <> k -> taken k (a ++ [(k', f)]) == taken k a.
Proof.
  intro H. unfold taken. rewrite filter_app, map_app, Qsum_app.
  cbn [filter fst]. destruct (Z.eqb_spec k' k); [contradiction|].
  cbn [map Qsum fold_right]. ring.
Qed.

Lemma same_key_eq {A : Type} (key : A -> label) (rows : list A) (a b : A) :
  NoDup (map key rows) -> In a rows -> In b rows -> key a = key b -> a = b.
Proof.
  intros Hnd Ha Hb E.
  pose proof (loc_of_In key rows a Hnd Ha) as La.
  pose proof (loc_of_In key rows b Hnd Hb) as Lb.
  rewrite E in La. congruence.
Qed.

Lemma capacity_of_In (rs : list resource) (r : resource) :
  NoDup (map res_name rs) -> In r rs -> capacity_of rs (res_name r) = res_capacity r.
Proof.
  intros Hnd Hin. pose proof (loc_of_In res_name rs r Hnd Hin) as L.
  unfold loc in L. unfold capacity_of.
  destruct (find _ rs); [now injection L as -> | discriminate].
Qed.

Lemma demand_of_In (ns : list node) (n : node) :
  NoDup (map node_name ns) -> In n ns -> demand_of ns (node_name n) = r_cap n.
Proof.
  intros Hnd Hin. pose proof (loc_of_In node_name ns n Hnd Hin) as L.
  unfold loc in L. unfold demand_of.
  destruct (find _ ns); [now injection L as -> | discriminate].
Qed.

Lemma sites_names (rs : list resource) : map fst (sites rs) = map res_name rs.
Proof. unfold sites. rewrite map_map. reflexivity. Qed.

Lemma sites_loc_set (rs : list resource) (r v : resource) :
  NoDup (map res_name rs) -> In r rs ->
  res_name v = res_name r -> res_capacity v = res_capacity r ->
  sites (loc_set res_name rs (res_name r) v) = sites rs.
Proof.
  intros Hnd Hin Hn Hc. unfold sites, loc_set. rewrite map_map.
  apply map_ext_in. intros x Hx.
  destruct (Z.eqb_spec (res_name x) (res_name r)) as [E|_]; [|reflexivity].
  rewrite (same_key_eq res_name rs x r Hnd Hx Hin E). congruence.
Qed.

(** The capacity recorded in a row is the one of the loaded table. *)
Lemma sites_capacity_of (rs0 rs : list resource) (r : resource) :
  NoDup (map res_name rs) -> sites rs = sites rs0 -> In r rs ->
  capacity_of rs0 (res_name r) = res_capacity r.
Proof.
  intros Hnd Hs Hin.
  assert (Hnd0 : NoDup (map res_name rs0)).
  { rewrite <- sites_names, <- Hs, sites_names. exact Hnd. }
  assert (H : In (res_name r, res_capacity r) (sites rs0)).
  { rewrite <- Hs. unfold sites. apply in_map_iff. now exists r. }
  unfold sites in H. apply in_map_iff in H. destruct H as [r0 [E Hin0]].
  injection E as En Ec. rewrite <- En, <- Ec. now apply capacity_of_In.
Qed.

Lemma used_map (k : label) (c : Q) (ns : list node) :
  used k c (map node_assignments ns)
  = Qsum (map (fun m => taken k (node_assignments m) * c) ns).
Proof. unfold used. now rewrite map_map. Qed.

Lemma drawn_tracks (st0 st : tables) (r : resource) (n : node) :
  tracks st0 st -> In r (r_nodes st) -> In n (nodes st) ->
  0 < res_r_cap r -> 0 < r_cap n -> tracks st0 (drawn st r n).
Proof.
  intros (Hb & Hnn & Hs & Hnames & Hnode & Hres) Hinr Hinn Hrp Hnp.
  pose proof Hb as (Hndr & Hndn & Hal).
  assert (Han : aligned n) by (rewrite Forall_forall in Hal; now apply Hal).
  assert (Hcap : 0 < res_capacity r).
  { unfold nonneg_res in Hnn. rewrite Forall_forall in Hnn.
    destruct (Hnn r Hinr). lra. }
  destruct (apportion_amount r n Hcap) as [Ar An].
  split; [now apply drawn_base|].
  split; [now apply drawn_nonneg_res|].
  unfold drawn; cbn [r_nodes nodes].
  split; [|split; [|split]].
  - rewrite sites_loc_set; auto using res_after_name, res_after_capacity.
  - rewrite loc_set_keys; auto using node_after_name.
  - apply Forall_loc_set; [exact Hnode|].
    rewrite node_after_assignments by exact Han.
    rewrite node_after_name.
    pose proof (delivered_snoc (r_nodes st0) (node_assignments n)
                  (res_name r) (frac_of r n)) as D.
    rewrite (sites_capacity_of (r_nodes st0) (r_nodes st) r Hndr Hs Hinr) in D.
    rewrite Forall_forall in Hnode. specialize (Hnode n Hinn).
    rewrite D, An. rewrite <- Hnode. ring.
  - apply Forall_forall. intros x Hx. rewrite used_map.
    pose proof (Qsum_loc_set node_name
                  (fun m => taken (res_name x) (node_assignments m) * res_capacity x)
                  (nodes st) n (node_after r n) Hndn Hinn) as S.
    cbv beta in S. rewrite node_after_assignments in S by exact Han.
    rewrite Forall_forall in Hres.
    apply In_loc_set in Hx. destruct Hx as [-> | [Hx Hne]].
    + specialize (Hres r Hinr). rewrite used_map in Hres.
      rewrite res_after_name, res_after_capacity in *.
      rewrite taken_snoc_same in S. lra.
    + specialize (Hres x Hx). rewrite used_map in Hres.
      rewrite taken_snoc_other in S by congruence. lra.
Qed.

(** ** Distinct sites per node *)

Lemma drawn_distinct (st : tables) (r : resource) (n : node) :
  distinct st -> In r (r_nodes st) -> In n (nodes st) ->
  0 < res_r_cap r -> 0 < r_cap n -> distinct (drawn st r n).
Proof.
  intros Hd Hinr Hinn Hrp Hnp. unfold distinct in *.
  rewrite Forall_forall in Hd. apply Forall_forall. intros m Hm.
  unfold drawn in *; cbn [r_nodes nodes] in *.
  apply In_loc_set in Hm. destruct Hm as [-> | [Hm Hne]].
  - destruct (Hd n Hinn) as [Hnd Hex]. rewrite node_after_ids. split.
    + apply NoDup_app; [exact Hnd | repeat constructor; easy |].
      intros a Ha [<- | []]. specialize (Hex Hnp r Hinr Ha). lra.
    + intros Hpos x Hx Hxi. apply In_loc_set in Hx.
      destruct (apportion_cases r n) as [(_ & H0 & _) | (_ & H0 & _)]; [|lra].
      destruct Hx as [-> | [Hx Hxn]]; [lra|].
      apply in_app_iff in Hxi. destruct Hxi as [Hxi | [Hxi | []]];
        [|congruence]. now apply (Hex Hnp x).
  - destruct (Hd m Hm) as [Hnd Hex]. split; [exact Hnd|].
    intros Hpos x Hx Hxi. apply In_loc_set in Hx.
    destruct Hx as [-> | [Hx Hxn]].
    + rewrite res_after_name in Hxi. specialize (Hex Hpos r Hinr Hxi). lra.
    + now apply (Hex Hpos x).
Qed.

(** ** The states a run goes through *)

Lemma inside_pass_all (st : tables) :
  inside_pass (length (node_pairs st)) st = pass st.
Proof. unfold inside_pass, pass. now rewrite firstn_all. Qed.

Lemma In_firstn {A : Type} (k : nat) (l : list A) (x : A) :
  In x (firstn k l) -> In x l.
Proof.
  revert l. induction k as [|k IH]; intros [|a l]; simpl; try easy.
  intros [H | H]; auto.
Qed.

Lemma NoDup_firstn {A : Type} (k : nat) (l : list A) :
  NoDup l -> NoDup (firstn k l).
Proof.
  revert l. induction k as [|k IH]; intros [|a l] H; simpl; try constructor.
  - inversion H; subst. intro Hin. apply In_firstn in Hin. contradiction.
  - inversion H; subst. now apply IH.
Qed.

Lemma inside_pass_run (st s : tables) (k : nat) :
  base st -> inside_pass k st = Ok s -> exists l, run_draws st l s.
Proof.
  intros Hb E. unfold inside_pass in E.
  destruct (r_left st) as [|r0 rl] eqn:Er.
  - destruct (firstn k (node_pairs st)) as [|[i j] rest].
    + injection E as <-. exists []. constructor.
    + cbn [for_each] in E. unfold apply_pair, index_at, r_index in E.
      rewrite Er in E. cbn [map fst] in E. now destruct i.
  - pose proof Hb as (Hr & Hn & Ha).
    destruct (for_each_run (r_index st) (n_index st) (firstn k (node_pairs st)))
      with (st := st) as (st' & E' & Hrun).
    + unfold r_index, r_left. now apply NoDup_map_filter.
    + unfold n_index, nodes_left. now apply NoDup_map_filter.
    + rewrite <- firstn_map. apply NoDup_firstn, groupby_idxmin_fst_NoDup.
    + rewrite <- firstn_map.
      apply NoDup_firstn, groupby_idxmin_snd_NoDup, nominations_length.
    + exact Hb.
    + intros i j Hin. apply In_firstn in Hin.
      apply node_pairs_rows; [now rewrite Er | exact Hin].
    + rewrite E' in E. injection E as <-. eauto.
Qed.

Section Invariant.
Variable P : tables -> Prop.
Hypothesis P_base : forall st, P st -> base st.
Hypothesis P_step : forall st r n,
  P st -> In r (r_nodes st) -> In n (nodes st) ->
  0 < res_r_cap r -> 0 < r_cap n -> P (drawn st r n).

Lemma pass_inv (st st' : tables) : P st -> pass st = Ok st' -> P st'.
Proof.
  intros HP E. apply (run_draws_inv P P_step st (pass_labels st) st'); auto.
  apply pass_ok_run; auto.
Qed.

Lemma after_passes_inv (m : nat) (st0 st : tables) :
  P st0 -> after_passes m st0 = Some st -> P st.
Proof.
  revert st0. induction m as [|m IH]; intros st0 HP E; simpl in E.
  - now injection E as <-.
  - destruct (pass st0) as [st1|] eqn:E1; [|discriminate].
    destruct (all_filled st1); [discriminate|].
    apply (IH st1); [|exact E]. now apply (pass_inv st0).
Qed.

Lemma visits_inv (st0 s : tables) : P st0 -> visits st0 s -> P s.
Proof.
  intros HP (m & k & st & Em & Ek).
  pose proof (after_passes_inv m st0 st HP Em) as HPst.
  destruct (inside_pass_run st s k (P_base st HPst) Ek) as [l Hrun].
  now apply (run_draws_inv P P_step st l s).
Qed.

Lemma while_true_inv (fuel : nat) (st st' : tables) :
  P st -> while_true fuel st = Some (Ok st') -> P st' /\ nodes_left st' = [].
Proof.
  revert st. induction fuel as [|fuel IH]; intros st HP E; simpl in E;
    [discriminate|].
  destruct (pass st) as [st1|] eqn:E1; [|discriminate].
  pose proof (pass_inv st st1 HP E1) as HP1.
  destruct (all_filled st1) eqn:F.
  - injection E as <-. split; [exact HP1|].
    unfold all_filled in F. apply Nat.eqb_eq in F.
    now apply length_zero_iff_nil.
  - now apply (IH st1).
Qed.
End Invariant.

(** The tables at the [break] are visited. *)
Lemma while_true_visits (fuel : nat) (st0 st' : tables) :
  while_true fuel st0 = Some (Ok st') -> visits st0 st'.
Proof.
  revert st0. induction fuel as [|fuel IH]; intros st0 E; simpl in E;
    [discriminate|].
  destruct (pass st0) as [st1|] eqn:E1; [|discriminate].
  destruct (all_filled st1) eqn:F.
  - injection E as <-. exists 0%nat, (length (node_pairs st0)), st0.
    split; [reflexivity | now rewrite inside_pass_all].
  - destruct (IH st1 E) as (m & k & st & Em & Ek).
    exists (S m), k, st. split; [|exact Ek]. simpl. now rewrite E1, F.
Qed.

Lemma while_true_mono (fuel fuel' : nat) (st : tables) (x : result tables) :
  while_true fuel st = Some x -> (fuel <= fuel')%nat ->
  while_true fuel' st = Some x.
Proof.
  revert fuel' st. induction fuel as [|fuel IH]; intros fuel' st E Hle;
    simpl in E; [discriminate|].
  destruct fuel' as [|fuel']; [lia|]. simpl.
  destruct (pass st) as [st1|]; [|exact E].
  destruct (all_filled st1); [exact E|]. apply IH; [exact E | lia].
Qed.

Lemma all_filled_false (st : tables) :
  all_filled st = false <-> nodes_left st <> [].
Proof.
  unfold all_filled. rewrite Nat.eqb_neq, length_zero_iff_nil. tauto.
Qed.

Lemma pass_progress (st st' : tables) :
  base st -> nodes_left st <> [] -> pass st = Ok st' ->
  (measure st' + 1 <= measure st)%nat.
Proof.
  intros Hb Hn E. pose proof (pass_ok_run st st' Hb E) as Hrun.
  pose proof (run_draws_measure _ _ _ Hrun Hb) as (_ & _ & H).
  unfold pass_labels, label_pairs in H. rewrite length_map in H.
  pose proof (node_pairs_nonempty st Hn).
  destruct (node_pairs st); [easy | simpl in H; lia].
Qed.

(** ** The loaded tables *)

Lemma fill_nodes_spec (idx : list label) (vals : list (list Q)) (ns : list node) :
  fill_nodes idx vals = Ok ns ->
  map node_name ns = idx /\
  Forall (fun n => site_id n = None /\ site_fracs n = None) ns.
Proof.
  revert vals ns. induction idx as [|i idx IH]; intros vals ns E.
  - destruct vals; simpl in E; [|discriminate]. injection E as <-.
    split; [reflexivity | constructor].
  - destruct vals as [|row vals]; simpl in E; [discriminate|].
    destruct row as [|la [|lo [|c [|? ?]]]]; try discriminate;
      (destruct (fill_nodes idx vals) as [rest|] eqn:Er; simpl in E;
       [|discriminate]);
      injection E as <-; destruct (IH vals rest Er) as [Hn Hf];
      (split; [simpl; now f_equal | constructor; auto]).
Qed.

Lemma assign_r_cap_spec (ns : list node) (col : list Q) :
  map node_name (assign_r_cap ns col) = map node_name ns /\
  (Forall (fun n => site_id n = None /\ site_fracs n = None) ns ->
   Forall (fun n => site_id n = None /\ site_fracs n = None) (assign_r_cap ns col)).
Proof.
  revert col. induction ns as [|n ns IH]; intros [|c col]; simpl;
    try (split; [reflexivity | auto]).
  destruct (IH col) as [Hn Hf]. split; [now f_equal|].
  intro H. inversion H; subst. constructor; auto.
Qed.

Lemma zip_resources_spec (idx : list label) (lon lat cap : list Q) :
  Forall (fun r => res_r_cap r = res_capacity r) (zip_resources idx lon lat cap) /\
  (NoDup idx -> NoDup (map res_name (zip_resources idx lon lat cap))) /\
  incl (map res_name (zip_resources idx lon lat cap)) idx.
Proof.
  revert lon lat cap. induction idx as [|i idx IH];
    intros [|lo lon] [|la lat] [|c cap]; simpl;
    try (split; [constructor | split; [constructor | easy]]).
  destruct (IH lon lat cap) as (Hf & Hn & Hi). split; [|split].
  - constructor; auto.
  - intro H. inversion H; subst. constructor; auto.
  - intros x [<- | Hx]; [now left | right; auto].
Qed.

Lemma loads_spec (nd rm : DataFrame) (st0 : tables) :
  loads nd rm st0 ->
  fresh st0 /\ base st0 /\ map node_name (nodes st0) = index nd.
Proof.
  intros (E & Hn & Hr). unfold load, load_nodes, load_resources in E.
  destruct (fill_nodes (index nd) (values nd)) as [ns|] eqn:En;
    simpl in E; [|discriminate].
  destruct (getitem nd "capacity (MW)") as [col|]; simpl in E; [|discriminate].
  destruct (getitem rm "longitude") as [lon|]; simpl in E; [|discriminate].
  destruct (getitem rm "latitude") as [lat|]; simpl in E; [|discriminate].
  destruct (getitem rm "capacity") as [cap|]; simpl in E; [|discriminate].
  injection E as <-.
  destruct (fill_nodes_spec _ _ _ En) as [Hnames Hnull].
  destruct (assign_r_cap_spec ns col) as [Hnames' Hnull'].
  destruct (zip_resources_spec (index rm) lon lat cap) as (Hf & Hnd & _).
  assert (Hnull2 := Hnull' Hnull).
  unfold fresh, base; cbn [r_nodes nodes].
  rewrite Hnames', Hnames. repeat split; auto.
  apply Forall_forall. intros n Hin. rewrite Forall_forall in Hnull2.
  destruct (Hnull2 n Hin) as [H1 H2]. unfold aligned. now rewrite H1, H2.
Qed.

Lemma fresh_assignments (st : tables) (n : node) :
  fresh st -> In n (nodes st) -> node_assignments n = [] /\ ids n = [].
Proof.
  intros [Hf _] Hin. rewrite Forall_forall in Hf. destruct (Hf n Hin) as [H1 H2].
  unfold node_assignments, assignments, ids. now rewrite H1, H2.
Qed.

Lemma fresh_available (st : tables) : fresh st -> available st = total_capacity st.
Proof.
  intros [_ Hf]. unfold available, total_capacity. f_equal.
  apply map_ext_in. intros r Hin. rewrite Forall_forall in Hf. now apply Hf.
Qed.

Lemma fresh_nonneg_res (st : tables) :
  fresh st -> Forall (fun r => 0 <= res_capacity r) (r_nodes st) -> nonneg_res st.
Proof.
  intros [_ Hf] Hc. unfold nonneg_res. apply Forall_forall. intros r Hin.
  rewrite Forall_forall in Hf, Hc. rewrite (Hf r Hin).
  specialize (Hc r Hin). lra.
Qed.

Lemma fresh_tracks (st0 : tables) :
  fresh st0 -> base st0 ->
  Forall (fun r => 0 <= res_capacity r) (r_nodes st0) -> tracks st0 st0.
Proof.
  intros Hf Hb Hc. pose proof Hb as (Hr & Hn & _).
  split; [exact Hb|]. split; [now apply fresh_nonneg_res|].
  split; [reflexivity|]. split; [reflexivity|]. split.
  - apply Forall_forall. intros n Hin.
    destruct (fresh_assignments st0 n Hf Hin) as [-> _].
    rewrite (demand_of_In _ _ Hn Hin). unfold delivered. simpl. ring.
  - apply Forall_forall. intros r Hin.
    assert (E : used (res_name r) (res_capacity r)
                  (map node_assignments (nodes st0)) == 0).
    { rewrite used_map.
      assert (H : forall l, (forall n, In n l -> node_assignments n = []) ->
                Qsum (map (fun m => taken (res_name r) (node_assignments m)
                                    * res_capacity r) l) == 0).
      { induction l as [|n l IH]; intro H; simpl; [reflexivity|].
        rewrite (H n (or_introl eq_refl)), IH by (intros; apply H; now right).
        unfold taken. simpl. ring. }
      apply H. intros n Hn'. now apply (fresh_assignments st0 n Hf). }
    destruct Hf as [_ Hf]. rewrite Forall_forall in Hf.
    rewrite E, (Hf r Hin). ring.
Qed.

Lemma fresh_distinct (st0 : tables) : fresh st0 -> distinct st0.
Proof.
  intro Hf. apply Forall_forall. intros n Hin.
  destruct (fresh_assignments st0 n Hf Hin) as [_ ->].
  split; [constructor | intros _ r _ []].
Qed.

Lemma positive_balanced (st0 : tables) :
  fresh st0 -> base st0 -> positive st0 ->
  balanced (unmet st0 - available st0) st0.
Proof.
  intros Hf Hb [Hn Hr]. split; [exact Hb|]. split; [|reflexivity]. split.
  - apply fresh_nonneg_res; [exact Hf|].
    apply Forall_forall. intros r Hin. rewrite Forall_forall in Hr.
    specialize (Hr r Hin). lra.
  - apply Forall_forall. intros n Hin. rewrite Forall_forall in Hn.
    specialize (Hn n Hin). lra.
Qed.

Lemma measure_le (st : tables) :
  (measure st <= length (r_nodes st) + length (nodes st))%nat.
Proof.
  unfold measure, r_left, nodes_left.
  pose proof (filter_length_le (fun r => Qgtb (res_r_cap r) 0) (r_nodes st)).
  pose proof (filter_length_le (fun n => Qgtb (r_cap n) 0) (nodes st)). lia.
Qed.

(** ** Runs of [nearest_power_nodes] *)

Lemma allocate_loads (fuel : nat) (nd rm : DataFrame) (st0 : tables) :
  loads nd rm st0 -> allocate fuel nd rm = while_true fuel st0.
Proof. intros (E & _). unfold allocate. now rewrite E. Qed.

Lemma nearest_power_nodes_ok (fuel : nat) (nd rm : DataFrame) (tbl : power_table) :
  nearest_power_nodes fuel nd rm = Some (Ok tbl) ->
  exists st, allocate fuel nd rm = Some (Ok st) /\ tbl = select_columns st.
Proof.
  unfold nearest_power_nodes.
  destruct (allocate fuel nd rm) as [[st|e]|]; try discriminate.
  intro H. injection H as <-. eauto.
Qed.

Lemma select_columns_assignments (st : tables) :
  map row_assignments (out_rows (select_columns st))
  = map node_assignments (nodes st).
Proof. unfold select_columns; simpl. rewrite map_map. reflexivity. Qed.

(** C10: in the table returned by [nearest_power_nodes], the [site_id] list
    of every node holds pairwise distinct resource identifiers: a node draws
    from a given resource at most once over all passes. *)
Theorem C10_site_ids_distinct (nd rm : DataFrame) (st0 : tables) (fuel : nat)
  (tbl : power_table) :
  loads nd rm st0 ->
  nearest_power_nodes fuel nd rm = Some (Ok tbl) ->
  Forall (fun row => NoDup (cells (out_site_id row))) (out_rows tbl).
Proof.
  intros Hl E. destruct (nearest_power_nodes_ok _ _ _ _ E) as (st & Ea & ->).
  rewrite (allocate_loads fuel nd rm st0 Hl) in Ea.
  destruct (loads_spec nd rm st0 Hl) as (Hf & Hb & _).
  destruct (while_true_inv (fun s => base s /\ distinct s)
              ltac:(intros s H; exact (proj1 H))
              ltac:(intros s r n [H1 H2] ? ? ? ?; split;
                    [now apply drawn_base | now apply drawn_distinct])
              fuel st0 st (conj Hb (fresh_distinct st0 Hf)) Ea)
    as [[_ Hd] _].
  unfold select_columns; cbn [out_rows]. apply Forall_forall.
  intros row Hrow. apply in_map_iff in Hrow. destruct Hrow as [n [<- Hin]].
  cbn [out_site_id]. unfold distinct in Hd. rewrite Forall_forall in Hd.
  exact (proj1 (Hd n Hin)).
Qed.

Lemma tracks_conserved (st0 s : tables) (k : label) (c : Q) :
  tracks st0 s -> In (k, c) (sites (r_nodes st0)) ->
  used k c (map node_assignments (nodes s)) <= c.
Proof.
  intros (_ & Hnn & Hs & _ & _ & Hres) Hin. rewrite <- Hs in Hin.
  unfold sites in Hin. apply in_map_iff in Hin. destruct Hin as [r [E Hr]].
  injection E as <- <-. unfold nonneg_res in Hnn.
  rewrite Forall_forall in Hnn, Hres.
  specialize (Hnn r Hr). specialize (Hres r Hr). lra.
Qed.

Lemma while_true_after (m fuel : nat) (st0 s : tables) :
  after_passes m st0 = Some s ->
  while_true (m + fuel) st0 = while_true fuel s.
Proof.
  revert st0. induction m as [|m IH]; intros st0 E; simpl in E.
  - now injection E as <-.
  - cbn [Nat.add while_true]. destruct (pass st0) as [st1|]; [|discriminate].
    destruct (all_filled st1); [discriminate|]. now apply IH.
Qed.

Lemma nearest_power_nodes_raise (fuel : nat) (nd rm : DataFrame) (st0 : tables)
  (e : exn) :
  loads nd rm st0 -> while_true fuel st0 = Some (Raise e) ->
  nearest_power_nodes fuel nd rm = Some (Raise e).
Proof.
  intros Hl E. unfold nearest_power_nodes.
  now rewrite (allocate_loads fuel nd rm st0 Hl), E.
Qed.

(** C1 (as the code has it): when, after any number of passes, no resource
    has capacity left while a node is still unmet, the call ends in the
    [IndexError] of [r_index[i]] on the empty index, and returns no table.
    The error names no node. *)
Theorem C1_exhaustion_raises_IndexError (nd rm : DataFrame) (st0 s : tables)
  (m fuel : nat) :
  loads nd rm st0 ->
  after_passes m st0 = Some s -> r_left s = [] -> nodes_left s <> [] ->
  nearest_power_nodes (m + S fuel) nd rm = Some (Raise IndexError).
Proof.
  intros Hl Em Er Hn. apply (nearest_power_nodes_raise _ _ _ st0 _ Hl).
  rewrite (while_true_after m (S fuel) st0 s Em). cbn [while_true].
  now rewrite (pass_starved s Er Hn).
Qed.

(** ** Apportionment and conflict resolution *)


Lemma Qgtb_cases (x y : Q) : (Qgtb x y = true /\ y < x) \/ (Qgtb x y = false /\ x <= y).
Proof.
  destruct (Qgtb x y) eqn:E; [left | right]; split; auto.
  - now apply Qgtb_true. - now apply Qgtb_false.
Qed.


Lemma run_draws_untouched_node (st st' : tables) (l : list (label * label))
  (n : node) :
  run_draws st l st' -> In n (nodes st) ->
  ~ In (node_name n) (map snd l) -> In n (nodes st').
Proof.
  induction 1 as [st | st r0 n0 rest st' _ _ _ _ _ IH]; intros Hin Hnot;
    [exact Hin|].
  simpl in Hnot. apply IH; [|tauto].
  unfold drawn; cbn [nodes]. apply In_loc_set_other; [exact Hin|]. intuition.
Qed.

Lemma run_draws_untouched_res (st st' : tables) (l : list (label * label))
  (r : resource) :
  run_draws st l st' -> In r (r_nodes st) ->
  ~ In (res_name r) (map fst l) -> In r (r_nodes st').
Proof.
  induction 1 as [st | st r0 n0 rest st' _ _ _ _ _ IH]; intros Hin Hnot;
    [exact Hin|].
  simpl in Hnot. apply IH; [|tauto].
  unfold drawn; cbn [r_nodes]. apply In_loc_set_other; [exact Hin|]. intuition.
Qed.

(** A pair of the sequence whose rows are served once ends with the rows
    that one application writes. *)
Lemma run_draws_served (st st' : tables) (l : list (label * label)) :
  run_draws st l st' -> base st ->
  NoDup (map fst l) -> NoDup (map snd l) ->
  forall r n, In r (r_nodes st) -> In n (nodes st) ->
    In (res_name r, node_name n) l ->
    In (res_after r n) (r_nodes st') /\ In (node_after r n) (nodes st').
Proof.
  induction 1 as [st | st r0 n0 rest st' Hr0 Hn0 _ _ Hrun IH];
    intros Hb Hf Hs r n Hinr Hinn Hin; [easy|].
  simpl in Hf, Hs. inversion Hf as [|? ? Hfr Hf']; subst.
  inversion Hs as [|? ? Hsn Hs']; subst.
  pose proof Hb as (Hndr & Hndn & _).
  destruct Hin as [E | Hin].
  - injection E as Er En.
    pose proof (same_key_eq res_name _ _ _ Hndr Hr0 Hinr Er); subst r0.
    pose proof (same_key_eq node_name _ _ _ Hndn Hn0 Hinn En); subst n0.
    split.
    + apply (run_draws_untouched_res _ _ _ _ Hrun).
      * unfold drawn; cbn [r_nodes]. now apply (In_loc_set_same res_name _ _ _ r).
      * now rewrite res_after_name.
    + apply (run_draws_untouched_node _ _ _ _ Hrun).
      * unfold drawn; cbn [nodes]. now apply (In_loc_set_same node_name _ _ _ n).
      * now rewrite node_after_name.
  - apply IH; auto using drawn_base.
    + unfold drawn; cbn [r_nodes]. apply In_loc_set_other; [exact Hinr|].
      intro E. apply Hfr. rewrite <- E.
      change (res_name r) with (fst (res_name r, node_name n)). now apply in_map.
    + unfold drawn; cbn [nodes]. apply In_loc_set_other; [exact Hinn|].
      intro E. apply Hsn. rewrite <- E.
      change (node_name n) with (snd (res_name r, node_name n)). now apply in_map.
Qed.

Lemma pass_labels_NoDup (st : tables) :
  NoDup (map fst (node_pairs st)) /\ NoDup (map snd (node_pairs st)).
Proof.
  split; [apply groupby_idxmin_fst_NoDup|].
  apply groupby_idxmin_snd_NoDup, nominations_length.
Qed.

Lemma NoDup_map_inj_on {A B : Type} (f : A -> B) (l : list A) :
  NoDup l -> (forall x y, In x l -> In y l -> f x = f y -> x = y) ->
  NoDup (map f l).
Proof.
  induction l as [|a l IH]; simpl; intros Hnd Hinj; [constructor|].
  inversion Hnd as [|? ? Ha Hl]; subst. constructor.
  - rewrite in_map_iff. intros [x [Hx Hin]].
    apply Ha. rewrite <- (Hinj x a); auto.
  - apply IH; auto.
Qed.

Lemma node_pairs_least (st : tables) (p w j : nat) :
  In (p, w) (node_pairs st) ->
  nth_error (snd (nominations st)) j = Some p ->
  dist_ltb (nth j (fst (nominations st)) Inf)
           (nth w (fst (nominations st)) Inf) = false.
Proof.
  intros Hin Hj. unfold node_pairs in Hin.
  pose proof (nominations_length st) as Hlen.
  apply In_groupby_idxmin in Hin. destruct Hin as [_ [e E]].
  pose proof (idxmin_In _ _ _ E) as Hw.
  apply In_group, (In_pairs_frame _ _ _ _ _ Hlen) in Hw. destruct Hw as [_ Hw].
  assert (Hd : exists d, nth_error (fst (nominations st)) j = Some d).
  { destruct (nth_error (fst (nominations st)) j) as [d|] eqn:Ed; [eauto|].
    apply nth_error_None in Ed.
    assert (nth_error (snd (nominations st)) j <> None) as H%nth_error_Some
      by congruence. lia. }
  destruct Hd as [d Hd].
  rewrite (nth_error_nth _ _ Inf Hd), (nth_error_nth _ _ Inf Hw).
  apply (idxmin_least _ _ _ E j). apply In_group, In_pairs_frame; auto.
Qed.

Lemma NoDup_fst_unique {A B : Type} (l : list (A * B)) (a : A) (b b' : B) :
  NoDup (map fst l) -> In (a, b) l -> In (a, b') l -> b = b'.
Proof.
  induction l as [|[x y] l IH]; simpl; intros Hnd H1 H2; [easy|].
  inversion Hnd as [|? ? Hx Hl]; subst.
  destruct H1 as [E1 | H1], H2 as [E2 | H2].
  - congruence.
  - injection E1 as -> ->. exfalso. apply Hx.
    change a with (fst (a, b')). now apply in_map.
  - injection E2 as -> ->. exfalso. apply Hx.
    change a with (fst (a, b)). now apply in_map.
  - now apply IH.
Qed.

(** C3: in a pass, every nominated resource has exactly one winner among
    the nodes that nominated it; the winner is at the least distance of its
    group and is served from that resource; every other unmet node keeps
    its row unchanged, is still unmet after the pass, and keeps the loop
    going. *)
Theorem C3_conflict_resolution (st st' : tables) :
  base st -> pass st = Ok st' ->
  (forall j p, nth_error (snd (nominations st)) j = Some p ->
     exists w, In (p, w) (node_pairs st) /\
               forall w', In (p, w') (node_pairs st) -> w' = w) /\
  (forall p w, In (p, w) (node_pairs st) ->
     nth_error (snd (nominations st)) w = Some p /\
     (forall j, nth_error (snd (nominations st)) j = Some p ->
        dist_ltb (nth j (fst (nominations st)) Inf)
                 (nth w (fst (nominations st)) Inf) = false) /\
     exists r n, nth_error (r_left st) p = Some r /\
                 nth_error (nodes_left st) w = Some n /\
                 In (res_after r n) (r_nodes st') /\
                 In (node_after r n) (nodes st')) /\
  (forall j n, nth_error (nodes_left st) j = Some n ->
     (forall p, ~ In (p, j) (node_pairs st)) ->
     In n (nodes st') /\ In n (nodes_left st') /\ all_filled st' = false).
Proof.
  intros Hb E. pose proof (pass_ok_run st st' Hb E) as Hrun.
  pose proof (pass_labels_NoDup st) as [Hf Hs].
  pose proof Hb as (Hndr & Hndn & _).
  assert (Hri : NoDup (r_index st))
    by (unfold r_index, r_left; now apply NoDup_map_filter).
  assert (Hni : NoDup (n_index st))
    by (unfold n_index, nodes_left; now apply NoDup_map_filter).
  assert (Hne : node_pairs st <> [] -> r_left st <> []).
  { intros Hp Er. destruct (nodes_left st) as [|n0 nl] eqn:En.
    - apply Hp. unfold node_pairs, nominations. now rewrite En.
    - rewrite pass_starved in E; [discriminate | exact Er | now rewrite En]. }
  assert (Hrows : forall p w, In (p, w) (node_pairs st) ->
            exists r n, nth_error (r_left st) p = Some r /\
                        nth_error (nodes_left st) w = Some n /\
                        nth_error (snd (nominations st)) w = Some p).
  { intros p w Hin. apply node_pairs_sound; [|exact Hin].
    apply Hne. intro H0. now rewrite H0 in Hin. }
  assert (Hlf : NoDup (map fst (pass_labels st))).
  { unfold pass_labels, label_pairs. rewrite map_map. cbn [fst].
    rewrite <- (map_map fst (fun i => nth i (r_index st) 0%Z)).
    apply NoDup_map_inj_on; [exact Hf|]. intros x y Hx Hy Hxy.
    apply in_map_iff in Hx, Hy.
    destruct Hx as [[p w] [<- Hx]], Hy as [[q v] [<- Hy]]. cbn [fst] in *.
    destruct (Hrows p w Hx) as (r & _ & Er & _).
    destruct (Hrows q v Hy) as (r' & _ & Er' & _).
    assert (E1 : nth_error (r_index st) p = Some (res_name r))
      by (unfold r_index; now rewrite nth_error_map, Er).
    assert (E2 : nth_error (r_index st) q = Some (res_name r'))
      by (unfold r_index; now rewrite nth_error_map, Er').
    rewrite (nth_error_nth _ _ 0%Z E1), (nth_error_nth _ _ 0%Z E2) in Hxy.
    rewrite Hxy in E1. exact (nth_error_inj _ _ _ _ Hri E1 E2). }
  assert (Hls : NoDup (map snd (pass_labels st))).
  { unfold pass_labels, label_pairs. rewrite map_map. cbn [snd].
    rewrite <- (map_map snd (fun i => nth i (n_index st) 0%Z)).
    apply NoDup_map_inj_on; [exact Hs|]. intros x y Hx Hy Hxy.
    apply in_map_iff in Hx, Hy.
    destruct Hx as [[p w] [<- Hx]], Hy as [[q v] [<- Hy]]. cbn [snd] in *.
    destruct (Hrows p w Hx) as (_ & n & _ & En & _).
    destruct (Hrows q v Hy) as (_ & n' & _ & En' & _).
    assert (E1 : nth_error (n_index st) w = Some (node_name n))
      by (unfold n_index; now rewrite nth_error_map, En).
    assert (E2 : nth_error (n_index st) v = Some (node_name n'))
      by (unfold n_index; now rewrite nth_error_map, En').
    rewrite (nth_error_nth _ _ 0%Z E1), (nth_error_nth _ _ 0%Z E2) in Hxy.
    rewrite Hxy in E1. exact (nth_error_inj _ _ _ _ Hni E1 E2). }
  split; [|split].
  - intros j p Hj.
    destruct (groupby_idxmin_covers _ (fst (nominations st)) j p
                (nominations_length st) Hj) as [w Hw].
    exists w. split; [exact Hw|]. intros w' Hw'.
    exact (NoDup_fst_unique _ _ _ _ Hf Hw' Hw).
  - intros p w Hin. destruct (Hrows p w Hin) as (r & n & Er & En & Hp).
    split; [exact Hp|]. split; [intros j Hj; now apply (node_pairs_least st p)|].
    exists r, n. split; [exact Er|]. split; [exact En|].
    pose proof (nth_error_In _ _ Er) as Hinr. apply r_left_In in Hinr.
    pose proof (nth_error_In _ _ En) as Hinn. apply nodes_left_In in Hinn.
    apply (run_draws_served _ _ _ Hrun Hb Hlf Hls); try tauto.
    unfold pass_labels, label_pairs. apply in_map_iff. exists (p, w).
    split; [|exact Hin]. cbn [fst snd]. unfold r_index, n_index. f_equal.
    + apply nth_error_nth. now rewrite nth_error_map, Er.
    + apply nth_error_nth. now rewrite nth_error_map, En.
  - intros j n En Hlose.
    pose proof (nth_error_In _ _ En) as Hinn. apply nodes_left_In in Hinn.
    destruct Hinn as [Hinn Hpos].
    assert (Hin' : In n (nodes st')).
    { apply (run_draws_untouched_node _ _ _ _ Hrun Hinn).
      unfold pass_labels, label_pairs. rewrite map_map. cbn [snd].
      rewrite in_map_iff. intros [[p w] [Hw Hin]]. cbn [snd] in Hw.
      destruct (Hrows p w Hin) as (_ & n' & _ & En' & _).
      assert (E1 : nth_error (n_index st) w = Some (node_name n'))
        by (unfold n_index; now rewrite nth_error_map, En').
      assert (E2 : nth_error (n_index st) j = Some (node_name n))
        by (unfold n_index; now rewrite nth_error_map, En).
      rewrite (nth_error_nth _ _ 0%Z E1) in Hw. rewrite Hw in E1.
      pose proof (nth_error_inj _ _ _ _ Hni E1 E2); subst w.
      exact (Hlose p Hin). }
    assert (Hleft : In n (nodes_left st')) by (apply nodes_left_In; tauto).
    split; [exact Hin'|]. split; [exact Hleft|].
    apply all_filled_false. intro H0. now rewrite H0 in Hleft.
Qed.

(** ** [nearest_met_nodes] *)

Lemma nearest_keeps (x : point) (data : list point) (i : nat)
  (best : distance * nat) :
  (forall q, In q data -> dist_ltb (Finite (dist2 x q)) (fst best) = false) ->
  nearest x data i best = best.
Proof.
  revert i. induction data as [|q ps IH]; intros i H; cbn [nearest];
    [reflexivity|].
  rewrite (H q (or_introl eq_refl)). apply IH. intros; apply H; now right.
Qed.

Lemma nearest_finds (x : point) (data : list point) (i j : nat)
  (best : distance * nat) (p : point) :
  nth_error data j = Some p ->
  (forall k q, nth_error data k = Some q -> k <> j -> dist2 x p < dist2 x q) ->
  dist_ltb (Finite (dist2 x p)) (fst best) = true ->
  nearest x data i best = (Finite (dist2 x p), (i + j)%nat).
Proof.
  revert i j best. induction data as [|q ps IH]; intros i j best Hj Hmin Hb.
  - now destruct j.
  - cbn [nearest]. destruct j as [|j]; simpl in Hj.
    + injection Hj as ->. rewrite Hb. rewrite Nat.add_0_r.
      apply nearest_keeps. intros q Hq. cbn [fst dist_ltb].
      apply Qgtb_false. destruct (In_nth_error _ _ Hq) as [k Hk].
      specialize (Hmin (S k) q Hk ltac:(lia)). lra.
    + rewrite (IH (S i) j); [f_equal; lia | exact Hj | |].
      * intros k q' Hk Hne. apply (Hmin (S k) q' Hk). lia.
      * destruct (dist_ltb (Finite (dist2 x q)) (fst best)); [|exact Hb].
        cbn [fst dist_ltb]. apply Qgtb_true.
        apply (Hmin 0%nat q eq_refl). lia.
Qed.

(** A data point strictly nearer than all others is the one reported. *)
Lemma query1_strict (tree : list point) (x p : point) (j : nat) :
  nth_error tree j = Some p ->
  (forall k q, nth_error tree k = Some q -> k <> j -> dist2 x p < dist2 x q) ->
  query1 tree x = (Finite (dist2 x p), j).
Proof.
  intros Hj Hmin. unfold query1.
  now rewrite (nearest_finds x tree 0 j (Inf, length tree) p Hj Hmin eq_refl).
Qed.

Lemma In_combine_map {A B : Type} (g : A -> B) (l : list A) (a : A) (b : B) :
  In (a, b) (combine l (map g l)) -> In a l /\ b = g a.
Proof.
  induction l as [|y l IH]; simpl; [easy|].
  intros [H | H]; [injection H as -> ->; auto | destruct (IH H); auto].
Qed.

(** What [nearest_met_nodes] writes in [site_id]: the position, in the
    resource table, of the strictly nearest site. *)
Lemma nearest_met_nodes_position (nd rm : DataFrame) (tbl : met_table)
  (lat_lon : list point) (row : met_row) (j : nat) (p : point) :
  nearest_met_nodes nd rm = Ok tbl ->
  as_matrix rm = Ok lat_lon ->
  In row (met_rows tbl) ->
  nth_error lat_lon j = Some p ->
  (forall k q, nth_error lat_lon k = Some q -> k <> j ->
     dist2 (met_latitude row, met_longitude row) p
     < dist2 (met_latitude row, met_longitude row) q) ->
  met_site_id row = Z.of_nat j.
Proof.
  intros E Em Hrow Hj Hmin. unfold nearest_met_nodes in E.
  destruct (fill_met_nodes _ _) as [ns|]; simpl in E; [|discriminate].
  rewrite Em in E. simpl in E. injection E as <-. cbn [met_rows] in Hrow.
  apply in_map_iff in Hrow. destruct Hrow as [[[i [la lo]] k] [<- Hin]].
  rewrite map_map in Hin. apply In_combine_map in Hin. destruct Hin as [_ ->].
  cbn [met_site_id met_latitude met_longitude fst snd] in *.
  unfold cKDTree. now rewrite (query1_strict lat_lon (la, lo) p j Hj Hmin).
Qed.

Lemma get_loc_In (name : string) (cols : list string) :
  In name cols -> exists j, get_loc name cols = Some j.
Proof.
  induction cols as [|c cs IH]; simpl; [easy|].
  intros [-> | H].
  - rewrite String.eqb_refl. eauto.
  - destruct (String.eqb c name); [eauto|].
    destruct (IH H) as [j ->]. simpl. eauto.
Qed.

(** C9 (as the code has it): on a resource table with no site,
    [nearest_met_nodes] raises nothing: it returns the table of the nodes
    with [site_id] 0, the position the empty index reports for a missing
    neighbour, in every row. *)
Theorem C9_empty_resources_return (nd rm : DataFrame) (ns : list (label * point)) :
  fill_met_nodes (index nd) (values nd) = Ok ns ->
  In "latitude"%string (columns rm) -> In "longitude"%string (columns rm) ->
  values rm = [] ->
  nearest_met_nodes nd rm
  = Ok (mkMetTable ["latitude"; "longitude"; "site_id"]%string (unmatched_rows ns)).
Proof.
  intros En Hla Hlo Hv. unfold nearest_met_nodes, as_matrix, getitem.
  rewrite En. destruct (get_loc_In _ _ Hla) as [a ->].
  destruct (get_loc_In _ _ Hlo) as [b ->]. rewrite Hv. cbn [bind map combine].
  do 2 f_equal. unfold unmatched_rows, cKDTree, query. cbn [snd].
  rewrite map_map. clear En. induction ns as [|[i [la lo]] ns IH];
    [reflexivity|]. cbn [map combine fst snd]. now rewrite IH.
Qed.

(** ** Concrete runs *)

Lemma nearest_power_nodes_mono (fuel fuel' : nat) (nd rm : DataFrame)
  (x : result power_table) :
  nearest_power_nodes fuel nd rm = Some x -> (fuel <= fuel')%nat ->
  nearest_power_nodes fuel' nd rm = Some x.
Proof.
  unfold nearest_power_nodes, allocate. intros E Hle.
  destruct (load nd rm) as [st|e]; [|exact E].
  destruct (while_true fuel st) as [r|] eqn:W; [|discriminate].
  now rewrite (while_true_mono fuel fuel' st r W Hle).
Qed.

(** Closes [NoDup] and [Forall] goals over the rows of a concrete table. *)
Ltac by_rows :=
  repeat (constructor; [first [exact I | simpl; lia | simpl; lra] |]); constructor.

(** C1, witness: the scenario with the single site.  After two passes the
    site is exhausted and node 2 is still unmet; the third pass raises. *)
Lemma C1_witness :
  after_passes 2 short_loaded = Some short_exhausted /\
  r_left short_exhausted = [] /\
  nodes_left short_exhausted <> [] /\
  nearest_power_nodes (2 + 1) example_nodes short_resources
  = Some (Raise IndexError).
Proof.
  split; [reflexivity|]. split; [reflexivity|]. split; [discriminate|].
  apply (C1_exhaustion_raises_IndexError example_nodes short_resources
           short_loaded short_exhausted 2 0).
  - split; [reflexivity | split; by_rows].
  - reflexivity.
  - reflexivity.
  - discriminate.
Defined.

(** C1, counterexample: capacity 10 against demand 12.  The call ends in
    [IndexError], and with no amount of passes in [CapacityExhaustedError]. *)
Lemma C1_counterexample :
  total_capacity short_loaded < unmet short_loaded /\
  nearest_power_nodes 3 example_nodes short_resources = Some (Raise IndexError) /\
  (forall fuel unmet0,
     nearest_power_nodes fuel example_nodes short_resources
     <> Some (Raise (CapacityExhaustedError unmet0))).
Proof.
  split; [reflexivity|]. split; [reflexivity|].
  intros fuel unmet0 H.
  assert (E3 : nearest_power_nodes 3 example_nodes short_resources
               = Some (Raise IndexError)) by reflexivity.
  apply (nearest_power_nodes_mono _ (Nat.max fuel 3)) in H; [|lia].
  apply (nearest_power_nodes_mono _ (Nat.max fuel 3)) in E3; [|lia].
  rewrite H in E3. discriminate.
Qed.


(** C3, witness: the first pass of the scenario, where both nodes nominate
    site 101. *)
Lemma C3_witness :
  (forall j p, nth_error (snd (nominations example_loaded)) j = Some p ->
     exists w, In (p, w) (node_pairs example_loaded) /\
               forall w', In (p, w') (node_pairs example_loaded) -> w' = w) /\
  (forall p w, In (p, w) (node_pairs example_loaded) ->
     nth_error (snd (nominations example_loaded)) w = Some p /\
     (forall j, nth_error (snd (nominations example_loaded)) j = Some p ->
        dist_ltb (nth j (fst (nominations example_loaded)) Inf)
                 (nth w (fst (nominations example_loaded)) Inf) = false) /\
     exists r n, nth_error (r_left example_loaded) p = Some r /\
                 nth_error (nodes_left example_loaded) w = Some n /\
                 In (res_after r n) (r_nodes example_after_pass) /\
                 In (node_after r n) (nodes example_after_pass)) /\
  (forall j n, nth_error (nodes_left example_loaded) j = Some n ->
     (forall p, ~ In (p, j) (node_pairs example_loaded)) ->
     In n (nodes example_after_pass) /\ In n (nodes_left example_after_pass) /\
     all_filled example_after_pass = false).
Proof.
  apply (C3_conflict_resolution example_loaded example_after_pass).
  - split; [|split]; by_rows.
  - reflexivity.
Defined.

(** C6, counterexample.  Two tables without rows meet the preconditions,
    and the loop takes one pass, not [0 + 0].  And in binary64 the demand of
    [2 ^ 53 + 4] against sites of capacity 1, 1 and [2 ^ 53 + 2] meets them
    too, yet the loop does not reach its [break]: it stops by the
    [IndexError] of [r_index[i]]. *)
Lemma C6_counterexample :
  load no_nodes no_resources = Ok (mkTables [] []) /\
  positive (mkTables [] []) /\
  unmet (mkTables [] []) <= total_capacity (mkTables [] []) /\
  nearest_power_nodes (0 + 0) no_nodes no_resources = None /\
  nearest_power_nodes 1 no_nodes no_resources
  = Some (Ok (select_columns (mkTables [] []))) /\
  load large_nodes large_resources = Ok large_loaded /\
  positive large_loaded /\
  unmet large_loaded <= total_capacity large_loaded /\
  Over.nearest_power_nodes binary64 query
    (length (r_nodes large_loaded) + length (nodes large_loaded))
    large_nodes large_resources
  = Some (Raise IndexError).
Proof.
  split; [reflexivity|]. split; [split; constructor|].
  split; [vm_compute; discriminate|]. split; [reflexivity|].
  split; [reflexivity|]. split; [reflexivity|].
  split; [split; by_rows|]. split; [vm_compute; discriminate|].
  vm_compute. reflexivity.
Qed.

(** C7, at two sites labelled 10 and 20: the node next to site 20 gets
    [site_id] 1, the position of that site, not its label. *)
Theorem C7_site_id_is_position :
  index met_resources = [10%Z; 20%Z] /\
  nearest_met_nodes met_nodes met_resources
  = Ok (mkMetTable ["latitude"; "longitude"; "site_id"]%string
          [mkMetRow 1 5 4 1]).
Proof. split; reflexivity. Qed.

(** The shape of a returned table: the five selected columns, one row per
    node in index order, and two list cells of one length per row. *)
Lemma power_table_shape (nd rm : DataFrame) (st0 : tables) (fuel : nat)
  (tbl : power_table) :
  loads nd rm st0 ->
  nearest_power_nodes fuel nd rm = Some (Ok tbl) ->
  out_columns tbl
  = ["latitude"; "longitude"; "capacity"; "site_id"; "site_fracs"]%string /\
  map out_name (out_rows tbl) = index nd /\
  Forall (fun row => length (cells (out_site_id row))
                     = length (cells (out_site_fracs row))) (out_rows tbl).
Proof.
  intros Hl E. destruct (nearest_power_nodes_ok _ _ _ _ E) as (st & Ea & ->).
  rewrite (allocate_loads fuel nd rm st0 Hl) in Ea.
  destruct (loads_spec nd rm st0 Hl) as (_ & Hb & Hidx).
  destruct (while_true_inv
              (fun s => base s /\ map node_name (nodes s) = map node_name (nodes st0))
              ltac:(intros s Hs; exact (proj1 Hs))
              ltac:(intros s r n [H1 H2] ? ? ? ?; split;
                    [now apply drawn_base |
                     unfold drawn; cbn [nodes];
                     rewrite loc_set_keys; auto using node_after_name])
              fuel st0 st (conj Hb eq_refl) Ea)
    as [[(_ & _ & Hal) Hnames] _].
  split; [reflexivity|]. unfold select_columns; cbn [out_rows]. split.
  - rewrite map_map, <- Hidx, <- Hnames. reflexivity.
  - apply Forall_forall. intros row Hrow. apply in_map_iff in Hrow.
    destruct Hrow as [n [<- Hin]]. cbn [out_site_id out_site_fracs].
    rewrite Forall_forall in Hal. now apply (aligned_length n), Hal.
Qed.

(** C8, at the header of the docstring: a request table whose demand column
    is named [capacity] is refused with a [KeyError] for [capacity (MW)]. *)
Theorem C8_capacity_column_KeyError (fuel : nat) :
  nearest_power_nodes fuel docstring_nodes example_resources
  = Some (Raise (KeyError (Column "capacity (MW)"))).
Proof. reflexivity. Qed.

(** C9, witness: one node, no site. *)
Lemma C9_witness :
  nearest_met_nodes met_nodes met_no_resources
  = Ok (mkMetTable ["latitude"; "longitude"; "site_id"]%string
          (unmatched_rows [(1%Z, (5, 4))])).
Proof.
  apply (C9_empty_resources_return met_nodes met_no_resources).
  - reflexivity.
  - simpl. auto.
  - simpl. auto.
  - reflexivity.
Defined.

(** C9, counterexample: one node, no site; the call returns a row with
    [site_id] 0. *)
Lemma C9_counterexample :
  nearest_met_nodes met_nodes met_no_resources
  = Ok (mkMetTable ["latitude"; "longitude"; "site_id"]%string
          [mkMetRow 1 5 4 0]) /\
  nearest_met_nodes met_nodes met_no_resources <> Raise EmptyIndexError.
Proof. split; [reflexivity | discriminate]. Qed.

(** C10, witness: the table returned for the scenario. *)
Lemma C10_witness :
  Forall (fun row => NoDup (cells (out_site_id row))) (out_rows example_result).
Proof.
  apply (C10_site_ids_distinct example_nodes example_resources example_loaded 4).
  - split; [reflexivity | split; by_rows].
  - reflexivity.
Defined.

(** * Further properties of [nearest_power_nodes] *)

(** ** The loop always stops *)

(** Whatever the capacities, the loop on tables with unique labels reaches
    its [break] or raises [IndexError] within [max 1 (measure st)] passes. *)
Lemma while_true_total (fuel : nat) (st : tables) :
  base st -> (1 <= fuel)%nat -> (measure st <= fuel)%nat ->
  (exists st', while_true fuel st = Some (Ok st')) \/
  while_true fuel st = Some (Raise IndexError).
Proof.
  revert st. induction fuel as [|fuel IH]; intros st Hb H1 Hm; [lia|].
  cbn [while_true]. destruct (nodes_left st) as [|n0 nl] eqn:En.
  - left. rewrite (pass_no_nodes st En). unfold all_filled. rewrite En.
    simpl. eauto.
  - assert (Hn : nodes_left st <> []) by now rewrite En.
    destruct (r_left st) as [|r0 rl] eqn:Er.
    + right. now rewrite (pass_starved st Er Hn).
    + destruct (pass_run st Hb) as (st1 & E1 & Hrun); [now rewrite Er|].
      rewrite E1. destruct (all_filled st1) eqn:F; [left; eauto|].
      pose proof (pass_progress st st1 Hb Hn E1) as Hp.
      apply all_filled_false in F.
      assert (Hpos : (1 <= measure st1)%nat).
      { unfold measure. destruct (nodes_left st1); [easy | simpl; lia]. }
      apply IH; try lia.
      apply (run_draws_inv base) with (st := st) (l := pass_labels st); auto.
      intros. now apply drawn_base.
Qed.

(** X1: on tables with unique index labels, whatever the demands and
    capacities, [nearest_power_nodes] never loops forever: within
    [max 1 (resources + nodes)] passes it returns a table or raises the
    [IndexError] of [r_index[i]]; more passes change nothing. *)
Theorem X1_always_stops (nd rm : DataFrame) (st0 : tables) (fuel : nat) :
  loads nd rm st0 -> (pass_bound st0 <= fuel)%nat ->
  nearest_power_nodes fuel nd rm = nearest_power_nodes (pass_bound st0) nd rm /\
  ((exists tbl, nearest_power_nodes fuel nd rm = Some (Ok tbl)) \/
   nearest_power_nodes fuel nd rm = Some (Raise IndexError)).
Proof.
  intros Hl Hfuel. destruct (loads_spec nd rm st0 Hl) as (_ & Hb & _).
  pose proof (measure_le st0) as Hm.
  assert (Hstop : (exists st', while_true (pass_bound st0) st0 = Some (Ok st')) \/
                  while_true (pass_bound st0) st0 = Some (Raise IndexError)).
  { apply while_true_total; auto; unfold pass_bound; lia. }
  unfold nearest_power_nodes.
  rewrite !(allocate_loads _ nd rm st0 Hl).
  destruct Hstop as [[st' E] | E];
    rewrite (while_true_mono _ fuel _ _ E Hfuel), E; split; eauto.
Qed.

(** ** Fractions and sites of a served node *)

Lemma frac_of_ok (r : resource) (n : node) :
  0 < res_r_cap r -> res_r_cap r <= res_capacity r -> 0 < r_cap n ->
  fraction_ok (frac_of r n).
Proof.
  intros Hr Hle Hn. unfold fraction_ok, frac_of, apportion.
  destruct (Qgtb_cases (r_cap n) (res_r_cap r)) as [[-> H] | [-> H]];
    cbn [fst]; split.
  - apply Qlt_le_weak, Qlt_shift_div_l; lra.
  - apply Qle_shift_div_r; lra.
  - apply Qlt_le_weak, Qlt_shift_div_l; lra.
  - apply Qle_shift_div_r; lra.
Qed.

Lemma drawn_served_well (st0 st : tables) (r : resource) (n : node) :
  served_well st0 st -> In r (r_nodes st) -> In n (nodes st) ->
  0 < res_r_cap r -> 0 < r_cap n -> served_well st0 (drawn st r n).
Proof.
  intros (Hb & Hw & Hs & Hn) Hinr Hinn Hrp Hnp.
  pose proof Hb as (Hndr & _ & _).
  unfold within_capacity in Hw. rewrite Forall_forall in Hw, Hn.
  pose proof (Hw r Hinr) as Hle.
  split; [now apply drawn_base|]. unfold drawn; cbn [r_nodes nodes].
  split; [|split].
  - apply Forall_loc_set; [now apply Forall_forall|].
    rewrite res_after_capacity.
    destruct (apportion_cases r n) as [(H1 & H2 & H3) | (H1 & H2 & H3)]; lra.
  - rewrite sites_loc_set; auto using res_after_name, res_after_capacity.
  - apply Forall_loc_set; [now apply Forall_forall|].
    destruct (Hn n Hinn) as [Hf Hi].
    rewrite node_after_fracs, node_after_ids. split; apply Forall_app; split;
      try assumption; (apply Forall_cons; [|apply Forall_nil]).
    + now apply frac_of_ok.
    + exists (res_capacity r). split; [|lra].
      rewrite <- Hs. unfold sites. apply in_map_iff. now exists r.
Qed.

Lemma loads_served_well (nd rm : DataFrame) (st0 : tables) :
  loads nd rm st0 -> served_well st0 st0.
Proof.
  intro Hl. destruct (loads_spec nd rm st0 Hl) as (Hf & Hb & _).
  split; [exact Hb|]. split; [|split; [reflexivity|]].
  - destruct Hf as [_ Hf]. unfold within_capacity. apply Forall_forall.
    intros r Hin. rewrite Forall_forall in Hf. rewrite (Hf r Hin). lra.
  - apply Forall_forall. intros n Hin.
    destruct Hf as [Hf _]. rewrite Forall_forall in Hf.
    destruct (Hf n Hin) as [H1 H2]. unfold fracs, ids. rewrite H1, H2.
    split; constructor.
Qed.

Lemma returned_served_well (nd rm : DataFrame) (st0 : tables) (fuel : nat)
  (tbl : power_table) :
  loads nd rm st0 -> nearest_power_nodes fuel nd rm = Some (Ok tbl) ->
  exists st, tbl = select_columns st /\ served_well st0 st.
Proof.
  intros Hl E. destruct (nearest_power_nodes_ok _ _ _ _ E) as (st & Ea & ->).
  rewrite (allocate_loads fuel nd rm st0 Hl) in Ea.
  exists st. split; [reflexivity|].
  apply (while_true_inv (served_well st0)) with (fuel := fuel) (st := st0); auto.
  - intros s Hs. exact (proj1 Hs).
  - intros. now apply drawn_served_well.
  - now apply (loads_served_well nd rm).
Qed.


(** X4: every identifier in the [site_id] of a returned table is the index
    label of a site of the resource table whose capacity is positive: a site
    with zero or negative capacity is never assigned. *)
Theorem X4_sites_exist_and_positive (nd rm : DataFrame) (st0 : tables) (fuel : nat)
  (tbl : power_table) :
  loads nd rm st0 -> nearest_power_nodes fuel nd rm = Some (Ok tbl) ->
  Forall (fun row =>
            Forall (fun k => In k (index rm) /\ positive_site st0 k)
                   (cells (out_site_id row)))
         (out_rows tbl).
Proof.
  intros Hl E.
  destruct (returned_served_well nd rm st0 fuel tbl Hl E)
    as (st & -> & _ & _ & _ & Hn).
  assert (Hidx : incl (map res_name (r_nodes st0)) (index rm)).
  { destruct Hl as (El & _). unfold load, load_resources in El.
    destruct (load_nodes nd); simpl in El; [|discriminate].
    destruct (getitem rm "longitude") as [lon|]; simpl in El; [|discriminate].
    destruct (getitem rm "latitude") as [lat|]; simpl in El; [|discriminate].
    destruct (getitem rm "capacity") as [cap|]; simpl in El; [|discriminate].
    injection El as <-. cbn [r_nodes].
    exact (proj2 (proj2 (zip_resources_spec (index rm) lon lat cap))). }
  unfold select_columns; cbn [out_rows]. apply Forall_forall.
  intros row Hrow. apply in_map_iff in Hrow. destruct Hrow as [n [<- Hin]].
  cbn [out_site_id]. rewrite Forall_forall in Hn.
  destruct (Hn n Hin) as [_ Hi]. fold (ids n).
  apply Forall_forall. intros k Hk. rewrite Forall_forall in Hi.
  split; [|now apply Hi].
  destruct (Hi k Hk) as (c & Hc & _). apply Hidx.
  rewrite <- sites_names. change k with (fst (k, c)). now apply in_map.
Qed.

(** ** Nodes without demand *)

Lemma drawn_idle_kept (st0 st : tables) (r : resource) (n : node) :
  idle_kept st0 st -> In n (nodes st) -> 0 < r_cap n ->
  idle_kept st0 (drawn st r n).
Proof.
  intros [Hb Hk] Hinn Hnp. split; [now apply drawn_base|].
  intros n0 Hin0 Hle. unfold drawn; cbn [nodes].
  apply In_loc_set_other; [now apply Hk|]. intro E.
  destruct Hb as (_ & Hnd & _).
  pose proof (same_key_eq node_name _ _ _ Hnd (Hk n0 Hin0 Hle) Hinn E).
  subst n0. lra.
Qed.

(** X5: a node whose demand is zero or negative is never served: its row
    comes back with null [site_id] and [site_fracs]. *)
Theorem X5_no_demand_no_site (nd rm : DataFrame) (st0 : tables) (fuel : nat)
  (tbl : power_table) (n0 : node) :
  loads nd rm st0 -> nearest_power_nodes fuel nd rm = Some (Ok tbl) ->
  In n0 (nodes st0) -> r_cap n0 <= 0 ->
  exists row, In row (out_rows tbl) /\ out_name row = node_name n0 /\
              out_site_id row = None /\ out_site_fracs row = None.
Proof.
  intros Hl E Hin0 Hle.
  destruct (nearest_power_nodes_ok _ _ _ _ E) as (st & Ea & ->).
  rewrite (allocate_loads fuel nd rm st0 Hl) in Ea.
  destruct (loads_spec nd rm st0 Hl) as ([Hf _] & Hb & _).
  destruct (while_true_inv (idle_kept st0)
              ltac:(intros s Hs; exact (proj1 Hs))
              ltac:(intros s r n Hs ? ? ? ?; now apply drawn_idle_kept)
              fuel st0 st (conj Hb (fun n H _ => H)) Ea)
    as [[_ Hk] _].
  exists (mkPowerRow (node_name n0) (latitude n0) (longitude n0) (capacity n0)
            (site_id n0) (site_fracs n0)).
  rewrite Forall_forall in Hf. destruct (Hf n0 Hin0) as [H1 H2].
  split; [|cbn; auto].
  unfold select_columns; cbn [out_rows]. apply in_map_iff.
  exists n0. split; [reflexivity | now apply Hk].
Qed.

(** ** The request comes back *)

Lemma map_loc_set_same {A B : Type} (key : A -> label) (f : A -> B)
  (rows : list A) (r v : A) :
  NoDup (map key rows) -> In r rows -> f v = f r ->
  map f (loc_set key rows (key r) v) = map f rows.
Proof.
  intros Hnd Hin Hf. unfold loc_set. rewrite map_map.
  apply map_ext_in. intros x Hx.
  destruct (Z.eqb_spec (key x) (key r)) as [E|_]; [|reflexivity].
  now rewrite (same_key_eq key rows x r Hnd Hx Hin E).
Qed.

Lemma node_after_values (r : resource) (n : node) :
  node_values (node_after r n) = node_values n.
Proof. unfold node_after, apportion. now destruct (Qgtb _ _). Qed.

Lemma fill_nodes_values (idx : list label) (vals : list (list Q)) (ns : list node) :
  fill_nodes idx vals = Ok ns ->
  map node_values ns = combine idx (map (broadcast 3) vals).
Proof.
  revert vals ns. induction idx as [|i idx IH]; intros vals ns E.
  - destruct vals; simpl in E; [|discriminate]. now injection E as <-.
  - destruct vals as [|row vals]; simpl in E; [discriminate|].
    destruct row as [|la [|lo [|c [|? ?]]]]; try discriminate;
      (destruct (fill_nodes idx vals) as [rest|] eqn:Er; simpl in E;
       [|discriminate]);
      injection E as <-; simpl; f_equal; now apply IH.
Qed.

Lemma broadcast_same (width : nat) (vals : list (list Q)) :
  (2 <= width)%nat -> Forall (fun row => length row = width) vals ->
  map (broadcast width) vals = vals.
Proof.
  intros Hw H. induction H as [|row vals Hrow _ IH]; [reflexivity|].
  simpl. rewrite IH. f_equal.
  destruct row as [|v [|w row]]; try reflexivity. simpl in Hrow. lia.
Qed.

Lemma assign_r_cap_values (ns : list node) (col : list Q) :
  map node_values (assign_r_cap ns col) = map node_values ns.
Proof.
  revert col. induction ns as [|n ns IH]; intros [|c col]; simpl; try reflexivity.
  f_equal. apply IH.
Qed.

Lemma loads_values (nd rm : DataFrame) (st0 : tables) :
  loads nd rm st0 ->
  map node_values (nodes st0) = combine (index nd) (map (broadcast 3) (values nd)).
Proof.
  intros (E & _). unfold load, load_nodes in E.
  destruct (fill_nodes (index nd) (values nd)) as [ns|] eqn:En;
    simpl in E; [|discriminate].
  destruct (getitem nd "capacity (MW)") as [col|]; simpl in E; [|discriminate].
  destruct (load_resources rm); simpl in E; [|discriminate].
  injection E as <-. cbn [nodes]. rewrite assign_r_cap_values.
  now apply fill_nodes_values.
Qed.

(** X6: the returned table is the request table with two columns added:
    the five columns in their order, and per node, in index order, the index
    label and the three values of its request row; the single value of the
    row of a one-column request stands in all three columns. *)
Theorem X6_request_comes_back (nd rm : DataFrame) (st0 : tables) (fuel : nat)
  (tbl : power_table) :
  loads nd rm st0 -> nearest_power_nodes fuel nd rm = Some (Ok tbl) ->
  out_columns tbl
  = ["latitude"; "longitude"; "capacity"; "site_id"; "site_fracs"]%string /\
  map row_values (out_rows tbl)
  = combine (index nd) (map (broadcast 3) (values nd)) /\
  (Forall (fun row => length row = 3%nat) (values nd) ->
   map row_values (out_rows tbl) = combine (index nd) (values nd)).
Proof.
  intros Hl E. destruct (nearest_power_nodes_ok _ _ _ _ E) as (st & Ea & ->).
  rewrite (allocate_loads fuel nd rm st0 Hl) in Ea.
  destruct (loads_spec nd rm st0 Hl) as (_ & Hb & _).
  destruct (while_true_inv (same_requests st0)
              ltac:(intros s Hs; exact (proj1 Hs))
              ltac:(intros s r n [H1 H2] ? ? ? ?; split;
                    [now apply drawn_base |
                     unfold drawn; cbn [nodes]; rewrite <- H2;
                     apply map_loc_set_same;
                     [exact (proj1 (proj2 H1)) | assumption |
                      apply node_after_values]])
              fuel st0 st (conj Hb eq_refl) Ea)
    as [[_ Hv] _].
  assert (Hrows : map row_values (out_rows (select_columns st))
                  = combine (index nd) (map (broadcast 3) (values nd))).
  { unfold select_columns; cbn [out_rows].
    rewrite map_map. rewrite <- (loads_values nd rm st0 Hl), <- Hv. reflexivity. }
  split; [reflexivity|]. split; [exact Hrows|].
  intro H3. rewrite Hrows. now rewrite broadcast_same by (auto; lia).
Qed.

(** ** Assignments are only ever added *)

Lemma extends_refl (s : tables) : extends s s.
Proof.
  intros n Hin. exists n, []. now rewrite app_nil_r.
Qed.

Lemma drawn_extends (s st : tables) (r : resource) (n : node) :
  base st -> extends s st -> In n (nodes st) -> extends s (drawn st r n).
Proof.
  intros (_ & Hnd & Hal) Hx Hinn m Hm.
  destruct (Hx m Hm) as (m' & more & Hin' & Hname & Hmore).
  destruct (Z.eq_dec (node_name m') (node_name n)) as [E | E].
  - pose proof (same_key_eq node_name _ _ _ Hnd Hin' Hinn E); subst m'.
    exists (node_after r n), (more ++ [(res_name r, frac_of r n)]).
    split; [|split].
    + unfold drawn; cbn [nodes]. now apply (In_loc_set_same node_name _ _ _ n).
    + now rewrite node_after_name.
    + rewrite node_after_assignments, Hmore, app_assoc; [reflexivity|].
      rewrite Forall_forall in Hal. now apply Hal.
  - exists m', more. split; [|split]; auto.
    unfold drawn; cbn [nodes]. now apply In_loc_set_other.
Qed.

Lemma while_true_resume (m fuel : nat) (st0 s st : tables) :
  after_passes m st0 = Some s -> while_true fuel st0 = Some (Ok st) ->
  exists f, while_true f s = Some (Ok st).
Proof.
  revert fuel st0. induction m as [|m IH]; intros fuel st0 Em E; simpl in Em.
  - injection Em as <-. eauto.
  - destruct fuel as [|fuel]; [discriminate|]. cbn [while_true] in E.
    destruct (pass st0) as [st1|]; [|discriminate].
    destruct (all_filled st1); [discriminate|]. now apply (IH fuel st1).
Qed.

(** X7: later passes only append: what a node holds after any number of
    passes is, in the returned table, the beginning of its [site_id] and
    [site_fracs], in the same order. *)
Theorem X7_assignments_only_grow (nd rm : DataFrame) (st0 s : tables)
  (m fuel : nat) (tbl : power_table) (n : node) :
  loads nd rm st0 ->
  after_passes m st0 = Some s ->
  nearest_power_nodes fuel nd rm = Some (Ok tbl) ->
  In n (nodes s) ->
  exists row more, In row (out_rows tbl) /\ out_name row = node_name n /\
                   row_assignments row = node_assignments n ++ more.
Proof.
  intros Hl Em E Hin.
  destruct (nearest_power_nodes_ok _ _ _ _ E) as (st & Ea & ->).
  rewrite (allocate_loads fuel nd rm st0 Hl) in Ea.
  destruct (loads_spec nd rm st0 Hl) as (_ & Hb & _).
  assert (Hbs : base s).
  { apply (after_passes_inv base (fun x H => H)) with (m := m) (st0 := st0);
      auto. intros. now apply drawn_base. }
  destruct (while_true_resume m fuel st0 s st Em Ea) as [f Ef].
  destruct (while_true_inv (fun x => base x /\ extends s x)
              ltac:(intros x Hx; exact (proj1 Hx))
              ltac:(intros x r n1 [H1 H2] ? ? ? ?; split;
                    [now apply drawn_base | now apply drawn_extends])
              f s st (conj Hbs (extends_refl s)) Ef)
    as [[_ Hx] _].
  destruct (Hx n Hin) as (n' & more & Hin' & Hname & Hmore).
  exists (mkPowerRow (node_name n') (latitude n') (longitude n') (capacity n')
            (site_id n') (site_fracs n')), more.
  split; [|split; [exact Hname | exact Hmore]].
  unfold select_columns; cbn [out_rows]. apply in_map_iff. now exists n'.
Qed.

(** * Further properties of [nearest_met_nodes] *)

Lemma fill_met_nodes_values (idx : list label) (vals : list (list Q))
  (ns : list (label * point)) :
  fill_met_nodes idx vals = Ok ns ->
  map (fun n => (fst n, [fst (snd n); snd (snd n)])) ns
  = combine idx (map (broadcast 2) vals).
Proof.
  revert vals ns. induction idx as [|i idx IH]; intros vals ns E.
  - destruct vals; simpl in E; [|discriminate]. now injection E as <-.
  - destruct vals as [|row vals]; simpl in E; [discriminate|].
    destruct row as [|la [|lo [|? ?]]]; try discriminate;
      (destruct (fill_met_nodes idx vals) as [rest|] eqn:Er; simpl in E;
       [|discriminate]);
      injection E as <-; simpl; f_equal; now apply IH.
Qed.

(** X8: for coordinates in degrees, when the resource table has a site,
    the [site_id] that [nearest_met_nodes] writes for a node is a position
    of the resource table: a row number from 0 to the number of sites less
    one. *)
Theorem X8_met_site_is_a_position (nd rm : DataFrame) (tbl : met_table)
  (lat_lon : list point) (row : met_row) :
  nearest_met_nodes nd rm = Ok tbl ->
  as_matrix rm = Ok lat_lon -> lat_lon <> [] -> Forall degrees lat_lon ->
  In row (met_rows tbl) -> degrees (met_latitude row, met_longitude row) ->
  (0 <= met_site_id row < Z.of_nat (length lat_lon))%Z /\
  exists p, nth_error lat_lon (Z.to_nat (met_site_id row)) = Some p.
Proof.
  intros E Em Hne _ Hrow _. unfold nearest_met_nodes in E.
  destruct (fill_met_nodes _ _) as [ns|]; simpl in E; [|discriminate].
  rewrite Em in E. simpl in E. injection E as <-. cbn [met_rows] in Hrow.
  apply in_map_iff in Hrow. destruct Hrow as [[[i [la lo]] k] [<- Hin]].
  rewrite map_map in Hin. apply In_combine_map in Hin. destruct Hin as [_ ->].
  cbn [met_site_id met_latitude met_longitude fst snd]. unfold cKDTree.
  pose proof (query1_in_range lat_lon (la, lo) Hne) as Hlt.
  split; [lia|]. rewrite Nat2Z.id.
  destruct (nth_error lat_lon (snd (query1 lat_lon (la, lo)))) as [p|] eqn:Ep;
    [eauto|]. apply nth_error_None in Ep. lia.
Qed.

(** X9: the table [nearest_met_nodes] returns has the columns latitude,
    longitude and site_id and, per node in index order, the index label and
    the two values of its request row; the single value of the row of a
    one-column request stands in both columns. *)
Theorem X9_met_request_comes_back (nd rm : DataFrame) (tbl : met_table) :
  nearest_met_nodes nd rm = Ok tbl ->
  met_columns tbl = ["latitude"; "longitude"; "site_id"]%string /\
  map met_row_values (met_rows tbl)
  = combine (index nd) (map (broadcast 2) (values nd)) /\
  (Forall (fun row => length row = 2%nat) (values nd) ->
   map met_row_values (met_rows tbl) = combine (index nd) (values nd)).
Proof.
  intros E. unfold nearest_met_nodes in E.
  destruct (fill_met_nodes _ _) as [ns|] eqn:En; simpl in E; [|discriminate].
  destruct (as_matrix rm) as [lat_lon|]; simpl in E; [|discriminate].
  injection E as <-.
  assert (Hrows : map met_row_values
                    (map (fun ns0 => mkMetRow (fst (fst ns0)) (fst (snd (fst ns0)))
                                       (snd (snd (fst ns0))) (Z.of_nat (snd ns0)))
                       (combine ns (snd (query (cKDTree lat_lon) (map snd ns)))))
                  = combine (index nd) (map (broadcast 2) (values nd))).
  { rewrite <- (fill_met_nodes_values _ _ _ En). rewrite map_map.
    clear En. unfold query. cbn [snd]. rewrite map_map.
    induction ns as [|[i [la lo]] ns IH]; [reflexivity|].
    cbn [map combine]. f_equal. exact IH. }
  split; [reflexivity|]. cbn [met_rows]. split; [exact Hrows|].
  intro H2. rewrite <- (broadcast_same 2 (values nd)) by (auto; lia).
  exact Hrows.
Qed.

(** * Properties of [R2PD.tshelpers] *)

Module tshelpers_facts.
Import tshelpers.

(** ** [get_enum_instance] *)

Section EnumClass.
Context {E : Type} (cls : enum_class E).
Hypothesis all_members : forall m, In m (members cls).
Hypothesis distinct_names : NoDup (map (member_name cls) (members cls)).

Lemma find_by_name (l : list E) (m : E) :
  NoDup (map (member_name cls) l) -> In m l ->
  find (fun x => String.eqb (member_name cls x) (member_name cls m)) l = Some m.
Proof.
  induction l as [|a l IH]; simpl; [easy|].
  intros Hnd [-> | Hin].
  - now rewrite String.eqb_refl.
  - inversion Hnd as [|? ? Ha Hl]; subst.
    destruct (String.eqb_spec (member_name cls a) (member_name cls m)) as [Eq|_].
    + exfalso. apply Ha. rewrite Eq. now apply in_map.
    + now apply IH.
Qed.

Lemma enum_getitem_name (m : E) : enum_getitem cls (member_name cls m) = Done m.
Proof.
  unfold enum_getitem. now rewrite (find_by_name _ m distinct_names (all_members m)).
Qed.

Lemma enum_getitem_cases (name : string) :
  (exists m, enum_getitem cls name = Done m /\ member_name cls m = name) \/
  (enum_getitem cls name = Fail (KeyError name) /\
   forall m, member_name cls m <> name).
Proof.
  unfold enum_getitem.
  destruct (find _ (members cls)) as [m|] eqn:F.
  - left. exists m. split; [reflexivity|].
    apply find_some in F. now apply String.eqb_eq.
  - right. split; [reflexivity|]. intros m Hm.
    pose proof (find_none _ _ F m (all_members m)) as H. cbv beta in H.
    rewrite Hm, String.eqb_refl in H. discriminate.
Qed.

Lemma get_enum_instance_cases (value : enum_arg E) :
  (forall m, get_enum_instance value cls = Done m <->
             value = Member m \/ value = ByName (member_name cls m)) /\
  (forall e, get_enum_instance value cls = Fail e <->
             exists name, value = ByName name /\ e = KeyError name /\
                          forall m, member_name cls m <> name).
Proof.
  split.
  - intros m. split.
    + destruct value as [m'|name]; simpl.
      * intro H. injection H as ->. now left.
      * destruct (enum_getitem_cases name) as [(m' & -> & <-) | (-> & _)];
          [|discriminate].
        intro H. injection H as ->. now right.
    + intros [-> | ->]; simpl; [reflexivity | apply enum_getitem_name].
  - intros e. split.
    + destruct value as [m'|name]; simpl; [discriminate|].
      destruct (enum_getitem_cases name) as [(m' & -> & _) | (-> & Hno)];
        [discriminate|].
      intro H. injection H as <-. eauto.
    + intros (name & -> & -> & Hno). simpl.
      destruct (enum_getitem_cases name) as [(m' & _ & Hm) | (-> & _)];
        [now apply Hno in Hm | reflexivity].
Qed.

(** X10: [get_enum_instance] returns a member unchanged and turns the name
    of a member into that member, case-sensitively; any other string raises
    [KeyError] with that string, and nothing else makes it fail. *)
Theorem X10_get_enum_instance :
  (forall value m,
     get_enum_instance value cls = Done m <->
     value = Member m \/ value = ByName (member_name cls m)) /\
  (forall value e,
     get_enum_instance value cls = Fail e <->
     exists name, value = ByName name /\ e = KeyError name /\
                  forall m, member_name cls m <> name).
Proof.
  split; intros value; [apply (proj1 (get_enum_instance_cases value)) |
                        apply (proj2 (get_enum_instance_cases value))].
Qed.
End EnumClass.

Lemma point_interpretations_all (m : POINT_INTERPRETATIONS) :
  In m (members point_interpretations).
Proof. destruct m; simpl; tauto. Qed.

Lemma point_interpretations_distinct :
  NoDup (map (member_name point_interpretations) (members point_interpretations)).
Proof.
  simpl. repeat (constructor; [simpl; intuition discriminate|]). constructor.
Qed.

Lemma forecast_types_all (m : FORECAST_TYPES) : In m (members forecast_types).
Proof. destruct m; simpl; tauto. Qed.

Lemma forecast_types_distinct :
  NoDup (map (member_name forecast_types) (members forecast_types)).
Proof.
  simpl. repeat (constructor; [simpl; intuition discriminate|]). constructor.
Qed.

(** X10, witness: the class of point interpretations. *)
Lemma X10_witness :
  (forall value m,
     get_enum_instance value point_interpretations = Done m <->
     value = Member m \/
     value = ByName (member_name point_interpretations m)) /\
  (forall value e,
     get_enum_instance value point_interpretations = Fail e <->
     exists name, value = ByName name /\ e = KeyError name /\
                  forall m, member_name point_interpretations m <> name).
Proof.
  apply (X10_get_enum_instance point_interpretations).
  - intro m. destruct m; simpl; tauto.
  - simpl. repeat (constructor; [simpl; intuition discriminate|]). constructor.
Defined.

(** ** [infer_params] *)

Lemma regular_S (t0 d : Z) (n : nat) :
  regular t0 d (S n) = t0 :: regular (t0 + d) d n.
Proof.
  unfold regular. cbn [seq map]. f_equal; [simpl; lia|].
  rewrite <- seq_shift, map_map. apply map_ext. intro k. lia.
Qed.

Lemma steps_cons (a b : Z) (l : list Z) :
  steps (a :: b :: l) = (b - a)%Z :: steps (b :: l).
Proof. reflexivity. Qed.

Lemma steps_regular (t0 d : Z) (n : nat) :
  steps (regular t0 d (S n)) = repeat d n.
Proof.
  revert t0. induction n as [|n IH]; intro t0; [reflexivity|].
  rewrite regular_S, regular_S, steps_cons, <- regular_S, IH.
  simpl. f_equal. lia.
Qed.

Lemma last_cons2 (a b x : Z) (l : list Z) :
  last (a :: b :: l) x = last (b :: l) x.
Proof. reflexivity. Qed.

Lemma last_regular (t0 d x : Z) (n : nat) :
  last (regular t0 d (S n)) x = (t0 + Z.of_nat n * d)%Z.
Proof.
  revert t0. induction n as [|n IH]; intro t0; [simpl; lia|].
  rewrite regular_S, (regular_S (t0 + d)), last_cons2, <- regular_S, IH. lia.
Qed.

Lemma unique_repeat (d : Z) (n : nat) : unique (repeat d (S n)) = [d].
Proof.
  induction n as [|n IH]; [reflexivity|].
  change (unique (repeat d (S (S n))))
    with (insert_unique d (unique (repeat d (S n)))).
  rewrite IH. simpl. now rewrite Z.ltb_irrefl, Z.eqb_refl.
Qed.

Lemma In_insert_unique (x y : Z) (l : list Z) :
  In y (insert_unique x l) <-> y = x \/ In y l.
Proof.
  induction l as [|a l IH]; simpl; [intuition|].
  destruct (x <? a)%Z; [simpl; intuition|].
  destruct (Z.eqb_spec x a) as [->|_]; simpl; [intuition | rewrite IH; intuition].
Qed.

Lemma In_unique (y : Z) (l : list Z) : In y (unique l) <-> In y l.
Proof.
  induction l as [|a l IH]; simpl; [tauto|].
  rewrite In_insert_unique, IH. intuition.
Qed.

(** [np.unique] gives one value exactly on a non-empty list of equal
    values. *)
Lemma unique_one (l : list Z) :
  length (unique l) = 1%nat <-> exists d, l <> [] /\ Forall (eq d) l.
Proof.
  split.
  - intro H. destruct (unique l) as [|d [|? ?]] eqn:U; try discriminate.
    exists d. split.
    + intro E. subst l. discriminate.
    + apply Forall_forall. intros x Hx. apply In_unique in Hx.
      rewrite U in Hx. destruct Hx as [-> | []]. reflexivity.
  - intros (d & Hne & Hall).
    assert (E : l = repeat d (length l)).
    { clear Hne. induction Hall as [|x l <- _ IH]; simpl; [reflexivity|].
      now f_equal. }
    destruct l as [|x l]; [easy|].
    change (length (x :: l)) with (S (length l)) in E.
    now rewrite E, unique_repeat.
Qed.

Lemma regular_of_steps (d t0 : Z) (l : list Z) :
  Forall (eq d) (steps (t0 :: l)) -> t0 :: l = regular t0 d (S (length l)).
Proof.
  revert t0. induction l as [|t1 l IH]; intros t0 H.
  - unfold regular. simpl. f_equal. lia.
  - rewrite steps_cons in H. inversion H as [|? ? Hd Hrest]; subst.
    simpl length. rewrite regular_S. f_equal.
    replace (t0 + (t1 - t0))%Z with t1 by lia. now apply IH.
Qed.

Lemma forallb_repeat {A : Type} (f : A -> bool) (x : A) (n : nat) :
  f x = true -> forallb f (repeat x n) = true.
Proof. intro H. induction n as [|n IH]; simpl; [reflexivity | now rewrite H]. Qed.

Lemma fits_spec (d : Z) :
  fits d = true <-> (int64_min < d <= int64_max)%Z.
Proof. unfold fits. rewrite andb_true_iff, Z.ltb_lt, Z.leb_le. tauto. Qed.

Lemma checked_steps_regular (t0 d : Z) (n : nat) :
  checked_steps (regular t0 d (S (S n)))
  = if fits d then Done (repeat d (S n)) else Fail OverflowError.
Proof.
  unfold checked_steps. rewrite steps_regular. cbn [repeat forallb].
  destruct (fits d) eqn:F; [|reflexivity].
  now rewrite (forallb_repeat fits d n F).
Qed.

Lemma infer_params_regular (t0 d : Z) (n : nat)
  (pi : option (enum_arg POINT_INTERPRETATIONS)) (tz : option string)
  (others : list string) :
  (2 <= n)%nat -> fits d = true ->
  infer_params (regular t0 d n) pi tz others
  = TemporalParameters_call (t0, (t0 + (Z.of_nat n - 1) * d)%Z)
      (inject_Z (d / minute) / inject_Z 1) pi tz others.
Proof.
  intros Hn Hd. destruct n as [|[|n]]; try lia.
  unfold infer_params. rewrite (regular_S t0 d (S n)).
  rewrite <- (regular_S t0 d (S n)).
  rewrite checked_steps_regular, Hd, last_regular, unique_repeat.
  cbn [length Nat.eqb map nth]. do 2 f_equal. lia.
Qed.

(** An index of at least two timestamps with a step that leaves int64. *)
Lemma infer_params_overflow (t0 d : Z) (n : nat)
  (pi : option (enum_arg POINT_INTERPRETATIONS)) (tz : option string)
  (others : list string) :
  (2 <= n)%nat -> fits d = false ->
  infer_params (regular t0 d n) pi tz others = Fail OverflowError.
Proof.
  intros Hn Hd. destruct n as [|[|n]]; try lia.
  unfold infer_params. rewrite (regular_S t0 d (S n)).
  rewrite <- (regular_S t0 d (S n)).
  now rewrite checked_steps_regular, Hd.
Qed.

(** X11: on an index of at least two timestamps with a constant step that
    int64 holds, [infer_params] builds the parameters whose extent is the
    first and the last timestamp and whose resolution is the step in whole
    minutes, rounded down; unless told otherwise the point interpretation is
    [instantaneous] and the time zone [UTC]. *)
Theorem X11_infer_params_regular (t0 d : Z) (n : nat)
  (pi : option (enum_arg POINT_INTERPRETATIONS)) (tz : option string) :
  (2 <= n)%nat -> (int64_min < d <= int64_max)%Z ->
  infer_params (regular t0 d n) pi tz []
  = TemporalParameters_init (t0, (t0 + (Z.of_nat n - 1) * d)%Z) pi tz
      (Some (inject_Z (d / minute) / inject_Z 1)) /\
  infer_params (regular t0 d n) None None []
  = Done (mkTemporalParameters (t0, (t0 + (Z.of_nat n - 1) * d)%Z)
            instantaneous "UTC" (Some (inject_Z (d / minute) / inject_Z 1))).
Proof.
  intros Hn Hd. apply fits_spec in Hd.
  split; [now apply infer_params_regular|].
  now rewrite infer_params_regular.
Qed.

(** X11, witness: three hourly timestamps. *)
Lemma X11_witness :
  infer_params (regular 0 (60 * minute) 3) (Some (ByName "average_next")) None []
  = TemporalParameters_init (0%Z, (0 + (Z.of_nat 3 - 1) * (60 * minute))%Z)
      (Some (ByName "average_next")) None
      (Some (inject_Z (60 * minute / minute) / inject_Z 1)) /\
  infer_params (regular 0 (60 * minute) 3) None None []
  = Done (mkTemporalParameters (0%Z, (0 + (Z.of_nat 3 - 1) * (60 * minute))%Z)
            instantaneous "UTC"
            (Some (inject_Z (60 * minute / minute) / inject_Z 1))).
Proof.
  apply (X11_infer_params_regular 0 (60 * minute) 3); [lia | now vm_compute].
Defined.

(** X12: on an index none of whose steps is [- 2 ^ 63], [infer_params]
    succeeds exactly when the index has at least two timestamps and a
    constant step that int64 holds, no keyword other than [point_interp] and
    [timezone] is passed, and the point interpretation is one that
    [get_enum_instance] accepts. *)
Theorem X12_infer_params_succeeds_iff (time_index : list Z)
  (pi : option (enum_arg POINT_INTERPRETATIONS)) (tz : option string)
  (others : list string) :
  Forall (fun d => d <> int64_min) (steps time_index) ->
  ((exists tp, infer_params time_index pi tz others = Done tp) <->
   (exists t0 d n, (2 <= n)%nat /\ (int64_min <= d <= int64_max)%Z /\
                   time_index = regular t0 d n) /\
   others = [] /\
   (exists m, get_enum_instance
                (match pi with Some v => v | None => ByName "instantaneous" end)
                point_interpretations = Done m)).
Proof.
  intro Hnat. split.
  - intros [tp E]. unfold infer_params in E.
    destruct time_index as [|t0 l]; [discriminate|].
    unfold checked_steps in E.
    destruct (forallb fits (steps (t0 :: l))) eqn:F; [|discriminate].
    destruct (Nat.eqb (length (unique (steps (t0 :: l)))) 1) eqn:U;
      [|discriminate].
    apply Nat.eqb_eq, unique_one in U. destruct U as (d & Hne & Hall).
    unfold TemporalParameters_call in E.
    destruct others as [|o others]; [|discriminate].
    split; [|split; [reflexivity|]].
    + exists t0, d, (S (length l)). split; [|split].
      * destruct l; [now elim Hne | simpl; lia].
      * rewrite forallb_forall in F.
        destruct (steps (t0 :: l)) as [|d0 ds]; [now elim Hne|].
        inversion Hall; subst. specialize (F d0 (or_introl eq_refl)).
        apply fits_spec in F. lia.
      * now apply regular_of_steps.
    + unfold TemporalParameters_init in E.
      destruct (get_enum_instance _ point_interpretations) as [m|];
        [eauto | discriminate].
  - intros ((t0 & d & n & Hn & Hd & ->) & -> & [m Hm]).
    assert (Hfit : fits d = true).
    { apply fits_spec. split; [|lia].
      destruct n as [|[|n]]; try lia. rewrite steps_regular in Hnat.
      inversion Hnat; subst. lia. }
    rewrite (infer_params_regular t0 d n pi tz [] Hn Hfit).
    unfold TemporalParameters_call, TemporalParameters_init. rewrite Hm. eauto.
Qed.

(** X12, witness: three hourly timestamps, and the keyword
    [point_interp='average_next']. *)
Lemma X12_witness :
  (exists tp, infer_params (regular 0 (60 * minute) 3)
                (Some (ByName "average_next")) None [] = Done tp) <->
  (exists t0 d n, (2 <= n)%nat /\ (int64_min <= d <= int64_max)%Z /\
                  regular 0 (60 * minute) 3 = regular t0 d n) /\
  @nil string = [] /\
  (exists m, get_enum_instance (ByName "average_next") point_interpretations
             = Done m).
Proof.
  apply (X12_infer_params_succeeds_iff (regular 0 (60 * minute) 3)
           (Some (ByName "average_next")) None []).
  repeat (constructor; [now vm_compute|]); constructor.
Defined.

(** X13: how [infer_params] fails on an index, whatever the keywords: an
    empty index raises [IndexError]; an index two neighbours of which differ
    by more than int64 holds raises [OverflowError]; an index of a single
    timestamp, or one whose steps int64 holds and are not all the same,
    fails the assertion 'time resolution is not constant!'. *)
Theorem X13_infer_params_failures
  (pi : option (enum_arg POINT_INTERPRETATIONS)) (tz : option string)
  (others : list string) :
  infer_params [] pi tz others = Fail IndexError /\
  (forall t, infer_params [t] pi tz others
             = Fail (AssertionError "time resolution is not constant!")) /\
  (forall time_index d,
     In d (steps time_index) -> (d < int64_min \/ int64_max < d)%Z ->
     infer_params time_index pi tz others = Fail OverflowError) /\
  (forall time_index,
     time_index <> [] ->
     Forall (fun d => (int64_min < d <= int64_max)%Z) (steps time_index) ->
     ~ (exists t0 d n, (2 <= n)%nat /\ time_index = regular t0 d n) ->
     infer_params time_index pi tz others
     = Fail (AssertionError "time resolution is not constant!")).
Proof.
  split; [reflexivity|]. split; [reflexivity|]. split.
  - intros time_index d Hin Hd. unfold infer_params.
    destruct time_index as [|t0 l]; [easy|].
    unfold checked_steps.
    destruct (forallb fits (steps (t0 :: l))) eqn:F; [|reflexivity].
    rewrite forallb_forall in F. specialize (F d Hin).
    apply fits_spec in F. lia.
  - intros time_index Hne Hfit Hirr. unfold infer_params.
    destruct time_index as [|t0 l]; [easy|].
    unfold checked_steps.
    assert (F : forallb fits (steps (t0 :: l)) = true).
    { apply forallb_forall. intros d Hd. apply fits_spec.
      rewrite Forall_forall in Hfit. now apply Hfit. }
    rewrite F.
    destruct (Nat.eqb (length (unique (steps (t0 :: l)))) 1) eqn:U;
      [|reflexivity].
    exfalso. apply Hirr.
    apply Nat.eqb_eq, unique_one in U. destruct U as (d & Hn & Hall).
    exists t0, d, (S (length l)). split.
    + destruct l; [now elim Hn | simpl; lia].
    + now apply regular_of_steps.
Qed.

(** X14: the resolution [infer_params] reports is the step cut down to
    whole minutes: [r] minutes with [r * minute <= step < (r + 1) * minute];
    a constant step shorter than a minute is reported as resolution 0. *)
Theorem X14_resolution_whole_minutes (t0 d : Z) (n : nat)
  (pi : option (enum_arg POINT_INTERPRETATIONS)) (tz : option string)
  (others : list string) (tp : TemporalParameters) :
  (2 <= n)%nat ->
  infer_params (regular t0 d n) pi tz others = Done tp ->
  exists r, resolution tp = Some r /\
            r == inject_Z (d / minute) /\
            inject_Z minute * r <= inject_Z d /\
            inject_Z d < inject_Z minute * (r + 1) /\
            ((0 <= d < minute)%Z -> r == 0).
Proof.
  intros Hn E.
  destruct (fits d) eqn:Hd;
    [|now rewrite (infer_params_overflow t0 d n pi tz others Hn Hd) in E].
  rewrite (infer_params_regular t0 d n pi tz others Hn Hd) in E.
  unfold TemporalParameters_call, TemporalParameters_init in E.
  destruct others; [|discriminate].
  destruct (get_enum_instance _ point_interpretations) as [m|]; [|discriminate].
  injection E as <-. cbn [resolution].
  exists (inject_Z (d / minute) / inject_Z 1).
  assert (Er : inject_Z (d / minute) / inject_Z 1 == inject_Z (d / minute)).
  { unfold Qdiv. change (/ inject_Z 1) with 1. ring. }
  split; [reflexivity|]. split; [exact Er|].
  assert (Hm : (0 < minute)%Z) by reflexivity.
  pose proof (Z.mul_div_le d minute Hm) as Hlo.
  pose proof (Z.mul_succ_div_gt d minute Hm) as Hhi.
  rewrite Er. split; [|split].
  - rewrite <- inject_Z_mult. rewrite <- Zle_Qle. exact Hlo.
  - change 1 with (inject_Z 1). rewrite <- inject_Z_plus, <- inject_Z_mult.
    rewrite <- Zlt_Qlt. unfold Z.succ in Hhi. exact Hhi.
  - intros Hd'. rewrite (Z.div_small d minute Hd'). reflexivity.
Qed.

(** X14, witness: three timestamps thirty seconds apart. *)
Lemma X14_witness :
  exists r, resolution (mkTemporalParameters (0%Z, 60000000000%Z) instantaneous
                          "UTC" (Some (inject_Z (30000000000 / minute)
                                       / inject_Z 1)))
            = Some r /\
            r == inject_Z (30000000000 / minute) /\
            inject_Z minute * r <= inject_Z 30000000000 /\
            inject_Z 30000000000 < inject_Z minute * (r + 1) /\
            ((0 <= 30000000000 < minute)%Z -> r == 0).
Proof.
  apply (X14_resolution_whole_minutes 0 30000000000 3 None None []).
  - lia.
  - reflexivity.
Defined.

(** ** [ForecastParameters] *)

Lemma kwargs_getitem_fail (kwargs : list (string * kwvalue)) (key : string)
  (e : error) :
  kwargs_getitem kwargs key = Fail e -> e = KeyError key.
Proof.
  induction kwargs as [|[k v] rest IH]; simpl.
  - intro H. now injection H as <-.
  - destruct (String.eqb k key); [discriminate | exact IH].
Qed.

(** X15: a [ForecastParameters] holds the parameters of its type and no
    others: with [discrete_leadtimes] it holds [kwargs['leadtimes']] while
    frequency, lookahead and leadtime are [None], even when they were
    passed; with [dispatch_lookahead] it holds the three and [leadtimes] is
    [None]. *)
Theorem X15_parameters_of_the_type (forecast_type0 : enum_arg FORECAST_TYPES)
  (temporal_params0 : temporal_arg) (kwargs : list (string * kwvalue))
  (fp : ForecastParameters) :
  ForecastParameters_init forecast_type0 temporal_params0 kwargs = Done fp ->
  get_enum_instance forecast_type0 forecast_types = Done (forecast_type fp) /\
  temporal_params0 = Temporal (temporal_params fp) /\
  match forecast_type fp with
  | discrete_leadtimes =>
      (exists l, kwargs_getitem kwargs "leadtimes" = Done l /\
                 leadtimes fp = Some l) /\
      frequency fp = None /\ lookahead fp = None /\ leadtime fp = None
  | dispatch_lookahead =>
      leadtimes fp = None /\
      (exists f, kwargs_getitem kwargs "frequency" = Done f /\
                 frequency fp = Some f) /\
      (exists la, kwargs_getitem kwargs "lookahead" = Done la /\
                  lookahead fp = Some la) /\
      (exists lt, kwargs_getitem kwargs "leadtime" = Done lt /\
                  leadtime fp = Some lt)
  end.
Proof.
  unfold ForecastParameters_init.
  destruct (get_enum_instance forecast_type0 forecast_types) as [ft|];
    [|discriminate].
  destruct temporal_params0 as [tp|]; [|discriminate].
  destruct ft.
  - destruct (kwargs_getitem kwargs "leadtimes") as [l|]; [|discriminate].
    intro H. injection H as <-. cbn. eauto 10.
  - destruct (kwargs_getitem kwargs "frequency") as [f|]; [|discriminate].
    destruct (kwargs_getitem kwargs "lookahead") as [la|]; [|discriminate].
    destruct (kwargs_getitem kwargs "leadtime") as [lt|]; [|discriminate].
    intro H. injection H as <-. cbn. eauto 12.
Qed.

(** X16: the order in which [ForecastParameters] checks its arguments: an
    unknown forecast type raises [KeyError] with that name whatever the
    rest; then an argument that is not a [TemporalParameters] raises
    [RuntimeError] whatever the keywords; then the first keyword missing
    among those of the type raises [KeyError] with its name. *)
Theorem X16_forecast_argument_checks
  (temporal_params0 : temporal_arg) (kwargs : list (string * kwvalue)) :
  (forall name, (forall m, member_name forecast_types m <> name) ->
     ForecastParameters_init (ByName name) temporal_params0 kwargs
     = Fail (KeyError name)) /\
  (forall value ft, get_enum_instance value forecast_types = Done ft ->
     ForecastParameters_init value NotTemporal kwargs = Fail RuntimeError) /\
  (forall value tp e, get_enum_instance value forecast_types = Done discrete_leadtimes ->
     kwargs_getitem kwargs "leadtimes" = Fail e ->
     ForecastParameters_init value (Temporal tp) kwargs
     = Fail (KeyError "leadtimes")) /\
  (forall value tp e, get_enum_instance value forecast_types = Done dispatch_lookahead ->
     kwargs_getitem kwargs "frequency" = Fail e ->
     ForecastParameters_init value (Temporal tp) kwargs
     = Fail (KeyError "frequency")) /\
  (forall value tp f e, get_enum_instance value forecast_types = Done dispatch_lookahead ->
     kwargs_getitem kwargs "frequency" = Done f ->
     kwargs_getitem kwargs "lookahead" = Fail e ->
     ForecastParameters_init value (Temporal tp) kwargs
     = Fail (KeyError "lookahead")) /\
  (forall value tp f la e, get_enum_instance value forecast_types = Done dispatch_lookahead ->
     kwargs_getitem kwargs "frequency" = Done f ->
     kwargs_getitem kwargs "lookahead" = Done la ->
     kwargs_getitem kwargs "leadtime" = Fail e ->
     ForecastParameters_init value (Temporal tp) kwargs
     = Fail (KeyError "leadtime")).
Proof.
  unfold ForecastParameters_init. repeat split.
  - intros name Hno.
    destruct (proj2 (get_enum_instance_cases forecast_types forecast_types_all
                       forecast_types_distinct (ByName name)) (KeyError name))
      as [_ H].
    rewrite H; [reflexivity|]. exists name. auto.
  - intros value ft ->. reflexivity.
  - intros value tp e -> H. rewrite H.
    now rewrite (kwargs_getitem_fail _ _ _ H).
  - intros value tp e -> H. rewrite H.
    now rewrite (kwargs_getitem_fail _ _ _ H).
  - intros value tp f e -> Hf H. rewrite Hf, H.
    now rewrite (kwargs_getitem_fail _ _ _ H).
  - intros value tp f la e -> Hf Hl H. rewrite Hf, Hl, H.
    now rewrite (kwargs_getitem_fail _ _ _ H).
Qed.

End tshelpers_facts.

(** * Further properties of [nearest_power_nodes]: ties and a lone pair *)

(** ** Ties between nodes *)

Lemma increasing_combine_seq {B : Type} (n a : nat) (l : list B) :
  increasing (combine (seq a n) l).
Proof.
  revert a l. induction n as [|n IH]; intros a [|x l]; simpl; try exact I.
  split; [|apply IH]. apply Forall_forall. intros [k y] Hin.
  apply in_combine_l, in_seq in Hin. simpl. lia.
Qed.

Lemma increasing_filter {B : Type} (f : nat * B -> bool) (l : list (nat * B)) :
  increasing l -> increasing (filter f l).
Proof.
  induction l as [|x l IH]; simpl; [easy|]. intros [Hx Hl].
  destruct (f x); simpl; [|now apply IH]. split; [|now apply IH].
  apply Forall_forall. intros y Hy. apply filter_In in Hy.
  rewrite Forall_forall in Hx. now apply Hx.
Qed.

Lemma increasing_map {B C : Type} (g : nat * B -> nat * C) (l : list (nat * B)) :
  (forall x, fst (g x) = fst x) -> increasing l -> increasing (map g l).
Proof.
  intro Hg. induction l as [|x l IH]; simpl; [easy|]. intros [Hx Hl].
  split; [|now apply IH]. apply Forall_forall. intros y Hy.
  apply in_map_iff in Hy. destruct Hy as [z [<- Hz]]. rewrite !Hg.
  rewrite Forall_forall in Hx. now apply Hx.
Qed.

Lemma increasing_before {B : Type} (l1 l2 : list (nat * B)) (x y : nat * B) :
  increasing (l1 ++ x :: l2) -> In y (l1 ++ x :: l2) ->
  (fst y < fst x)%nat -> In y l1.
Proof.
  induction l1 as [|a l1 IH]; simpl; intros [Ha Hl] Hin Hlt.
  - destruct Hin as [-> | Hin]; [lia|].
    rewrite Forall_forall in Ha. specialize (Ha y Hin). lia.
  - destruct Hin as [-> | Hin]; [now left | right; now apply IH].
Qed.

(** The row chosen by [idxmin] carries a value strictly smaller than every
    row before it. *)
Lemma idxmin_first (rows : list (nat * distance)) (k : nat) (e : distance) :
  idxmin rows = Some (k, e) ->
  exists l1 l2, rows = l1 ++ (k, e) :: l2 /\
                forall j d, In (j, d) l1 -> dist_ltb e d = true.
Proof.
  revert k e. induction rows as [|[j0 d0] rest IH]; simpl; intros k e;
    [discriminate|].
  destruct (idxmin rest) as [[k' e']|] eqn:E.
  - destruct (dist_ltb e' d0) eqn:L; intro H; injection H as <- <-.
    + destruct (IH _ _ eq_refl) as (l1 & l2 & -> & Hl1).
      exists ((j0, d0) :: l1), l2. split; [reflexivity|].
      intros j d [Hj | Hj]; [injection Hj as <- <-; exact L | eauto].
    + exists [], rest. split; [reflexivity | intros j d []].
  - intro H. injection H as <- <-. exists [], rest.
    split; [reflexivity | intros j d []].
Qed.

(** X17: ties between nodes go to the first: every node that nominated the
    same resource as the winner and stands before it in the node table is
    strictly farther from that resource than the winner. *)
Theorem X17_first_node_wins_ties (st : tables) (p w j : nat) :
  In (p, w) (node_pairs st) ->
  nth_error (snd (nominations st)) j = Some p ->
  (j < w)%nat ->
  dist_ltb (nth w (fst (nominations st)) Inf)
           (nth j (fst (nominations st)) Inf) = true.
Proof.
  intros Hin Hj Hlt. unfold node_pairs in Hin.
  pose proof (nominations_length st) as Hlen.
  apply In_groupby_idxmin in Hin. destruct Hin as [_ [e E]].
  pose proof (idxmin_In _ _ _ E) as Hw.
  apply In_group, (In_pairs_frame _ _ _ _ _ Hlen) in Hw. destruct Hw as [_ Hw].
  assert (Hd : exists d, nth_error (fst (nominations st)) j = Some d).
  { destruct (nth_error (fst (nominations st)) j) as [d|] eqn:Ed; [eauto|].
    apply nth_error_None in Ed.
    assert (nth_error (snd (nominations st)) j <> None) as H%nth_error_Some
      by congruence. lia. }
  destruct Hd as [d Hd].
  rewrite (nth_error_nth _ _ Inf Hd), (nth_error_nth _ _ Inf Hw).
  destruct (idxmin_first _ _ _ E) as (l1 & l2 & Hsplit & Hl1).
  apply (Hl1 j d).
  apply (increasing_before l1 l2 (w, e) (j, d)); [| |exact Hlt].
  - rewrite <- Hsplit. unfold group, pairs_frame.
    apply increasing_map; [reflexivity|].
    apply increasing_filter, increasing_combine_seq.
  - rewrite <- Hsplit. apply In_group, In_pairs_frame; auto.
Qed.

(** ** One node and one resource *)


(** * The further properties on the scenarios *)

(** X1 on the scenario with the single site: nine passes allowed, three
    taken. *)
Lemma X1_witness :
  nearest_power_nodes 9 example_nodes short_resources
  = nearest_power_nodes (pass_bound short_loaded) example_nodes short_resources /\
  ((exists tbl,
      nearest_power_nodes 9 example_nodes short_resources = Some (Ok tbl)) \/
   nearest_power_nodes 9 example_nodes short_resources = Some (Raise IndexError)).
Proof.
  apply (X1_always_stops example_nodes short_resources short_loaded 9).
  - split; [reflexivity | split; by_rows].
  - vm_compute. lia.
Defined.


(** X4 on the scenario. *)
Lemma X4_witness :
  Forall (fun row =>
            Forall (fun k => In k (index example_resources) /\
                             positive_site example_loaded k)
                   (cells (out_site_id row)))
         (out_rows example_result).
Proof.
  apply (X4_sites_exist_and_positive example_nodes example_resources
           example_loaded 4).
  - split; [reflexivity | split; by_rows].
  - reflexivity.
Defined.

(** X5 on the scenario with the idle node 3. *)
Lemma X5_witness :
  exists row, In row (out_rows idle_result) /\ out_name row = 3%Z /\
              out_site_id row = None /\ out_site_fracs row = None.
Proof.
  apply (X5_no_demand_no_site idle_nodes example_resources idle_loaded 5
           idle_result (mkNode 3 2 2 0 None None 0)).
  - split; [reflexivity | split; by_rows].
  - reflexivity.
  - right. right. now left.
  - simpl. lra.
Defined.

(** X6 on the scenario. *)
Lemma X6_witness :
  out_columns example_result
  = ["latitude"; "longitude"; "capacity"; "site_id"; "site_fracs"]%string /\
  map row_values (out_rows example_result)
  = combine (index example_nodes) (map (broadcast 3) (values example_nodes)) /\
  (Forall (fun row => length row = 3%nat) (values example_nodes) ->
   map row_values (out_rows example_result)
   = combine (index example_nodes) (values example_nodes)).
Proof.
  apply (X6_request_comes_back example_nodes example_resources example_loaded 4).
  - split; [reflexivity | split; by_rows].
  - reflexivity.
Defined.

(** X7 on the scenario: after two passes node 2 holds a part of site 101;
    its returned row starts with it. *)
Lemma X7_witness :
  exists row more,
    In row (out_rows example_result) /\ out_name row = 2%Z /\
    row_assignments row
    = node_assignments (mkNode 2 1 0 4 (Some [101%Z]) (Some [2 # 10]) 2) ++ more.
Proof.
  apply (X7_assignments_only_grow example_nodes example_resources example_loaded
           example_after_two_passes 2 4 example_result
           (mkNode 2 1 0 4 (Some [101%Z]) (Some [2 # 10]) 2)).
  - split; [reflexivity | split; by_rows].
  - reflexivity.
  - reflexivity.
  - right. now left.
Defined.

(** X8 on the weather tables. *)
Lemma X8_witness :
  (0 <= met_site_id (mkMetRow 1 5 4 1) < Z.of_nat (length [(0, 0); (5, 5)]))%Z /\
  exists p, nth_error [(0, 0); (5, 5)] (Z.to_nat (met_site_id (mkMetRow 1 5 4 1)))
            = Some p.
Proof.
  apply (X8_met_site_is_a_position met_nodes met_resources met_result
           [(0, 0); (5, 5)] (mkMetRow 1 5 4 1)).
  - reflexivity.
  - reflexivity.
  - discriminate.
  - repeat (constructor; [split; simpl; lra|]); constructor.
  - now left.
  - split; simpl; lra.
Defined.

(** X9 on the weather tables. *)
Lemma X9_witness :
  met_columns met_result = ["latitude"; "longitude"; "site_id"]%string /\
  map met_row_values (met_rows met_result)
  = combine (index met_nodes) (map (broadcast 2) (values met_nodes)) /\
  (Forall (fun row => length row = 2%nat) (values met_nodes) ->
   map met_row_values (met_rows met_result)
   = combine (index met_nodes) (values met_nodes)).
Proof.
  apply (X9_met_request_comes_back met_nodes met_resources met_result).
  reflexivity.
Defined.

(** X15 on the day-ahead dispatch forecast. *)
Lemma X15_witness :
  tshelpers.get_enum_instance (tshelpers.ByName "dispatch_lookahead")
    tshelpers.forecast_types
  = tshelpers.Done (tshelpers.forecast_type example_forecast) /\
  tshelpers.Temporal example_temporal
  = tshelpers.Temporal (tshelpers.temporal_params example_forecast) /\
  tshelpers.leadtimes example_forecast = None /\
  (exists f, tshelpers.kwargs_getitem
               [("frequency"%string, tshelpers.Delta 24);
                ("lookahead"%string, tshelpers.Delta 48);
                ("leadtime"%string, tshelpers.Delta 12)] "frequency"
             = tshelpers.Done f /\
             tshelpers.frequency example_forecast = Some f) /\
  (exists la, tshelpers.kwargs_getitem
                [("frequency"%string, tshelpers.Delta 24);
                 ("lookahead"%string, tshelpers.Delta 48);
                 ("leadtime"%string, tshelpers.Delta 12)] "lookahead"
              = tshelpers.Done la /\
              tshelpers.lookahead example_forecast = Some la) /\
  (exists lt, tshelpers.kwargs_getitem
                [("frequency"%string, tshelpers.Delta 24);
                 ("lookahead"%string, tshelpers.Delta 48);
                 ("leadtime"%string, tshelpers.Delta 12)] "leadtime"
              = tshelpers.Done lt /\
              tshelpers.leadtime example_forecast = Some lt).
Proof.
  apply (tshelpers_facts.X15_parameters_of_the_type
           (tshelpers.ByName "dispatch_lookahead")
           (tshelpers.Temporal example_temporal)
           [("frequency"%string, tshelpers.Delta 24);
            ("lookahead"%string, tshelpers.Delta 48);
            ("leadtime"%string, tshelpers.Delta 12)]
           example_forecast).
  reflexivity.
Defined.

(** X17 on the two nodes that name site 101: the second node wins, and the
    first is strictly farther. *)
Lemma X17_witness :
  dist_ltb (nth 1 (fst (nominations far_first_loaded)) Inf)
           (nth 0 (fst (nominations far_first_loaded)) Inf) = true.
Proof.
  apply (X17_first_node_wins_ties far_first_loaded 0 1 0).
  - now left.
  - reflexivity.
  - lia.
Defined.


(** * Remaining capacities never grow back *)

Lemma Forall2_map_same {A : Type} (R : A -> A -> Prop) (g : A -> A) (l : list A) :
  (forall x, In x l -> R x (g x)) -> Forall2 R l (map g l).
Proof.
  induction l as [|a l IH]; intro H; simpl; constructor.
  - apply H. now left.
  - apply IH. intros x Hx. apply H. now right.
Qed.

Lemma Forall2_chain {A : Type} (R : A -> A -> Prop) (l1 l2 l3 : list A) :
  (forall x y z, R x y -> R y z -> R x z) ->
  Forall2 R l1 l2 -> Forall2 R l2 l3 -> Forall2 R l1 l3.
Proof.
  intros Ht H12. revert l3. induction H12 as [|a b l1 l2 Hab _ IH];
    intros l3 H23; inversion H23; subst; constructor; eauto.
Qed.

Lemma never_more_refl (s : tables) : never_more s s.
Proof.
  split; rewrite <- (map_id (_ s)) at 2; apply Forall2_map_same;
    intros x _; split; [reflexivity | lra | reflexivity | lra].
Qed.

Lemma never_more_trans (s1 s2 s3 : tables) :
  never_more s1 s2 -> never_more s2 s3 -> never_more s1 s3.
Proof.
  intros [Hr Hn] [Hr' Hn']. split.
  - refine (Forall2_chain _ _ _ _ _ Hr Hr').
    intros x y z [E1 L1] [E2 L2]. split; [congruence | lra].
  - refine (Forall2_chain _ _ _ _ _ Hn Hn').
    intros x y z [E1 L1] [E2 L2]. split; [congruence | lra].
Qed.

(** One application leaves every row its label, and no row more remaining
    capacity than it had. *)
Lemma drawn_never_more (st : tables) (r : resource) (n : node) :
  base st -> In r (r_nodes st) -> In n (nodes st) ->
  0 < res_r_cap r -> 0 < r_cap n -> never_more st (drawn st r n).
Proof.
  intros (Hr & Hn & _) Hinr Hinn Hrp Hnp.
  unfold never_more, drawn, loc_set; cbn [r_nodes nodes]. split.
  - apply Forall2_map_same. intros x Hx.
    destruct (Z.eqb_spec (res_name x) (res_name r)) as [E|_];
      [|split; [reflexivity | lra]].
    rewrite (same_key_eq res_name _ x r Hr Hx Hinr E), res_after_name.
    split; [reflexivity|].
    destruct (apportion_cases r n) as [(H1 & H2 & H3) | (H1 & H2 & H3)]; lra.
  - apply Forall2_map_same. intros x Hx.
    destruct (Z.eqb_spec (node_name x) (node_name n)) as [E|_];
      [|split; [reflexivity | lra]].
    rewrite (same_key_eq node_name _ x n Hn Hx Hinn E), node_after_name.
    split; [reflexivity|].
    destruct (apportion_cases r n) as [(H1 & H2 & H3) | (H1 & H2 & H3)]; lra.
Qed.

Lemma run_draws_never_more (st st' : tables) (l : list (label * label)) :
  run_draws st l st' -> base st -> never_more st st'.
Proof.
  induction 1 as [st | st r n rest st' Hinr Hinn Hr Hn Hrun IH]; intro Hb.
  - apply never_more_refl.
  - apply never_more_trans with (drawn st r n).
    + now apply drawn_never_more.
    + apply IH. now apply drawn_base.
Qed.

(** Rows without remaining capacity are not written again. *)
Lemma run_draws_spent_res (st st' : tables) (l : list (label * label))
  (r : resource) :
  run_draws st l st' -> base st -> In r (r_nodes st) -> res_r_cap r <= 0 ->
  In r (r_nodes st').
Proof.
  induction 1 as [st | st r0 n0 rest st' Hinr Hinn Hr Hn Hrun IH];
    intros Hb Hin Hz; [exact Hin|].
  apply IH; [now apply drawn_base | | exact Hz].
  unfold drawn; cbn [r_nodes]. apply In_loc_set_other; [exact Hin|].
  intro E. destruct Hb as (Hnd & _).
  rewrite (same_key_eq res_name _ r r0 Hnd Hin Hinr E) in Hz. lra.
Qed.

Lemma run_draws_spent_node (st st' : tables) (l : list (label * label))
  (n : node) :
  run_draws st l st' -> base st -> In n (nodes st) -> r_cap n <= 0 ->
  In n (nodes st').
Proof.
  induction 1 as [st | st r0 n0 rest st' Hinr Hinn Hr Hn Hrun IH];
    intros Hb Hin Hz; [exact Hin|].
  apply IH; [now apply drawn_base | | exact Hz].
  unfold drawn; cbn [nodes]. apply In_loc_set_other; [exact Hin|].
  intro E. destruct Hb as (_ & Hnd & _).
  rewrite (same_key_eq node_name _ n n0 Hnd Hin Hinn E) in Hz. lra.
Qed.

(** A sequence of applications that is not empty ends with a resource or a
    node that had capacity left and has none. *)
Lemma run_draws_zeroes (st st' : tables) (l : list (label * label)) :
  run_draws st l st' -> base st -> l <> [] ->
  (exists r r', In r (r_left st) /\ In r' (r_nodes st') /\
                res_name r' = res_name r /\ res_r_cap r' == 0) \/
  (exists n n', In n (nodes_left st) /\ In n' (nodes st') /\
                node_name n' = node_name n /\ r_cap n' == 0).
Proof.
  intros Hrun Hb Hne.
  destruct Hrun as [st | st r n rest st' Hinr Hinn Hr Hn Hrun]; [easy|].
  pose proof (drawn_base st r n Hb Hinn) as Hb'.
  destruct (apportion_cases r n) as [(_ & Hz & _) | (_ & Hz & _)].
  - left. exists r, (res_after r n). split; [now apply r_left_In|].
    split; [|split; [apply res_after_name | exact Hz]].
    apply (run_draws_spent_res _ _ _ _ Hrun Hb'); [|lra].
    unfold drawn; cbn [r_nodes]. now apply (In_loc_set_same res_name _ _ _ r).
  - right. exists n, (node_after r n). split; [now apply nodes_left_In|].
    split; [|split; [apply node_after_name | exact Hz]].
    apply (run_draws_spent_node _ _ _ _ Hrun Hb'); [|lra].
    unfold drawn; cbn [nodes]. now apply (In_loc_set_same node_name _ _ _ n).
Qed.

Lemma stops_within_bound (nd rm : DataFrame) (st0 : tables) (fuel : nat) :
  loads nd rm st0 -> (pass_bound st0 <= fuel)%nat ->
  (exists tbl, nearest_power_nodes fuel nd rm = Some (Ok tbl)) \/
  nearest_power_nodes fuel nd rm = Some (Raise IndexError).
Proof.
  intros Hl Hfuel. destruct (loads_spec nd rm st0 Hl) as (_ & Hb & _).
  pose proof (measure_le st0) as Hm.
  unfold nearest_power_nodes. rewrite (allocate_loads _ nd rm st0 Hl).
  destruct (while_true_total fuel st0 Hb) as [[st' E] | E];
    try (unfold pass_bound in Hfuel; lia); rewrite E; eauto.
Qed.

(** * Binary64 and the contract of the query *)

(** ** The embedding above is the exact run with the query of the file *)

Lemma Over_apply_pair_exact (ri ni : list label) (st : tables) (pr : nat * nat) :
  Over.apply_pair exact ri ni st pr = apply_pair ri ni st pr.
Proof. reflexivity. Qed.

Lemma Over_for_each_exact (ri ni : list label) (ps : list (nat * nat))
  (st : tables) :
  Over.for_each exact ri ni ps st = for_each ri ni ps st.
Proof.
  revert st. induction ps as [|pr ps IH]; intro st; [reflexivity|].
  cbn [Over.for_each for_each]. rewrite Over_apply_pair_exact.
  destruct (apply_pair ri ni st pr); [apply IH | reflexivity].
Qed.

Lemma Over_pass_exact (st : tables) : Over.pass exact query st = pass st.
Proof. unfold Over.pass, pass. apply Over_for_each_exact. Qed.

Lemma Over_nearest_power_nodes_exact (fuel : nat) (nd rm : DataFrame) :
  Over.nearest_power_nodes exact query fuel nd rm = nearest_power_nodes fuel nd rm.
Proof.
  unfold Over.nearest_power_nodes, nearest_power_nodes, Over.allocate, allocate.
  destruct (load nd rm) as [st|e]; [|reflexivity].
  assert (E : Over.while_true exact query fuel st = while_true fuel st).
  { revert st. induction fuel as [|fuel IH]; intro st; [reflexivity|].
    cbn [Over.while_true while_true]. rewrite Over_pass_exact.
    destruct (pass st) as [st'|]; [|reflexivity].
    destruct (all_filled st'); [reflexivity | apply IH]. }
  now rewrite E.
Qed.

Lemma query_answers : answers query.
Proof.
  intros tree xs. unfold query; cbn [fst snd]. rewrite !length_map.
  split; [reflexivity|]. split; [reflexivity|].
  intros Hne _ _. apply Forall_forall. intros p Hp.
  apply in_map_iff in Hp. destruct Hp as [x [<- _]].
  now apply query1_in_range.
Qed.

(** ** Rounding *)

Lemma two_power_pos (k : Z) : 0 < 2 ^ k.
Proof. apply Qpower_0_lt. reflexivity. Qed.

Lemma two_power_S (k : Z) : 2 ^ (k + 1) == 2 * 2 ^ k.
Proof. rewrite Qpower_plus by discriminate. rewrite Qpower_1_r. ring. Qed.

Lemma two_power_Z (k : Z) : (0 <= k)%Z -> inject_Z (2 ^ k) == 2 ^ k.
Proof. intro H. now rewrite Zpower_Qpower. Qed.

Lemma two_power_inv (k : Z) : 2 ^ k * 2 ^ (- k) == 1.
Proof.
  rewrite <- Qpower_plus by discriminate. now replace (k + - k)%Z with 0%Z by lia.
Qed.

Lemma ilog2_spec (x : Q) :
  0 < x -> 2 ^ ilog2 x <= x /\ x < 2 ^ (ilog2 x + 1).
Proof.
  intro Hx. unfold ilog2.
  destruct x as [n d]. unfold Qlt in Hx. cbn in Hx. rewrite Z.mul_1_r in Hx.
  cbn [Qnum Qden].
  set (a := Z.log2 n). set (b := Z.log2 (Z.pos d)).
  destruct (Z.log2_spec n Hx) as [Ha1 Ha2]. fold a in Ha1, Ha2.
  destruct (Z.log2_spec (Z.pos d) eq_refl) as [Hb1 Hb2]. fold b in Hb1, Hb2.
  assert (Ha0 : (0 <= a)%Z) by apply Z.log2_nonneg.
  assert (Hb0 : (0 <= b)%Z) by apply Z.log2_nonneg.
  assert (Hx' : (n # d) * inject_Z (Z.pos d) == inject_Z n).
  { unfold Qeq, Qmult, inject_Z. simpl. rewrite Pos.mul_1_r. lia. }
  pose proof (two_power_pos a) as Pa. pose proof (two_power_pos b) as Pb.
  pose proof (two_power_pos (a - b)) as Pab.
  assert (Eab : 2 ^ (a - b) * 2 ^ b == 2 ^ a).
  { rewrite <- Qpower_plus by discriminate.
    now replace (a - b + b)%Z with a by lia. }
  assert (Qa1 : 2 ^ a <= inject_Z n).
  { rewrite <- two_power_Z by assumption. now rewrite <- Zle_Qle. }
  assert (Qa2 : inject_Z n < 2 * 2 ^ a).
  { rewrite <- two_power_S, <- two_power_Z by lia. rewrite <- Zlt_Qlt.
    now rewrite Z.add_1_r. }
  assert (Qb1 : 2 ^ b <= inject_Z (Z.pos d)).
  { rewrite <- two_power_Z by assumption. now rewrite <- Zle_Qle. }
  assert (Qb2 : inject_Z (Z.pos d) < 2 * 2 ^ b).
  { rewrite <- two_power_S, <- two_power_Z by lia. rewrite <- Zlt_Qlt.
    now rewrite Z.add_1_r. }
  assert (Hpos : 0 < n # d) by (unfold Qlt; cbn; lia).
  destruct (Qle_bool (2 ^ (a - b)) (n # d)) eqn:L.
  - apply Qle_bool_iff in L. split; [exact L|].
    rewrite two_power_S. nra.
  - assert (L' : n # d < 2 ^ (a - b)).
    { apply Qnot_le_lt. intro H. apply Qle_bool_iff in H. congruence. }
    replace (a - b - 1 + 1)%Z with (a - b)%Z by lia. split; [|exact L'].
    assert (E1 : 2 * 2 ^ (a - b - 1) == 2 ^ (a - b)).
    { rewrite <- two_power_S.
      now replace (a - b - 1 + 1)%Z with (a - b)%Z by lia. }
    pose proof (two_power_pos (a - b - 1)). nra.
Qed.

Lemma rne_error (y : Q) :
  y - (1 # 2) <= inject_Z (rne y) /\ inject_Z (rne y) <= y + (1 # 2).
Proof.
  unfold rne. pose proof (Qfloor_le y) as Hlo. pose proof (Qlt_floor y) as Hhi.
  rewrite inject_Z_plus in Hhi. change (inject_Z 1) with 1 in Hhi.
  destruct (Qcompare_spec (y - inject_Z (Qfloor y)) (1 # 2)) as [E | L | G].
  - destruct (Z.even (Qfloor y)); [lra|].
    rewrite inject_Z_plus. change (inject_Z 1) with 1. lra.
  - lra.
  - rewrite inject_Z_plus. change (inject_Z 1) with 1. lra.
Qed.

Lemma rne_whole (y : Q) (z : Z) : y == inject_Z z -> rne y = z.
Proof.
  intro E. unfold rne.
  assert (Ef : Qfloor y = z) by (rewrite (Qfloor_comp y _ E); apply Qfloor_Z).
  rewrite Ef.
  destruct (Qcompare_spec (y - inject_Z z) (1 # 2)) as [H | H | H];
    try reflexivity; exfalso; lra.
Qed.

Lemma Qred_whole (z : Z) : Qred (inject_Z z) = inject_Z z.
Proof. apply Qred_identity. simpl. apply Z.gcd_1_r. Qed.

(** Whole numbers below [2 ^ 53] in magnitude are binary64 numbers. *)
Lemma round_whole (z : Z) :
  (- 2 ^ 53 < z < 2 ^ 53)%Z -> round (inject_Z z) = inject_Z z.
Proof.
  intro Hz. unfold round. cbn [Qnum inject_Z].
  destruct (Z.eq_dec z 0) as [-> | Hnz]; [reflexivity|].
  change (z # 1) with (inject_Z z).
  set (e := ilog2 (Qabs (inject_Z z))).
  assert (Ha : Qabs (inject_Z z) == inject_Z (Z.abs z)) by reflexivity.
  assert (Hpos : 0 < Qabs (inject_Z z)).
  { rewrite Ha. change 0 with (inject_Z 0). rewrite <- Zlt_Qlt. lia. }
  destruct (ilog2_spec _ Hpos) as [Hlo Hhi]. fold e in Hlo, Hhi.
  rewrite Ha in Hlo, Hhi.
  assert (He1 : (e < 53)%Z).
  { apply (Qpower_lt_compat_l_inv 2); [|reflexivity].
    apply Qle_lt_trans with (inject_Z (Z.abs z)); [exact Hlo|].
    rewrite <- (two_power_Z 53) by lia. rewrite <- Zlt_Qlt. lia. }
  assert (He0 : (0 <= e)%Z).
  { assert (H : (0 < e + 1)%Z); [|lia].
    apply (Qpower_lt_compat_l_inv 2); [|reflexivity].
    apply Qle_lt_trans with (inject_Z (Z.abs z)); [|exact Hhi].
    change (2 ^ 0) with (inject_Z 1). rewrite <- Zle_Qle. lia. }
  replace (Z.max (e - 52) (-1074)) with (e - 52)%Z by lia.
  assert (Hy : inject_Z z * 2 ^ (- (e - 52)) == inject_Z (z * 2 ^ (52 - e))).
  { rewrite inject_Z_mult, two_power_Z by lia.
    now replace (- (e - 52))%Z with (52 - e)%Z by lia. }
  rewrite (rne_whole _ _ Hy).
  assert (Hr : inject_Z (z * 2 ^ (52 - e)) * 2 ^ (e - 52) == inject_Z z).
  { rewrite inject_Z_mult, two_power_Z by lia.
    replace (52 - e)%Z with (- (e - 52))%Z by lia.
    rewrite <- Qmult_assoc, (Qmult_comm (2 ^ _)), two_power_inv. ring. }
  destruct z as [|p|p]; [easy | |];
    (etransitivity; [apply Qred_complete; exact Hr | apply Qred_whole]).
Qed.

(** In the normal range a number and its rounding differ by at most the
    unit roundoff, relatively. *)
Lemma round_error (x : Q) :
  2 ^ (-1022) <= x ->
  x - x * unit_roundoff <= round x /\ round x <= x + x * unit_roundoff.
Proof.
  intro Hx. pose proof (two_power_pos (-1022)) as P0.
  assert (Hpos : 0 < x) by lra.
  unfold round. destruct (Qnum x) as [|p|p] eqn:En.
  - exfalso. unfold Qlt in Hpos. simpl in Hpos. lia.
  - rewrite Qred_correct.
    assert (Ha : Qabs x == x) by (apply Qabs_pos; lra).
    set (e := ilog2 (Qabs x)).
    assert (Hpa : 0 < Qabs x) by now rewrite Ha.
    destruct (ilog2_spec _ Hpa) as [Hlo Hhi]. fold e in Hlo, Hhi.
    rewrite Ha in Hlo, Hhi.
    assert (He : (-1022 <= e)%Z).
    { assert (H : (-1022 < e + 1)%Z); [|lia].
      apply (Qpower_lt_compat_l_inv 2); [|reflexivity].
      now apply Qle_lt_trans with x. }
    replace (Z.max (e - 52) (-1074)) with (e - 52)%Z by lia.
    set (k := (e - 52)%Z). set (y := x * 2 ^ (- k)).
    destruct (rne_error y) as [R1 R2].
    pose proof (two_power_pos k) as Pk. pose proof (two_power_inv k) as Ik.
    assert (Ek : 2 ^ e * unit_roundoff == 2 ^ k * (1 # 2)).
    { unfold k. rewrite Qpower_minus by discriminate.
      change (2 ^ 52) with (4503599627370496 # 1). unfold unit_roundoff.
      field. }
    assert (Ey : y * 2 ^ k == x).
    { unfold y. rewrite <- Qmult_assoc, (Qmult_comm (2 ^ (- k))), Ik. ring. }
    assert (Hu : 0 < unit_roundoff) by reflexivity.
    split; nra.
  - exfalso. unfold Qlt in Hpos. simpl in Hpos. lia.
Qed.

(** On whole numbers the subtraction of lines 89 and 92 is exact. *)
Lemma sub_whole (x y : Q) :
  whole_number x -> whole_number y -> y <= x ->
  fadd binary64 x (fmul binary64 (-1) y) = x + -1 * y /\
  whole_number (x + -1 * y).
Proof.
  intros (a & -> & Ha) (b & -> & Hb) Hle.
  rewrite <- Zle_Qle in Hle. cbn [fadd fmul binary64].
  assert (E1 : -1 * inject_Z b = inject_Z (- b)).
  { unfold Qmult, inject_Z. cbn [Qnum Qden]. f_equal; lia. }
  assert (E2 : inject_Z a + inject_Z (- b) = inject_Z (a - b)).
  { unfold Qplus, inject_Z. cbn [Qnum Qden]. f_equal; lia. }
  rewrite E1, (round_whole (- b)) by lia.
  rewrite E2, (round_whole (a - b)) by lia.
  split; [reflexivity|]. exists (a - b)%Z. split; [reflexivity | lia].
Qed.

(** ** A pass of the exact run with any query that answers *)

Lemma res_after_place (r : resource) (n : node) :
  (res_latitude (res_after r n), res_longitude (res_after r n))
  = (res_latitude r, res_longitude r).
Proof. unfold res_after, apportion. now destruct (Qgtb _ _). Qed.

Lemma node_after_place (r : resource) (n : node) :
  (latitude (node_after r n), longitude (node_after r n))
  = (latitude n, longitude n).
Proof. unfold node_after, apportion. now destruct (Qgtb _ _). Qed.

Lemma drawn_placed (st : tables) (r : resource) (n : node) :
  placed st -> In r (r_nodes st) -> In n (nodes st) -> placed (drawn st r n).
Proof.
  intros [Hr Hn] Hinr Hinn. unfold placed, drawn; cbn [r_nodes nodes]. split.
  - apply Forall_loc_set; [exact Hr|]. rewrite res_after_place.
    rewrite Forall_forall in Hr. now apply Hr.
  - apply Forall_loc_set; [exact Hn|]. rewrite node_after_place.
    rewrite Forall_forall in Hn. now apply Hn.
Qed.

Lemma run_draws_placed (st st' : tables) (l : list (label * label)) :
  run_draws st l st' -> placed st -> placed st'.
Proof.
  apply (run_draws_inv placed). intros s r n H Hinr Hinn _ _.
  now apply drawn_placed.
Qed.

Section Answering.
Variable tree_query : list point -> list point -> list distance * list nat.
Hypothesis tree_query_answers : answers tree_query.

Lemma Over_nominations_length (st : tables) :
  length (snd (Over.nominations tree_query st))
  = length (fst (Over.nominations tree_query st)).
Proof.
  unfold Over.nominations.
  destruct (tree_query_answers
              (cKDTree (map (fun r => (res_latitude r, res_longitude r)) (r_left st)))
              (map (fun n => (latitude n, longitude n)) (nodes_left st)))
    as (H1 & H2 & _).
  now rewrite H1, H2.
Qed.

Lemma Over_nominations_pos_length (st : tables) :
  length (snd (Over.nominations tree_query st)) = length (nodes_left st).
Proof.
  unfold Over.nominations.
  destruct (tree_query_answers
              (cKDTree (map (fun r => (res_latitude r, res_longitude r)) (r_left st)))
              (map (fun n => (latitude n, longitude n)) (nodes_left st)))
    as (_ & H2 & _).
  now rewrite H2, length_map.
Qed.

Lemma Over_nominations_in_range (st : tables) (j p : nat) :
  placed st -> r_left st <> [] ->
  nth_error (snd (Over.nominations tree_query st)) j = Some p ->
  (p < length (r_left st))%nat.
Proof.
  intros [Hpr Hpn] Hne Hj. unfold Over.nominations in Hj.
  destruct (tree_query_answers
              (cKDTree (map (fun r => (res_latitude r, res_longitude r)) (r_left st)))
              (map (fun n => (latitude n, longitude n)) (nodes_left st)))
    as (_ & _ & H3).
  rewrite <- (length_map (fun r => (res_latitude r, res_longitude r))).
  assert (F : Forall (fun p => (p < length (cKDTree (map (fun r => (res_latitude r, res_longitude r)) (r_left st))))%nat)
                (snd (tree_query
                        (cKDTree (map (fun r => (res_latitude r, res_longitude r)) (r_left st)))
                        (map (fun n => (latitude n, longitude n)) (nodes_left st))))).
  { apply H3.
    - unfold cKDTree. destruct (r_left st); [easy | discriminate].
    - unfold cKDTree. apply Forall_forall. intros x Hx.
      apply in_map_iff in Hx. destruct Hx as [r [<- Hr]].
      apply r_left_In in Hr. rewrite Forall_forall in Hpr. now apply Hpr.
    - apply Forall_forall. intros x Hx.
      apply in_map_iff in Hx. destruct Hx as [n [<- Hn]].
      apply nodes_left_In in Hn. rewrite Forall_forall in Hpn. now apply Hpn. }
  rewrite Forall_forall in F. apply (F p). eapply nth_error_In; eauto.
Qed.

Lemma Over_node_pairs_rows (st : tables) (i j : nat) :
  placed st -> r_left st <> [] -> In (i, j) (Over.node_pairs tree_query st) ->
  exists r n, nth_error (r_index st) i = Some (res_name r) /\
              nth_error (n_index st) j = Some (node_name n) /\
              In r (r_nodes st) /\ In n (nodes st) /\
              0 < res_r_cap r /\ 0 < r_cap n.
Proof.
  intros Hp Hne Hin. unfold Over.node_pairs in Hin.
  apply groupby_idxmin_pos in Hin; [|apply Over_nominations_length].
  pose proof (Over_nominations_in_range st j i Hp Hne Hin) as Hi.
  assert (Hj : (j < length (nodes_left st))%nat).
  { rewrite <- Over_nominations_pos_length. apply nth_error_Some. congruence. }
  destruct (nth_error (r_left st) i) as [r|] eqn:Er;
    [|apply nth_error_None in Er; lia].
  destruct (nth_error (nodes_left st) j) as [n|] eqn:En;
    [|apply nth_error_None in En; lia].
  exists r, n. unfold r_index, n_index. rewrite !nth_error_map, Er, En.
  apply nth_error_In in Er, En. apply r_left_In in Er. apply nodes_left_In in En.
  tauto.
Qed.

Lemma Over_pass_run (st : tables) :
  base st -> placed st -> r_left st <> [] ->
  exists st', Over.pass exact tree_query st = Ok st' /\
              run_draws st (label_pairs (r_index st) (n_index st)
                                        (Over.node_pairs tree_query st)) st'.
Proof.
  intros Hb Hp Hne. unfold Over.pass. rewrite Over_for_each_exact.
  destruct Hb as (Hr & Hn & Ha).
  apply for_each_run.
  - unfold r_index, r_left. now apply NoDup_map_filter.
  - unfold n_index, nodes_left. now apply NoDup_map_filter.
  - apply groupby_idxmin_fst_NoDup.
  - apply groupby_idxmin_snd_NoDup, Over_nominations_length.
  - now repeat split.
  - intros i j Hin. now apply Over_node_pairs_rows.
Qed.

Lemma Over_pass_no_nodes (F : arithmetic) (st : tables) :
  nodes_left st = [] -> Over.pass F tree_query st = Ok st.
Proof.
  intro E. unfold Over.pass, Over.node_pairs.
  pose proof (Over_nominations_pos_length st) as H1.
  pose proof (Over_nominations_length st) as H2.
  rewrite E in H1. rewrite H1 in H2.
  destruct (snd (Over.nominations tree_query st)); [|discriminate].
  destruct (fst (Over.nominations tree_query st)); [|discriminate].
  reflexivity.
Qed.

Lemma Over_node_pairs_nonempty (st : tables) :
  nodes_left st <> [] -> Over.node_pairs tree_query st <> [].
Proof.
  intros Hne E.
  destruct (nth_error (snd (Over.nominations tree_query st)) 0) as [p|] eqn:Ep.
  - destruct (groupby_idxmin_covers _ (fst (Over.nominations tree_query st)) 0 p
                (Over_nominations_length st) Ep) as [n Hin].
    unfold Over.node_pairs in E. now rewrite E in Hin.
  - apply nth_error_None in Ep. rewrite Over_nominations_pos_length in Ep.
    destruct (nodes_left st); [easy | simpl in Ep; lia].
Qed.

Lemma Over_pass_starved (F : arithmetic) (st : tables) :
  r_left st = [] -> nodes_left st <> [] ->
  Over.pass F tree_query st = Raise IndexError.
Proof.
  intros Er Hn. pose proof (Over_node_pairs_nonempty st Hn) as Hp.
  unfold Over.pass, r_index. rewrite Er.
  destruct (Over.node_pairs tree_query st) as [|[i j] rest]; [easy|].
  cbn [Over.for_each map]. unfold Over.apply_pair, index_at. cbn [fst].
  now destruct i.
Qed.

Lemma Over_pass_ok_run (st st' : tables) :
  base st -> placed st -> Over.pass exact tree_query st = Ok st' ->
  run_draws st (label_pairs (r_index st) (n_index st)
                            (Over.node_pairs tree_query st)) st'.
Proof.
  intros Hb Hp E. destruct (r_left st) as [|r0 rl] eqn:Er.
  - destruct (nodes_left st) as [|n0 nl] eqn:En.
    + rewrite (Over_pass_no_nodes exact st En) in E. injection E as <-.
      assert (Hnil : Over.node_pairs tree_query st = []).
      { unfold Over.node_pairs.
        pose proof (Over_nominations_pos_length st) as H1.
        pose proof (Over_nominations_length st) as H2.
        rewrite En in H1. rewrite H1 in H2.
        destruct (snd (Over.nominations tree_query st)); [|discriminate].
        destruct (fst (Over.nominations tree_query st)); [|discriminate].
        reflexivity. }
      rewrite Hnil. constructor.
    + rewrite Over_pass_starved in E; [discriminate | exact Er | now rewrite En].
  - destruct (Over_pass_run st Hb Hp) as (st1 & E1 & Hrun); [now rewrite Er|].
    rewrite E1 in E. now injection E as <-.
Qed.

Lemma Over_pass_progress (st st' : tables) :
  base st -> placed st -> nodes_left st <> [] ->
  Over.pass exact tree_query st = Ok st' ->
  (measure st' + 1 <= measure st)%nat.
Proof.
  intros Hb Hp Hn E. pose proof (Over_pass_ok_run st st' Hb Hp E) as Hrun.
  pose proof (run_draws_measure _ _ _ Hrun Hb) as (_ & _ & H).
  unfold label_pairs in H. rewrite length_map in H.
  pose proof (Over_node_pairs_nonempty st Hn).
  destruct (Over.node_pairs tree_query st); [easy | simpl in H; lia].
Qed.

Lemma Over_inside_pass_run (st s : tables) (k : nat) :
  base st -> placed st -> Over.inside_pass exact tree_query k st = Ok s ->
  exists l, run_draws st l s.
Proof.
  intros Hb Hp E. unfold Over.inside_pass in E.
  rewrite Over_for_each_exact in E.
  destruct (r_left st) as [|r0 rl] eqn:Er.
  - destruct (firstn k (Over.node_pairs tree_query st)) as [|[i j] rest].
    + injection E as <-. exists []. constructor.
    + cbn [for_each] in E. unfold apply_pair, index_at, r_index in E.
      rewrite Er in E. cbn [map fst] in E. now destruct i.
  - pose proof Hb as (Hr & Hn & Ha).
    destruct (for_each_run (r_index st) (n_index st)
                (firstn k (Over.node_pairs tree_query st)))
      with (st := st) as (st' & E' & Hrun).
    + unfold r_index, r_left. now apply NoDup_map_filter.
    + unfold n_index, nodes_left. now apply NoDup_map_filter.
    + rewrite <- firstn_map. apply NoDup_firstn, groupby_idxmin_fst_NoDup.
    + rewrite <- firstn_map.
      apply NoDup_firstn, groupby_idxmin_snd_NoDup, Over_nominations_length.
    + exact Hb.
    + intros i j Hin. apply In_firstn in Hin.
      apply Over_node_pairs_rows; [exact Hp | now rewrite Er | exact Hin].
    + rewrite E' in E. injection E as <-. eauto.
Qed.

Section OverInvariant.
Variable P : tables -> Prop.
Hypothesis P_base : forall st, P st -> base st /\ placed st.
Hypothesis P_step : forall st r n,
  P st -> In r (r_nodes st) -> In n (nodes st) ->
  0 < res_r_cap r -> 0 < r_cap n -> P (drawn st r n).

Lemma Over_pass_inv (st st' : tables) :
  P st -> Over.pass exact tree_query st = Ok st' -> P st'.
Proof.
  intros HP E. destruct (P_base st HP) as [Hb Hp].
  apply (run_draws_inv P P_step st _ st' (Over_pass_ok_run st st' Hb Hp E) HP).
Qed.

Lemma Over_after_passes_inv (m : nat) (st0 st : tables) :
  P st0 -> Over.after_passes exact tree_query m st0 = Some st -> P st.
Proof.
  revert st0. induction m as [|m IH]; intros st0 HP E; simpl in E.
  - now injection E as <-.
  - destruct (Over.pass exact tree_query st0) as [st1|] eqn:E1; [|discriminate].
    destruct (all_filled st1); [discriminate|].
    apply (IH st1); [|exact E]. now apply (Over_pass_inv st0).
Qed.

Lemma Over_visits_inv (st0 s : tables) :
  P st0 -> Over.visits exact tree_query st0 s -> P s.
Proof.
  intros HP (m & k & st & Em & Ek).
  pose proof (Over_after_passes_inv m st0 st HP Em) as HPst.
  destruct (P_base st HPst) as [Hb Hp].
  destruct (Over_inside_pass_run st s k Hb Hp Ek) as [l Hrun].
  now apply (run_draws_inv P P_step st l s).
Qed.

Lemma Over_while_true_inv (fuel : nat) (st st' : tables) :
  P st -> Over.while_true exact tree_query fuel st = Some (Ok st') ->
  P st' /\ nodes_left st' = [].
Proof.
  revert st. induction fuel as [|fuel IH]; intros st HP E; simpl in E;
    [discriminate|].
  destruct (Over.pass exact tree_query st) as [st1|] eqn:E1; [|discriminate].
  pose proof (Over_pass_inv st st1 HP E1) as HP1.
  destruct (all_filled st1) eqn:F.
  - injection E as <-. split; [exact HP1|].
    unfold all_filled in F. apply Nat.eqb_eq in F.
    now apply length_zero_iff_nil.
  - now apply (IH st1).
Qed.
End OverInvariant.

Lemma Over_while_true_visits (fuel : nat) (st0 st' : tables) :
  Over.while_true exact tree_query fuel st0 = Some (Ok st') ->
  Over.visits exact tree_query st0 st'.
Proof.
  revert st0. induction fuel as [|fuel IH]; intros st0 E; simpl in E;
    [discriminate|].
  destruct (Over.pass exact tree_query st0) as [st1|] eqn:E1; [|discriminate].
  destruct (all_filled st1) eqn:F.
  - injection E as <-.
    exists 0%nat, (length (Over.node_pairs tree_query st0)), st0.
    split; [reflexivity|]. unfold Over.inside_pass. now rewrite firstn_all.
  - destruct (IH st1 E) as (m & k & st & Em & Ek).
    exists (S m), k, st. split; [|exact Ek]. simpl. now rewrite E1, F.
Qed.

(** With capacity for all demand the exact run reaches the [break] within
    [max 1 (measure st)] passes, whatever the query answers. *)
Lemma Over_while_true_sufficient (fuel : nat) (st : tables) :
  balanced (unmet st - available st) st -> placed st ->
  unmet st <= available st ->
  (1 <= fuel)%nat -> (measure st <= fuel)%nat ->
  exists st', Over.while_true exact tree_query fuel st = Some (Ok st').
Proof.
  revert st. induction fuel as [|fuel IH]; intros st Hbal Hp Hle H1 Hm; [lia|].
  cbn [Over.while_true]. destruct Hbal as (Hb & Hnn & Hd).
  destruct (nodes_left st) as [|n0 nl] eqn:En.
  - rewrite (Over_pass_no_nodes exact st En). unfold all_filled. rewrite En.
    simpl. eauto.
  - assert (Hr : r_left st <> []).
    { intro Er. pose proof (not_starved st Hnn Hle Er). congruence. }
    destruct (Over_pass_run st Hb Hp Hr) as (st1 & E1 & Hrun). rewrite E1.
    destruct (all_filled st1) eqn:F; [eauto|].
    assert (Hbal1 : balanced (unmet st - available st) st1).
    { apply (run_draws_balanced _ st st1 _ Hrun).
      exact (conj Hb (conj Hnn (Qeq_refl _))). }
    assert (Hprog : (measure st1 + 1 <= measure st)%nat).
    { apply Over_pass_progress; auto. now rewrite En. }
    apply all_filled_false in F.
    assert (Hpos : (1 <= measure st1)%nat).
    { unfold measure. destruct (nodes_left st1); [easy | simpl; lia]. }
    destruct Hbal1 as (Hb1 & Hnn1 & Hd1).
    apply IH; try lia.
    + exact (conj Hb1 (conj Hnn1 (Qeq_refl _))).
    + exact (run_draws_placed _ _ _ Hrun Hp).
    + lra.
Qed.
End Answering.

(** ** Whole numbers stay whole *)

Lemma whole_number_zero : whole_number 0.
Proof. exists 0%Z. split; [reflexivity | lia]. Qed.

Lemma whole_number_nonneg (x : Q) : whole_number x -> 0 <= x.
Proof. intros (z & -> & Hz). unfold Qle; simpl. lia. Qed.

Lemma whole_number_zero_eq (x : Q) : whole_number x -> x == 0 -> x = 0.
Proof.
  intros (z & -> & Hz) E. unfold Qeq in E; simpl in E.
  assert (z = 0%Z) by lia. now subst.
Qed.

Lemma apportion_whole (r : resource) (n : node) :
  whole_number (res_capacity r) -> whole_number (res_r_cap r) ->
  whole_number (r_cap n) ->
  whole_number (res_capacity (res_after r n)) /\
  whole_number (res_r_cap (res_after r n)) /\
  whole_number (r_cap (node_after r n)).
Proof.
  intros Hc Hr Hn. unfold res_after, node_after, append_site, apportion.
  destruct (Qgtb (r_cap n) (res_r_cap r)) eqn:G; cbn.
  - apply Qgtb_true in G. split; [exact Hc|]. split; [apply whole_number_zero|].
    apply sub_whole; auto. lra.
  - apply Qgtb_false in G. split; [exact Hc|].
    split; [|apply whole_number_zero]. now apply sub_whole.
Qed.

Lemma apply_pair_whole (ri ni : list label) (st st' : tables) (pr : nat * nat) :
  whole st -> apply_pair ri ni st pr = Ok st' -> whole st'.
Proof.
  intros [Hwr Hwn] E. unfold apply_pair in E.
  destruct (index_at ri (fst pr)) as [r_i|]; [|discriminate].
  destruct (index_at ni (snd pr)) as [n_i|]; [|discriminate].
  cbn [bind] in E.
  destruct (loc res_name (r_nodes st) r_i) as [r|] eqn:Er; [|discriminate].
  destruct (loc node_name (nodes st) n_i) as [n|] eqn:En; [|discriminate].
  cbn [bind] in E.
  apply loc_In in Er. apply loc_In in En. destruct Er as [Hr _], En as [Hn _].
  pose proof Hwr as Hwr'. pose proof Hwn as Hwn'.
  rewrite Forall_forall in Hwr', Hwn'.
  destruct (Hwr' r Hr) as [Hc Hrc]. specialize (Hwn' n Hn).
  destruct (apportion_whole r n Hc Hrc Hwn') as (A1 & A2 & A3).
  unfold res_after, node_after, append_site in A1, A2, A3. cbn in A3.
  destruct (apportion r n) as [[frac r1] n1].
  destruct (record_site n1 (res_name r) frac) as [n2|] eqn:E2; [|discriminate].
  cbn [bind] in E. injection E as <-.
  split; cbn [r_nodes nodes].
  - apply Forall_loc_set; [exact Hwr | now split].
  - apply Forall_loc_set; [exact Hwn|].
    unfold record_site in E2.
    destruct (site_id n1) as [[|i0 il]|]; [| |];
      try (injection E2 as <-; exact A3).
    destruct (site_fracs n1); [|discriminate]. injection E2 as <-. exact A3.
Qed.

Lemma for_each_whole (ri ni : list label) (ps : list (nat * nat))
  (st st' : tables) :
  whole st -> for_each ri ni ps st = Ok st' -> whole st'.
Proof.
  revert st. induction ps as [|pr ps IH]; intros st Hw E; cbn [for_each] in E.
  - now injection E as <-.
  - destruct (apply_pair ri ni st pr) as [s|] eqn:E1; [|discriminate].
    cbn [bind] in E. apply (IH s); [|exact E].
    now apply (apply_pair_whole ri ni st s pr).
Qed.

(** ** The binary64 run rounds the fractions of the exact run *)

Lemma loc_rounded (ns : list node) (k : label) :
  loc node_name (map rounded_node ns) k
  = match loc node_name ns k with
    | Ok n => Ok (rounded_node n)
    | Raise e => Raise e
    end.
Proof.
  unfold loc. induction ns as [|n ns IH]; [reflexivity|].
  cbn [map find]. change (node_name (rounded_node n)) with (node_name n).
  destruct (Z.eqb (node_name n) k); [reflexivity | exact IH].
Qed.

Lemma loc_set_rounded (ns : list node) (k : label) (v : node) :
  loc_set node_name (map rounded_node ns) k (rounded_node v)
  = map rounded_node (loc_set node_name ns k v).
Proof.
  unfold loc_set. rewrite !map_map. apply map_ext. intro n.
  change (node_name (rounded_node n)) with (node_name n).
  now destruct (Z.eqb (node_name n) k).
Qed.

Lemma record_site_rounded (n : node) (k : label) (f : Q) :
  record_site (rounded_node n) k (round f)
  = match record_site n k f with
    | Ok n' => Ok (rounded_node n')
    | Raise e => Raise e
    end.
Proof.
  destruct n as [nm la lo ca si sf rc]. unfold record_site, rounded_node.
  cbn. destruct si as [[|i il]|]; try reflexivity.
  destruct sf as [l|]; cbn; [|reflexivity]. now rewrite map_app.
Qed.

Lemma apportion_binary64 (r : resource) (n : node) :
  whole_number (res_r_cap r) -> whole_number (r_cap n) ->
  Over.apportion binary64 r (rounded_node n)
  = (round (frac_of r n), res_after r n, rounded_node (snd (apportion r n))).
Proof.
  intros Hr Hn. unfold Over.apportion, frac_of, res_after, apportion.
  change (r_cap (rounded_node n)) with (r_cap n).
  destruct (Qgtb (r_cap n) (res_r_cap r)) eqn:G; cbn [fst snd].
  - apply Qgtb_true in G.
    destruct (sub_whole (r_cap n) (res_r_cap r) Hn Hr) as [E _]; [lra|].
    rewrite E. reflexivity.
  - apply Qgtb_false in G.
    destruct (sub_whole (res_r_cap r) (r_cap n) Hr Hn G) as [E _].
    rewrite E. reflexivity.
Qed.

Lemma apply_pair_binary64 (ri ni : list label) (st : tables) (pr : nat * nat) :
  whole st ->
  Over.apply_pair binary64 ri ni (rounded st) pr
  = match apply_pair ri ni st pr with
    | Ok s => Ok (rounded s)
    | Raise e => Raise e
    end.
Proof.
  intros [Hwr Hwn]. unfold Over.apply_pair, apply_pair.
  destruct (index_at ri (fst pr)) as [r_i|]; [|reflexivity].
  destruct (index_at ni (snd pr)) as [n_i|]; [|reflexivity].
  cbn [bind]. change (r_nodes (rounded st)) with (r_nodes st).
  destruct (loc res_name (r_nodes st) r_i) as [r|] eqn:Er; [|reflexivity].
  cbn [bind]. change (nodes (rounded st)) with (map rounded_node (nodes st)).
  rewrite loc_rounded.
  destruct (loc node_name (nodes st) n_i) as [n|] eqn:En; [|reflexivity].
  cbn [bind].
  apply loc_In in Er. apply loc_In in En. destruct Er as [Hr _], En as [Hn _].
  rewrite Forall_forall in Hwr, Hwn.
  destruct (Hwr r Hr) as [_ Hrc]. specialize (Hwn n Hn).
  rewrite (apportion_binary64 r n Hrc Hwn).
  unfold frac_of, res_after.
  destruct (apportion r n) as [[frac r1] n1]. cbn [fst snd].
  rewrite record_site_rounded.
  destruct (record_site n1 (res_name r) frac) as [n2|]; [|reflexivity].
  cbn [bind]. unfold rounded; cbn [r_nodes nodes].
  now rewrite loc_set_rounded.
Qed.

Lemma for_each_binary64 (ri ni : list label) (ps : list (nat * nat))
  (st : tables) :
  whole st ->
  Over.for_each binary64 ri ni ps (rounded st)
  = match for_each ri ni ps st with
    | Ok s => Ok (rounded s)
    | Raise e => Raise e
    end.
Proof.
  revert st. induction ps as [|pr ps IH]; intros st Hw; [reflexivity|].
  cbn [Over.for_each for_each]. rewrite (apply_pair_binary64 ri ni st pr Hw).
  destruct (apply_pair ri ni st pr) as [s|] eqn:E; [|reflexivity].
  cbn [bind]. apply IH. now apply (apply_pair_whole ri ni st s pr).
Qed.

Lemma nodes_left_rounded (st : tables) :
  nodes_left (rounded st) = map rounded_node (nodes_left st).
Proof.
  unfold nodes_left, rounded; cbn [nodes].
  induction (nodes st) as [|n ns IH]; [reflexivity|].
  cbn [map filter]. change (r_cap (rounded_node n)) with (r_cap n).
  destruct (Qgtb (r_cap n) 0); cbn [map]; now rewrite IH.
Qed.

Lemma n_index_rounded (st : tables) : n_index (rounded st) = n_index st.
Proof.
  unfold n_index. rewrite nodes_left_rounded, map_map. reflexivity.
Qed.

Lemma all_filled_rounded (st : tables) : all_filled (rounded st) = all_filled st.
Proof. unfold all_filled. now rewrite nodes_left_rounded, length_map. Qed.

Lemma fresh_rounded (st : tables) : fresh st -> rounded st = st.
Proof.
  intros [Hf _]. destruct st as [rs ns]. unfold rounded; cbn [r_nodes nodes] in *.
  f_equal. induction Hf as [|n ns [_ E] _ IH]; [reflexivity|].
  cbn [map]. rewrite IH. f_equal.
  destruct n as [nm la lo ca si sf rc]. cbn in E. subst sf. reflexivity.
Qed.

Lemma cells_rounded (c : option (list Q)) :
  cells (option_map (map round) c) = map round (cells c).
Proof. now destruct c. Qed.

Lemma combine_rounded (l : list label) (l' : list Q) :
  combine l (map round l') = rounded_shares (combine l l').
Proof.
  revert l'. induction l as [|a l IH]; intros [|b l']; try reflexivity.
  cbn. f_equal. apply IH.
Qed.

Lemma node_assignments_rounded (n : node) :
  node_assignments (rounded_node n) = rounded_shares (node_assignments n).
Proof.
  unfold node_assignments, assignments, rounded_node; cbn [site_id site_fracs].
  rewrite cells_rounded. apply combine_rounded.
Qed.

Section Simulation.
Variable tree_query : list point -> list point -> list distance * list nat.

Lemma nominations_rounded (st : tables) :
  Over.nominations tree_query (rounded st) = Over.nominations tree_query st.
Proof.
  unfold Over.nominations. rewrite nodes_left_rounded, map_map. reflexivity.
Qed.

Lemma node_pairs_rounded (st : tables) :
  Over.node_pairs tree_query (rounded st) = Over.node_pairs tree_query st.
Proof. unfold Over.node_pairs. now rewrite nominations_rounded. Qed.

Lemma pass_whole (st st' : tables) :
  whole st -> Over.pass exact tree_query st = Ok st' -> whole st'.
Proof.
  intros Hw E. unfold Over.pass in E. rewrite Over_for_each_exact in E.
  exact (for_each_whole _ _ _ st st' Hw E).
Qed.

Lemma pass_binary64 (st : tables) :
  whole st ->
  Over.pass binary64 tree_query (rounded st)
  = match Over.pass exact tree_query st with
    | Ok s => Ok (rounded s)
    | Raise e => Raise e
    end.
Proof.
  intro Hw. unfold Over.pass.
  rewrite node_pairs_rounded, n_index_rounded, Over_for_each_exact.
  change (r_index (rounded st)) with (r_index st).
  now apply for_each_binary64.
Qed.

Lemma while_true_binary64 (fuel : nat) (st : tables) :
  whole st ->
  Over.while_true binary64 tree_query fuel (rounded st)
  = match Over.while_true exact tree_query fuel st with
    | Some (Ok s) => Some (Ok (rounded s))
    | Some (Raise e) => Some (Raise e)
    | None => None
    end.
Proof.
  revert st. induction fuel as [|fuel IH]; intros st Hw; [reflexivity|].
  cbn [Over.while_true]. rewrite (pass_binary64 st Hw).
  destruct (Over.pass exact tree_query st) as [s|] eqn:E; [|reflexivity].
  rewrite all_filled_rounded. destruct (all_filled s); [reflexivity|].
  apply IH. now apply (pass_whole st s).
Qed.

Lemma after_passes_whole (m : nat) (st s : tables) :
  whole st -> Over.after_passes exact tree_query m st = Some s -> whole s.
Proof.
  revert st. induction m as [|m IH]; intros st Hw E;
    cbn [Over.after_passes] in E.
  - now injection E as <-.
  - destruct (Over.pass exact tree_query st) as [s1|] eqn:E1; [|discriminate].
    destruct (all_filled s1); [discriminate|].
    apply (IH s1); [|exact E]. now apply (pass_whole st s1).
Qed.

Lemma after_passes_binary64 (m : nat) (st : tables) :
  whole st ->
  Over.after_passes binary64 tree_query m (rounded st)
  = option_map rounded (Over.after_passes exact tree_query m st).
Proof.
  revert st. induction m as [|m IH]; intros st Hw; [reflexivity|].
  cbn [Over.after_passes]. rewrite (pass_binary64 st Hw).
  destruct (Over.pass exact tree_query st) as [s|] eqn:E; [|reflexivity].
  rewrite all_filled_rounded. destruct (all_filled s); [reflexivity|].
  apply IH. now apply (pass_whole st s).
Qed.

Lemma inside_pass_binary64 (k : nat) (st : tables) :
  whole st ->
  Over.inside_pass binary64 tree_query k (rounded st)
  = match Over.inside_pass exact tree_query k st with
    | Ok s => Ok (rounded s)
    | Raise e => Raise e
    end.
Proof.
  intro Hw. unfold Over.inside_pass.
  rewrite node_pairs_rounded, n_index_rounded, Over_for_each_exact.
  change (r_index (rounded st)) with (r_index st).
  now apply for_each_binary64.
Qed.

(** Every state of the binary64 run is a state of the exact run with its
    fractions rounded. *)
Lemma visits_binary64 (st0 s' : tables) :
  whole st0 -> Over.visits binary64 tree_query (rounded st0) s' ->
  exists s, s' = rounded s /\ Over.visits exact tree_query st0 s.
Proof.
  intros Hw (m & k & st' & Em & Ek).
  rewrite (after_passes_binary64 m st0 Hw) in Em.
  destruct (Over.after_passes exact tree_query m st0) as [st|] eqn:Em';
    [|discriminate].
  cbn [option_map] in Em. injection Em as <-.
  rewrite (inside_pass_binary64 k st (after_passes_whole m st0 st Hw Em')) in Ek.
  destruct (Over.inside_pass exact tree_query k st) as [s|] eqn:Ek';
    [|discriminate].
  injection Ek as <-. exists s. split; [reflexivity|]. now exists m, k, st.
Qed.
End Simulation.

(** ** Fractions of whole numbers are normal numbers *)

Lemma least_normal_small : 2 ^ (-1022) <= unit_roundoff.
Proof. apply Qle_bool_iff. vm_compute. reflexivity. Qed.

Lemma share_normal (x c : Q) :
  whole_number x -> 0 < x -> whole_number c -> 0 < c -> 2 ^ (-1022) <= x / c.
Proof.
  intros (a & -> & Ha) Hx (b & -> & Hb) Hc.
  apply Qle_trans with unit_roundoff; [apply least_normal_small|].
  apply Qle_shift_div_l; [exact Hc|].
  assert (H1 : 1 <= inject_Z a).
  { unfold Qlt in Hx. unfold Qle. simpl in *. lia. }
  assert (H2 : inject_Z b <= 9007199254740992).
  { unfold Qle. simpl. lia. }
  unfold unit_roundoff. lra.
Qed.

Lemma frac_of_normal (r : resource) (n : node) :
  whole_number (res_capacity r) -> whole_number (res_r_cap r) ->
  whole_number (r_cap n) ->
  0 < res_r_cap r -> 0 < r_cap n -> res_r_cap r <= res_capacity r ->
  2 ^ (-1022) <= frac_of r n.
Proof.
  intros Hc Hr Hn Hrp Hnp Hle. unfold frac_of, apportion.
  destruct (Qgtb (r_cap n) (res_r_cap r)); cbn [fst];
    apply share_normal; auto; lra.
Qed.

Lemma drawn_whole (st : tables) (r : resource) (n : node) :
  whole st -> In r (r_nodes st) -> In n (nodes st) -> whole (drawn st r n).
Proof.
  intros [Hwr Hwn] Hinr Hinn.
  pose proof Hwr as Hwr'. pose proof Hwn as Hwn'.
  rewrite Forall_forall in Hwr', Hwn'.
  destruct (Hwr' r Hinr) as [Hc Hrc]. specialize (Hwn' n Hinn).
  destruct (apportion_whole r n Hc Hrc Hwn') as (A1 & A2 & A3).
  split; unfold drawn; cbn [r_nodes nodes].
  - apply Forall_loc_set; [exact Hwr | now split].
  - apply Forall_loc_set; [exact Hwn | exact A3].
Qed.

Lemma drawn_normal (st : tables) (r : resource) (n : node) :
  whole st -> nonneg_res st -> normal st ->
  In r (r_nodes st) -> In n (nodes st) ->
  0 < res_r_cap r -> 0 < r_cap n -> normal (drawn st r n).
Proof.
  intros [Hwr Hwn] Hnn Hnorm Hinr Hinn Hrp Hnp.
  unfold normal, drawn; cbn [nodes].
  apply Forall_loc_set; [exact Hnorm|].
  rewrite node_after_fracs. apply Forall_app. split.
  - unfold normal in Hnorm. rewrite Forall_forall in Hnorm. now apply Hnorm.
  - constructor; [|constructor].
    rewrite Forall_forall in Hwr, Hwn. unfold nonneg_res in Hnn.
    rewrite Forall_forall in Hnn.
    destruct (Hwr r Hinr) as [Hc Hrc]. destruct (Hnn r Hinr) as [_ Hle].
    apply frac_of_normal; auto.
Qed.

Lemma fresh_normal (st : tables) : fresh st -> normal st.
Proof.
  intros [Hf _]. unfold normal. apply Forall_forall. intros n Hin.
  rewrite Forall_forall in Hf. destruct (Hf n Hin) as [_ E].
  unfold fracs. rewrite E. constructor.
Qed.

Lemma normal_assignments (n : node) :
  Forall (fun f => 2 ^ (-1022) <= f) (fracs n) ->
  Forall (fun x => 2 ^ (-1022) <= snd x) (node_assignments n).
Proof.
  intro H. apply Forall_forall. intros [k f] Hin.
  unfold node_assignments, assignments in Hin. apply in_combine_r in Hin.
  rewrite Forall_forall in H. apply H.
  unfold fracs. unfold cells in Hin. exact Hin.
Qed.

(** ** Rounded shares stay within the unit roundoff *)

Lemma round_share (f c : Q) :
  2 ^ (-1022) <= f -> 0 <= c ->
  f * c - f * c * unit_roundoff <= round f * c /\
  round f * c <= f * c + f * c * unit_roundoff.
Proof.
  intros Hf Hc. destruct (round_error f Hf) as [H1 H2].
  set (u := unit_roundoff) in *. set (g := round f) in *. split; nra.
Qed.

Lemma capacity_of_nonneg (rs : list resource) (k : label) :
  Forall (fun r => 0 <= res_capacity r) rs -> 0 <= capacity_of rs k.
Proof.
  intro H. unfold capacity_of.
  destruct (find (fun r => Z.eqb (res_name r) k) rs) as [r|] eqn:E; [|lra].
  apply find_some in E. rewrite Forall_forall in H. now apply H.
Qed.

Lemma Qsum_cons (x : Q) (l : list Q) : Qsum (x :: l) = x + Qsum l.
Proof. reflexivity. Qed.

Lemma Qsum_within {A : Type} (u : Q) (f g : A -> Q) (l : list A) :
  Forall (fun x => f x - f x * u <= g x /\ g x <= f x + f x * u) l ->
  Qsum (map f l) - Qsum (map f l) * u <= Qsum (map g l) /\
  Qsum (map g l) <= Qsum (map f l) + Qsum (map f l) * u.
Proof.
  intro H. induction H as [|x l [H1 H2] _ [I1 I2]]; cbn [map].
  - unfold Qsum; simpl. split; lra.
  - rewrite !Qsum_cons. split; lra.
Qed.

Lemma delivered_rounded (rs : list resource) (a : list (label * Q)) :
  Forall (fun r => 0 <= res_capacity r) rs ->
  Forall (fun x => 2 ^ (-1022) <= snd x) a ->
  delivered rs a - delivered rs a * unit_roundoff
  <= delivered rs (rounded_shares a) /\
  delivered rs (rounded_shares a)
  <= delivered rs a + delivered rs a * unit_roundoff.
Proof.
  intros Hrs Ha. unfold delivered, rounded_shares. rewrite map_map.
  apply (Qsum_within unit_roundoff
           (fun x => snd x * capacity_of rs (fst x))
           (fun x => round (snd x) * capacity_of rs (fst x)) a).
  apply Forall_forall. intros x Hx. rewrite Forall_forall in Ha.
  apply round_share; [now apply Ha | now apply capacity_of_nonneg].
Qed.

Lemma taken_cons (k : label) (x : label * Q) (a : list (label * Q)) :
  taken k (x :: a)
  = if Z.eqb (fst x) k then snd x + taken k a else taken k a.
Proof. unfold taken. cbn [filter]. now destruct (Z.eqb (fst x) k). Qed.

Lemma taken_rounded (k : label) (a : list (label * Q)) :
  Forall (fun x => 2 ^ (-1022) <= snd x) a ->
  taken k a - taken k a * unit_roundoff <= taken k (rounded_shares a) /\
  taken k (rounded_shares a) <= taken k a + taken k a * unit_roundoff.
Proof.
  intro Ha. induction Ha as [|x a Hf _ [I1 I2]].
  - unfold taken, Qsum; simpl. split; lra.
  - change (rounded_shares (x :: a))
      with ((fst x, round (snd x)) :: rounded_shares a).
    rewrite !taken_cons. cbn [fst snd].
    destruct (Z.eqb (fst x) k); [|now split].
    destruct (round_error (snd x) Hf). split; lra.
Qed.

Lemma used_rounded (k : label) (c : Q) (rows : list (list (label * Q))) :
  0 <= c ->
  Forall (Forall (fun x => 2 ^ (-1022) <= snd x)) rows ->
  used k c rows - used k c rows * unit_roundoff
  <= used k c (map rounded_shares rows) /\
  used k c (map rounded_shares rows)
  <= used k c rows + used k c rows * unit_roundoff.
Proof.
  intros Hc Hrows. unfold used. rewrite map_map.
  apply (Qsum_within unit_roundoff (fun a => taken k a * c)
           (fun a => taken k (rounded_shares a) * c) rows).
  apply Forall_forall. intros a Ha. rewrite Forall_forall in Hrows.
  destruct (taken_rounded k a (Hrows a Ha)) as [T1 T2].
  set (u := unit_roundoff) in *. set (t := taken k a) in *.
  set (t' := taken k (rounded_shares a)) in *. split; nra.
Qed.

(** ** What every state of the exact run on whole numbers satisfies *)

Lemma sound_base (st0 s : tables) : sound st0 s -> base s /\ placed s.
Proof. intros (Ht & _ & Hp & _). split; [exact (proj1 Ht) | exact Hp]. Qed.

Lemma drawn_sound (st0 st : tables) (r : resource) (n : node) :
  sound st0 st -> In r (r_nodes st) -> In n (nodes st) ->
  0 < res_r_cap r -> 0 < r_cap n -> sound st0 (drawn st r n).
Proof.
  intros (Ht & Hnn & Hp & Hw & Hnorm) Hinr Hinn Hrp Hnp.
  pose proof Ht as (_ & Hnr & _).
  split; [now apply drawn_tracks|].
  split; [apply (drawn_nonneg st r n); auto; now split|].
  split; [now apply drawn_placed|].
  split; [now apply drawn_whole|].
  now apply drawn_normal.
Qed.

Lemma loads_sound (nd rm : DataFrame) (st0 : tables) :
  loads nd rm st0 -> placed st0 -> whole st0 -> sound st0 st0.
Proof.
  intros Hl Hp Hw. destruct (loads_spec nd rm st0 Hl) as (Hf & Hb & _).
  assert (Hc : Forall (fun r => 0 <= res_capacity r) (r_nodes st0)).
  { destruct Hw as [Hwr _]. apply Forall_forall. intros r Hin.
    rewrite Forall_forall in Hwr. destruct (Hwr r Hin) as [H _].
    now apply whole_number_nonneg. }
  split; [now apply fresh_tracks|]. split.
  { destruct Hw as [_ Hwn]. apply Forall_forall. intros n Hin.
    rewrite Forall_forall in Hwn. apply whole_number_nonneg. now apply Hwn. }
  split; [exact Hp|]. split; [exact Hw|]. now apply fresh_normal.
Qed.

(** The shares of a state of the exact run: their roundings are what the
    binary64 run holds, and no site gives more than it has. *)
Lemma sound_shares (st0 s : tables) (k : label) (c : Q) :
  sound st0 s -> whole st0 -> In (k, c) (sites (r_nodes st0)) ->
  map node_assignments (nodes (rounded s))
  = map rounded_shares (map node_assignments (nodes s)) /\
  used k c (map node_assignments (nodes s)) <= c /\
  used k c (map node_assignments (nodes (rounded s)))
  <= c + c * unit_roundoff.
Proof.
  intros (Ht & _ & _ & _ & Hnorm) [Hwr _] Hin.
  assert (E : map node_assignments (nodes (rounded s))
              = map rounded_shares (map node_assignments (nodes s))).
  { unfold rounded; cbn [nodes]. rewrite !map_map. apply map_ext.
    apply node_assignments_rounded. }
  pose proof (tracks_conserved st0 s k c Ht Hin) as Hle.
  split; [exact E|]. split; [exact Hle|]. rewrite E.
  assert (Hc : 0 <= c).
  { unfold sites in Hin. apply in_map_iff in Hin. destruct Hin as [r [Er Hr]].
    injection Er as _ <-. rewrite Forall_forall in Hwr.
    destruct (Hwr r Hr) as [H _]. now apply whole_number_nonneg. }
  destruct (used_rounded k c (map node_assignments (nodes s)) Hc) as [_ U].
  { apply Forall_forall. intros a Ha. apply in_map_iff in Ha.
    destruct Ha as [n [<- Hn]]. apply normal_assignments.
    unfold normal in Hnorm. rewrite Forall_forall in Hnorm. now apply Hnorm. }
  assert (Hu : 0 <= unit_roundoff) by (unfold unit_roundoff, Qle; simpl; lia).
  set (u := unit_roundoff) in *.
  set (x := used k c (map node_assignments (nodes s))) in *. nra.
Qed.

(** ** Conservation and completion in binary64 *)

Lemma Over_allocate_loads (F : arithmetic)
  (tree_query : list point -> list point -> list distance * list nat)
  (fuel : nat) (nd rm : DataFrame) (st0 : tables) :
  loads nd rm st0 ->
  Over.allocate F tree_query fuel nd rm = Over.while_true F tree_query fuel st0.
Proof. intros (E & _). unfold Over.allocate. now rewrite E. Qed.

Lemma Over_nearest_power_nodes_ok (F : arithmetic)
  (tree_query : list point -> list point -> list distance * list nat)
  (fuel : nat) (nd rm : DataFrame) (tbl : power_table) :
  Over.nearest_power_nodes F tree_query fuel nd rm = Some (Ok tbl) ->
  exists st, Over.allocate F tree_query fuel nd rm = Some (Ok st) /\
             tbl = select_columns st.
Proof.
  unfold Over.nearest_power_nodes.
  destruct (Over.allocate F tree_query fuel nd rm) as [[st|e]|];
    try discriminate.
  intro H. injection H as <-. eauto.
Qed.

(** C5 (in binary64, on whole numbers below [2 ^ 53], for any query that
    answers with positions of the tree): in every state the run goes
    through, and in the table it returns, the fractions held are the
    binary64 roundings of shares that, for every resource site labelled [k]
    with total capacity [c], sum times [c] to at most [c]; the rounded
    fractions themselves sum times [c] to at most [c] plus [c] times the
    unit roundoff [2 ^ -53]. *)
Theorem C5_conservation
  (tree_query : list point -> list point -> list distance * list nat)
  (nd rm : DataFrame) (st0 : tables) :
  answers tree_query -> loads nd rm st0 -> placed st0 -> whole st0 ->
  (forall s k c, Over.visits binary64 tree_query st0 s ->
     In (k, c) (sites (r_nodes st0)) ->
     exists shares,
       map node_assignments (nodes s) = map rounded_shares shares /\
       used k c shares <= c /\
       used k c (map node_assignments (nodes s)) <= c + c * unit_roundoff) /\
  (forall fuel tbl k c,
     Over.nearest_power_nodes binary64 tree_query fuel nd rm = Some (Ok tbl) ->
     In (k, c) (sites (r_nodes st0)) ->
     exists shares,
       map row_assignments (out_rows tbl) = map rounded_shares shares /\
       used k c shares <= c /\
       used k c (map row_assignments (out_rows tbl)) <= c + c * unit_roundoff).
Proof.
  intros Hq Hl Hp Hw. destruct (loads_spec nd rm st0 Hl) as (Hf & Hb & _).
  pose proof (loads_sound nd rm st0 Hl Hp Hw) as Hs0.
  assert (Hv : forall s, Over.visits exact tree_query st0 s -> sound st0 s).
  { intros s Hs.
    exact (Over_visits_inv tree_query Hq (sound st0) (sound_base st0)
             (drawn_sound st0) st0 s Hs0 Hs). }
  split.
  - intros s' k c Hs' Hin. rewrite <- (fresh_rounded st0 Hf) in Hs' at 1.
    destruct (visits_binary64 tree_query st0 s' Hw Hs') as (s & -> & Hs).
    exists (map node_assignments (nodes s)).
    exact (sound_shares st0 s k c (Hv s Hs) Hw Hin).
  - intros fuel tbl k c E Hin.
    destruct (Over_nearest_power_nodes_ok _ _ _ _ _ _ E) as (st' & Ea & ->).
    rewrite (Over_allocate_loads binary64 tree_query fuel nd rm st0 Hl) in Ea.
    pose proof (while_true_binary64 tree_query fuel st0 Hw) as Eb.
    rewrite (fresh_rounded st0 Hf), Ea in Eb.
    destruct (Over.while_true exact tree_query fuel st0) as [[s|e]|] eqn:Ex;
      try discriminate.
    injection Eb as ->. rewrite select_columns_assignments.
    exists (map node_assignments (nodes s)).
    apply (sound_shares st0 s k c); auto. apply Hv.
    exact (Over_while_true_visits tree_query fuel st0 s Ex).
Qed.

(** C4 (in binary64, on whole numbers below [2 ^ 53], for any query that
    answers with positions of the tree): when all demands and capacities are
    positive and the total capacity covers the total demand,
    [nearest_power_nodes] returns; at the [break] every node has remaining
    demand exactly 0, and the fractions in the row of each node are the
    binary64 roundings of shares whose sum of (share times total capacity of
    the matched resource) is the demand of the node; the same sum over the
    rounded fractions is the demand up to the unit roundoff [2 ^ -53],
    relatively. *)
Theorem C4_completion
  (tree_query : list point -> list point -> list distance * list nat)
  (nd rm : DataFrame) (st0 : tables) (fuel : nat) :
  answers tree_query -> loads nd rm st0 -> placed st0 -> whole st0 ->
  positive st0 -> unmet st0 <= total_capacity st0 ->
  (pass_bound st0 <= fuel)%nat ->
  exists st,
    Over.allocate binary64 tree_query fuel nd rm = Some (Ok st) /\
    Over.nearest_power_nodes binary64 tree_query fuel nd rm
    = Some (Ok (select_columns st)) /\
    Forall (fun n => r_cap n = 0) (nodes st) /\
    forall n0, In n0 (nodes st0) ->
      exists row shares,
        In row (out_rows (select_columns st)) /\
        out_name row = node_name n0 /\
        row_assignments row = rounded_shares shares /\
        delivered (r_nodes st0) shares == r_cap n0 /\
        r_cap n0 - r_cap n0 * unit_roundoff
        <= delivered (r_nodes st0) (row_assignments row) /\
        delivered (r_nodes st0) (row_assignments row)
        <= r_cap n0 + r_cap n0 * unit_roundoff.
Proof.
  intros Hq Hl Hp Hw Hpos Hsuff Hfuel.
  destruct (loads_spec nd rm st0 Hl) as (Hf & Hb & _).
  pose proof (positive_balanced st0 Hf Hb Hpos) as Hbal.
  rewrite <- (fresh_available st0 Hf) in Hsuff.
  unfold pass_bound in Hfuel. pose proof (measure_le st0) as Hmeasure.
  destruct (Over_while_true_sufficient tree_query Hq fuel st0 Hbal Hp Hsuff)
    as [st E]; try lia.
  pose proof (loads_sound nd rm st0 Hl Hp Hw) as Hs0.
  destruct (Over_while_true_inv tree_query Hq (sound st0) (sound_base st0)
              (drawn_sound st0) fuel st0 st Hs0 E)
    as [(Htr & Hnn & _ & Hwst & Hnorm) Hleft].
  pose proof (while_true_binary64 tree_query fuel st0 Hw) as Eb.
  rewrite (fresh_rounded st0 Hf), E in Eb.
  assert (Ea : Over.allocate binary64 tree_query fuel nd rm
               = Some (Ok (rounded st))).
  { now rewrite (Over_allocate_loads binary64 tree_query fuel nd rm st0 Hl). }
  exists (rounded st). split; [exact Ea|]. split.
  { unfold Over.nearest_power_nodes. now rewrite Ea. }
  split.
  { unfold rounded; cbn [nodes]. apply Forall_forall. intros n' Hin'.
    apply in_map_iff in Hin'. destruct Hin' as [n [<- Hin]].
    change (r_cap (rounded_node n)) with (r_cap n).
    unfold nonneg_nodes in Hnn. rewrite Forall_forall in Hnn.
    specialize (Hnn n Hin).
    pose proof (filter_nil_all _ _ n Hleft Hin) as Hn.
    apply Qgtb_false in Hn. apply whole_number_zero_eq; [|lra].
    destruct Hwst as [_ Hwn]. rewrite Forall_forall in Hwn. now apply Hwn. }
  intros n0 Hin0. destruct Htr as (_ & _ & _ & Hnames & Hnode & _).
  assert (Hn : In (node_name n0) (map node_name (nodes st))).
  { rewrite Hnames. now apply in_map. }
  apply in_map_iff in Hn. destruct Hn as [n [En Hin]].
  exists (mkPowerRow (node_name n) (latitude n) (longitude n) (capacity n)
            (site_id n) (option_map (map round) (site_fracs n))),
         (node_assignments n).
  assert (Er : row_assignments
                 (mkPowerRow (node_name n) (latitude n) (longitude n)
                    (capacity n) (site_id n)
                    (option_map (map round) (site_fracs n)))
               = rounded_shares (node_assignments n)).
  { exact (node_assignments_rounded n). }
  assert (Ed : delivered (r_nodes st0) (node_assignments n) == r_cap n0).
  { rewrite Forall_forall in Hnode. specialize (Hnode n Hin).
    rewrite En in Hnode. destruct Hb as (_ & Hnd & _).
    rewrite (demand_of_In _ _ Hnd Hin0) in Hnode.
    unfold nonneg_nodes in Hnn. rewrite Forall_forall in Hnn.
    specialize (Hnn n Hin).
    pose proof (filter_nil_all _ _ n Hleft Hin) as Hn.
    apply Qgtb_false in Hn. lra. }
  split; [|split; [exact En|split; [exact Er|split; [exact Ed|]]]].
  - unfold select_columns, rounded; cbn [out_rows nodes]. rewrite map_map.
    apply in_map_iff. exists n. split; [reflexivity | exact Hin].
  - rewrite Er.
    destruct (delivered_rounded (r_nodes st0) (node_assignments n)) as [D1 D2].
    + destruct Hw as [Hwr _]. apply Forall_forall. intros r Hr.
      rewrite Forall_forall in Hwr. destruct (Hwr r Hr) as [H _].
      now apply whole_number_nonneg.
    + apply normal_assignments. unfold normal in Hnorm.
      rewrite Forall_forall in Hnorm. now apply Hnorm.
    + rewrite Ed in D1, D2. split; [exact D1 | exact D2].
Qed.

(** C4, witness: the scenario of the design document, with the query of the
    embedding. *)
Lemma C4_witness :
  exists st,
    Over.allocate binary64 query 4 example_nodes example_resources
    = Some (Ok st) /\
    Over.nearest_power_nodes binary64 query 4 example_nodes example_resources
    = Some (Ok (select_columns st)) /\
    Forall (fun n => r_cap n = 0) (nodes st) /\
    forall n0, In n0 (nodes example_loaded) ->
      exists row shares,
        In row (out_rows (select_columns st)) /\
        out_name row = node_name n0 /\
        row_assignments row = rounded_shares shares /\
        delivered (r_nodes example_loaded) shares == r_cap n0 /\
        r_cap n0 - r_cap n0 * unit_roundoff
        <= delivered (r_nodes example_loaded) (row_assignments row) /\
        delivered (r_nodes example_loaded) (row_assignments row)
        <= r_cap n0 + r_cap n0 * unit_roundoff.
Proof.
  apply (C4_completion query example_nodes example_resources example_loaded 4).
  - exact query_answers.
  - split; [reflexivity | split; by_rows].
  - split; repeat (constructor; [unfold degrees; simpl; lra|]); constructor.
  - split; repeat (constructor;
      [repeat split; eexists; (split; [reflexivity | lia])|]); constructor.
  - split; by_rows.
  - vm_compute. discriminate.
  - vm_compute. lia.
Defined.

(** C5, witness: the scenario of the design document, with the query of the
    embedding. *)
Lemma C5_witness :
  (forall s k c, Over.visits binary64 query example_loaded s ->
     In (k, c) (sites (r_nodes example_loaded)) ->
     exists shares,
       map node_assignments (nodes s) = map rounded_shares shares /\
       used k c shares <= c /\
       used k c (map node_assignments (nodes s)) <= c + c * unit_roundoff) /\
  (forall fuel tbl k c,
     Over.nearest_power_nodes binary64 query fuel example_nodes example_resources
     = Some (Ok tbl) ->
     In (k, c) (sites (r_nodes example_loaded)) ->
     exists shares,
       map row_assignments (out_rows tbl) = map rounded_shares shares /\
       used k c shares <= c /\
       used k c (map row_assignments (out_rows tbl)) <= c + c * unit_roundoff).
Proof.
  apply (C5_conservation query example_nodes example_resources example_loaded).
  - exact query_answers.
  - split; [reflexivity | split; by_rows].
  - split; repeat (constructor; [unfold degrees; simpl; lra|]); constructor.
  - split; repeat (constructor;
      [repeat split; eexists; (split; [reflexivity | lia])|]); constructor.
Defined.

(** C4, counterexample, in binary64.  A demand of [2 ^ 53 + 4] against sites
    of capacity 1, 1 and [2 ^ 53 + 2]: demands and capacities are positive
    and the capacity covers the demand, yet the two subtractions of 1 are
    lost to rounding, the third site leaves a demand of 2 and the call ends
    in [IndexError].  And where the call returns, at a site of capacity 25
    that serves demands of 7, 14 and 4, the fraction of the first node times
    25 is more than 7. *)
Lemma C4_counterexample :
  loads large_nodes large_resources large_loaded /\
  positive large_loaded /\
  unmet large_loaded <= total_capacity large_loaded /\
  nearest_power_nodes 4 large_nodes large_resources <> Some (Raise IndexError) /\
  Over.nearest_power_nodes binary64 query 4 large_nodes large_resources
  = Some (Raise IndexError) /\
  loads shared_nodes shared_resources shared_loaded /\
  positive shared_loaded /\
  unmet shared_loaded <= total_capacity shared_loaded /\
  Over.nearest_power_nodes binary64 query 4 shared_nodes shared_resources
  = Some (Ok shared_result) /\
  exists row, In row (out_rows shared_result) /\ out_name row = 1%Z /\
              7 < delivered (r_nodes shared_loaded) (row_assignments row).
Proof.
  split; [split; [reflexivity | split; by_rows]|].
  split; [split; by_rows|].
  split; [vm_compute; discriminate|].
  split; [vm_compute; discriminate|].
  split; [vm_compute; reflexivity|].
  split; [split; [reflexivity | split; by_rows]|].
  split; [split; by_rows|].
  split; [vm_compute; discriminate|].
  split; [vm_compute; reflexivity|].
  eexists. split; [left; reflexivity|]. split; [reflexivity|].
  vm_compute. reflexivity.
Qed.

(** C5, counterexample, in binary64: the site of capacity 25 that serves
    demands of 7, 14 and 4.  The three fractions of the returned table, each
    rounded, sum times 25 to more than 25. *)
Lemma C5_counterexample :
  loads shared_nodes shared_resources shared_loaded /\
  Over.nearest_power_nodes binary64 query 4 shared_nodes shared_resources
  = Some (Ok shared_result) /\
  In (101%Z, 25) (sites (r_nodes shared_loaded)) /\
  25 < used 101 25 (map row_assignments (out_rows shared_result)).
Proof.
  split; [split; [reflexivity | split; by_rows]|].
  split; [vm_compute; reflexivity|].
  split; [left; reflexivity|].
  vm_compute. reflexivity.
Qed.

(** ** The pass bound, and the [break] in binary64 *)

Lemma binary64_returns
  (tree_query : list point -> list point -> list distance * list nat)
  (nd rm : DataFrame) (st0 : tables) (fuel : nat) :
  answers tree_query -> loads nd rm st0 -> placed st0 -> whole st0 ->
  positive st0 -> unmet st0 <= total_capacity st0 ->
  (pass_bound st0 <= fuel)%nat ->
  exists st,
    Over.while_true exact tree_query fuel st0 = Some (Ok st) /\
    Over.allocate binary64 tree_query fuel nd rm = Some (Ok (rounded st)).
Proof.
  intros Hq Hl Hp Hw Hpos Hsuff Hfuel.
  destruct (loads_spec nd rm st0 Hl) as (Hf & Hb & _).
  pose proof (positive_balanced st0 Hf Hb Hpos) as Hbal.
  rewrite <- (fresh_available st0 Hf) in Hsuff.
  unfold pass_bound in Hfuel. pose proof (measure_le st0) as Hmeasure.
  destruct (Over_while_true_sufficient tree_query Hq fuel st0 Hbal Hp Hsuff)
    as [st E]; try lia.
  exists st. split; [exact E|].
  pose proof (while_true_binary64 tree_query fuel st0 Hw) as Eb.
  rewrite (fresh_rounded st0 Hf), E in Eb.
  now rewrite (Over_allocate_loads binary64 tree_query fuel nd rm st0 Hl).
Qed.

(** C6 (as the code has it): on tables with unique labels the loop stops
    within [max 1 (resources + nodes)] passes, which is [resources + nodes]
    as soon as there is a node: it reaches its [break] or raises the
    [IndexError] of [r_index[i]].  Every pass leaves each row, of both
    tables, at most the remaining capacity it had; a pass that starts with
    an unmet node leaves a resource or a node that had capacity left with
    none, and so fewer rows with capacity left.  In binary64, on whole
    numbers below [2 ^ 53] that are positive, with capacity for all demand
    and any query that answers with positions of the tree, the loop stops
    within the bound by its [break]. *)
Theorem C6_pass_bound (nd rm : DataFrame) (st0 : tables) :
  loads nd rm st0 ->
  (forall fuel, (pass_bound st0 <= fuel)%nat ->
     (exists tbl, nearest_power_nodes fuel nd rm = Some (Ok tbl)) \/
     nearest_power_nodes fuel nd rm = Some (Raise IndexError)) /\
  (nodes st0 <> [] ->
   pass_bound st0 = (length (r_nodes st0) + length (nodes st0))%nat) /\
  (forall m s s',
     after_passes m st0 = Some s -> pass s = Ok s' ->
     never_more s s' /\
     (nodes_left s <> [] ->
      ((exists r r', In r (r_left s) /\ In r' (r_nodes s') /\
                     res_name r' = res_name r /\ res_r_cap r' == 0) \/
       (exists n n', In n (nodes_left s) /\ In n' (nodes s') /\
                     node_name n' = node_name n /\ r_cap n' == 0)) /\
      (measure s' < measure s)%nat)) /\
  (forall tree_query fuel,
     answers tree_query -> placed st0 -> whole st0 -> positive st0 ->
     unmet st0 <= total_capacity st0 -> (pass_bound st0 <= fuel)%nat ->
     exists tbl,
       Over.nearest_power_nodes binary64 tree_query fuel nd rm = Some (Ok tbl)).
Proof.
  intros Hl. split; [|split; [|split]].
  - intros fuel Hfuel. now apply (stops_within_bound nd rm st0).
  - intro Hne. unfold pass_bound. destruct (nodes st0); [easy | cbn [length]; lia].
  - intros m s s' Em E.
    destruct (loads_spec nd rm st0 Hl) as (_ & Hb & _).
    assert (Hbs : base s).
    { apply (after_passes_inv base (fun x H => H)) with (m := m) (st0 := st0);
        auto. intros. now apply drawn_base. }
    pose proof (pass_ok_run s s' Hbs E) as Hrun.
    split; [now apply (run_draws_never_more s s' (pass_labels s))|].
    intro Hn. split.
    + apply (run_draws_zeroes s s' (pass_labels s) Hrun Hbs).
      unfold pass_labels, label_pairs.
      pose proof (node_pairs_nonempty s Hn) as Hp.
      destruct (node_pairs s); [easy | discriminate].
    + pose proof (pass_progress s s' Hbs Hn E). lia.
  - intros tree_query fuel Hq Hp Hw Hpos Hsuff Hfuel.
    destruct (binary64_returns tree_query nd rm st0 fuel Hq Hl Hp Hw Hpos
                Hsuff Hfuel) as (st & _ & Ea).
    exists (select_columns (rounded st)).
    unfold Over.nearest_power_nodes. now rewrite Ea.
Qed.

(** C6, witness: the scenario of the design document, bound 4. *)
Lemma C6_witness :
  (forall fuel, (pass_bound example_loaded <= fuel)%nat ->
     (exists tbl, nearest_power_nodes fuel example_nodes example_resources
                  = Some (Ok tbl)) \/
     nearest_power_nodes fuel example_nodes example_resources
     = Some (Raise IndexError)) /\
  (nodes example_loaded <> [] ->
   pass_bound example_loaded
   = (length (r_nodes example_loaded) + length (nodes example_loaded))%nat) /\
  (forall m s s',
     after_passes m example_loaded = Some s -> pass s = Ok s' ->
     never_more s s' /\
     (nodes_left s <> [] ->
      ((exists r r', In r (r_left s) /\ In r' (r_nodes s') /\
                     res_name r' = res_name r /\ res_r_cap r' == 0) \/
       (exists n n', In n (nodes_left s) /\ In n' (nodes s') /\
                     node_name n' = node_name n /\ r_cap n' == 0)) /\
      (measure s' < measure s)%nat)) /\
  (forall tree_query fuel,
     answers tree_query -> placed example_loaded -> whole example_loaded ->
     positive example_loaded ->
     unmet example_loaded <= total_capacity example_loaded ->
     (pass_bound example_loaded <= fuel)%nat ->
     exists tbl,
       Over.nearest_power_nodes binary64 tree_query fuel
         example_nodes example_resources = Some (Ok tbl)).
Proof.
  apply (C6_pass_bound example_nodes example_resources example_loaded).
  split; [reflexivity | split; by_rows].
Defined.
